(** * Quadtree image compression: a shallow embedding of [Quadtree.cpp]

    The development follows [src/src/Quadtree.cpp] function by function.

    Modelling conventions.
    - [int] is [Z]; the model covers executions without signed overflow
      (which is undefined behaviour in C++).  Integer division [/] of the
      source truncates toward zero and is [Z.quot].
    - [uchar] is a [Z] in [0, 255]; [Vec3b] is a record of three channels.
    - [double] is idealised as an exact rational ([Q]).  The places where
      IEEE arithmetic leaves the rationals (a quotient by a zero percentage,
      [numeric_limits<double>::max()]) are written out where they occur.
    - [cv::Mat] is a record of its dimensions and its pixel accessor
      [at_ i j] (row [i], column [j]); a region of interest is a view with
      shifted coordinates.
    - The functions of the C and OpenCV libraries that the source calls but
      that are not rational functions ([log2], [resize], [medianBlur]) are
      the members of the class [Externals].
    - The fields of the [Quadtree] aggregate that the algorithm reads or
      writes are threaded explicitly; the GIF visualisation (frames drawn on
      clones of the image) never writes to the tree and is left out.
    - The watchdog thread of [compressImage] is real time and is not
      modelled: [timeoutFlag] is a field that the modelled code only reads.
      The [async] tasks of the concurrent branches are run to completion in
      launch order. *)

From Stdlib Require Import ZArith QArith Qround Qabs List Bool Lia Lqa.
From Stdlib Require Import Morphisms.
Import ListNotations.
Local Open Scope Z_scope.
#[local] Set Warnings "-register-all".

(* ================================================================== *)
(** ** Numbers *)

(** [a / b] on [int]. *)
Definition cdiv (a b : Z) : Z := Z.quot a b.

(** [std::max] and [std::min] on [double]: [max(a,b) = (a < b) ? b : a],
    [min(a,b) = (b < a) ? b : a]. *)
Definition dmax (a b : Q) : Q := if Qlt_le_dec a b then b else a.
Definition dmin (a b : Q) : Q := if Qlt_le_dec b a then b else a.

(** [a < b] and [a <= b] on [double], as booleans. *)
Definition dlt (a b : Q) : bool := if Qlt_le_dec a b then true else false.
Definition dle (a b : Q) : bool := Qle_bool a b.

(** [static_cast<int>(d)] and [static_cast<uchar>(d)]: truncation toward
    zero; the conversion to [uchar] keeps the low eight bits. *)
Definition static_cast_int (d : Q) : Z := Z.quot (Qnum d) (Zpos (Qden d)).
Definition static_cast_uchar (d : Q) : Z := (static_cast_int d) mod 256.

(** [cvRound]: round to nearest, ties to even. *)
Definition cvRound (d : Q) : Z :=
  let f := Qfloor d in
  let r := (d - inject_Z f)%Q in
  if Qlt_le_dec r (1#2) then f
  else if Qlt_le_dec (1#2) r then f + 1
  else if Z.even f then f else f + 1.

(** [saturate_cast<uchar>(double)], used by OpenCV when a [Scalar] is
    written into an 8-bit matrix. *)
Definition saturate_cast_uchar (d : Q) : Z := Z.max 0 (Z.min 255 (cvRound d)).

(** [static_cast<int>(sqrt(d))] for [d >= 0]. *)
Definition int_sqrt (d : Q) : Z := Z.sqrt (Qfloor d).

Definition INT_MIN : Z := - 2 ^ 31.

(** [static_cast<int>(std::log2(n))] for an [int n]: the position of the
    highest set bit.  For [n = 0] the logarithm is minus infinity and the
    conversion is undefined; x86 yields [INT_MIN]. *)
Definition int_log2 (n : Z) : Z := if n <=? 0 then INT_MIN else Z.log2 n.

(** [numeric_limits<double>::max()]. *)
Definition DBL_MAX : Q := inject_Z (2 ^ 1024 - 2 ^ 971).

(* ================================================================== *)
(** ** Loops *)

(** [for (i = lo; i < hi; i++) acc = body i acc]. *)
Fixpoint for_loop {A : Type} (n : nat) (i : Z) (body : Z -> A -> A) (acc : A) : A :=
  match n with
  | O => acc
  | S n' => for_loop n' (i + 1) body (body i acc)
  end.

Definition for_range {A : Type} (lo hi : Z) (body : Z -> A -> A) (acc : A) : A :=
  for_loop (Z.to_nat (hi - lo)) lo body acc.

(* ================================================================== *)
(** ** Pixels, matrices, rectangles *)

Record Vec3b := mkVec3b { ch0 : Z; ch1 : Z; ch2 : Z }.

Record Scalar := mkScalar { s0 : Q; s1 : Q; s2 : Q }.

Record Mat := mkMat { rows : Z; cols : Z; at_ : Z -> Z -> Vec3b }.

Record Rect := mkRect { rx : Z; ry : Z; rw : Z; rh : Z }.

(** [Mat::empty()]; the default-constructed [Mat()] has no rows. *)
Definition empty (m : Mat) : bool := (rows m <=? 0) || (cols m <=? 0).

Definition Mat_default : Mat := mkMat 0 0 (fun _ _ => mkVec3b 0 0 0).

(** [image(rect)]. *)
Definition roi (image : Mat) (r : Rect) : Mat :=
  mkMat (rh r) (rw r) (fun i j => at_ image (ry r + i) (rx r + j)).

(** [Mat(size, type, Scalar(c0, c1, c2))]. *)
Definition Mat_fill (nrows ncols : Z) (s : Scalar) : Mat :=
  let p := mkVec3b (saturate_cast_uchar (s0 s)) (saturate_cast_uchar (s1 s))
                   (saturate_cast_uchar (s2 s)) in
  mkMat nrows ncols (fun _ _ => p).

Definition Scalar_of_Vec3b (c : Vec3b) : Scalar :=
  mkScalar (inject_Z (ch0 c)) (inject_Z (ch1 c)) (inject_Z (ch2 c)).

(** [rectangle(image, region, color, FILLED)]. *)
Definition rectangle_filled (image : Mat) (r : Rect) (s : Scalar) : Mat :=
  let p := mkVec3b (saturate_cast_uchar (s0 s)) (saturate_cast_uchar (s1 s))
                   (saturate_cast_uchar (s2 s)) in
  mkMat (rows image) (cols image)
        (fun i j =>
           if (rx r <=? j) && (j <? rx r + rw r) && (ry r <=? i) && (i <? ry r + rh r)
              && (0 <=? j) && (j <? cols image) && (0 <=? i) && (i <? rows image)
           then p else at_ image i j).

(** [Mat::zeros(size, type)]. *)
Definition Mat_zeros (nrows ncols : Z) : Mat :=
  mkMat nrows ncols (fun _ _ => mkVec3b 0 0 0).

(** [a & b] on [Rect] and [Rect::area]. *)
Definition Rect_and (a b : Rect) : Rect :=
  let x1 := Z.max (rx a) (rx b) in
  let y1 := Z.max (ry a) (ry b) in
  let w := Z.min (rx a + rw a) (rx b + rw b) - x1 in
  let h := Z.min (ry a + rh a) (ry b + rh b) - y1 in
  if (w <=? 0) || (h <=? 0) then mkRect 0 0 0 0 else mkRect x1 y1 w h.

Definition Rect_area (r : Rect) : Z := rw r * rh r.

(** [for (i = 0; i < nrows; i++) for (j = 0; j < ncols; j++) acc = body i j acc]. *)
Definition for_index {A : Type} (nrows ncols : Z) (body : Z -> Z -> A -> A) (acc : A) : A :=
  for_range 0 nrows (fun i acc => for_range 0 ncols (fun j acc => body i j acc) acc) acc.

(** The pixels of a block in row-major order. *)
Definition for_pixels {A : Type} (block : Mat) (body : Vec3b -> A -> A) (acc : A) : A :=
  for_index (rows block) (cols block) (fun i j acc => body (at_ block i j) acc) acc.

(** [cv::mean(block)]: the per-channel mean. *)
Definition pixel_sum (block : Mat) : Z * Z * Z :=
  for_pixels block
    (fun p '(a, b, c) => (a + ch0 p, b + ch1 p, c + ch2 p)) (0, 0, 0).

Definition mean (block : Mat) : Scalar :=
  let '(a, b, c) := pixel_sum block in
  let n := inject_Z (rows block * cols block) in
  mkScalar (inject_Z a / n) (inject_Z b / n) (inject_Z c / n).

(** An 8-bit image: every channel of every pixel is a [uchar]. *)
Definition valid_uchar (v : Z) : Prop := 0 <= v <= 255.
Definition valid_pixel (p : Vec3b) : Prop :=
  valid_uchar (ch0 p) /\ valid_uchar (ch1 p) /\ valid_uchar (ch2 p).
Definition valid_image (m : Mat) : Prop := forall i j, valid_pixel (at_ m i j).

(* ================================================================== *)
(** ** Library functions outside the rationals *)

Class Externals := {
  (** [std::log2] on [double]. *)
  log2 : Q -> Q;
  (** [cv::resize(src, dst, Size(), 0.5, 0.5, INTER_AREA)]. *)
  resize_half : Mat -> Mat;
  (** [cv::medianBlur(src, dst, 3)]. *)
  medianBlur3 : Mat -> Mat
}.

(** What the proofs use of [log2]: it is a function of the number denoted,
    it vanishes at 1 and it is not positive on (0, 1]. *)
Record log2_laws (E : Externals) : Prop := {
  log2_proper : forall a b : Q, (a == b)%Q -> (log2 a == log2 b)%Q;
  log2_one : (log2 1 == 0)%Q;
  log2_nonpos : forall p : Q, (0 < p)%Q -> (p <= 1)%Q -> (log2 p <= 0)%Q
}.

(* ================================================================== *)
(** ** Error metrics *)

Inductive ErrorMethod := VARIANCE | MAD | MAX_PIXEL_DIFF | ENTROPY | SSIM.

Definition sq (a : Q) : Q := (a * a)%Q.

Definition calculateVariance (block : Mat) : Q :=
  if empty block || (rows block * cols block <=? 1) then 0%Q else
  let meanColor := mean block in
  let '(sumSq0, sumSq1, sumSq2, count) :=
    for_pixels block
      (fun pixel '(a, b, c, n) =>
         ((a + sq (inject_Z (ch0 pixel) - s0 meanColor))%Q,
          (b + sq (inject_Z (ch1 pixel) - s1 meanColor))%Q,
          (c + sq (inject_Z (ch2 pixel) - s2 meanColor))%Q,
          n + 1))
      (0%Q, 0%Q, 0%Q, 0) in
  if count <=? 1 then 0%Q
  else ((sumSq0 + sumSq1 + sumSq2) / (3 * inject_Z count))%Q.

Definition calculateMAD (block : Mat) : Q :=
  if empty block then 0%Q else
  let meanColor := mean block in
  let '(madSum0, madSum1, madSum2, count) :=
    for_pixels block
      (fun pixel '(a, b, c, n) =>
         ((a + Qabs (inject_Z (ch0 pixel) - s0 meanColor))%Q,
          (b + Qabs (inject_Z (ch1 pixel) - s1 meanColor))%Q,
          (c + Qabs (inject_Z (ch2 pixel) - s2 meanColor))%Q,
          n + 1))
      (0%Q, 0%Q, 0%Q, 0) in
  if count =? 0 then 0%Q
  else ((madSum0 + madSum1 + madSum2) / (3 * inject_Z count))%Q.

Definition Vec3b_min (a p : Vec3b) : Vec3b :=
  mkVec3b (Z.min (ch0 a) (ch0 p)) (Z.min (ch1 a) (ch1 p)) (Z.min (ch2 a) (ch2 p)).
Definition Vec3b_max (a p : Vec3b) : Vec3b :=
  mkVec3b (Z.max (ch0 a) (ch0 p)) (Z.max (ch1 a) (ch1 p)) (Z.max (ch2 a) (ch2 p)).

(** The sum over the channels of [abs(pixel[c] - firstPixel[c])]. *)
Definition absdiff3 (pixel firstPixel : Vec3b) : Z :=
  Z.abs (ch0 pixel - ch0 firstPixel) + Z.abs (ch1 pixel - ch1 firstPixel)
  + Z.abs (ch2 pixel - ch2 firstPixel).

Definition calculateMaxPixelDiff (block : Mat) : Q :=
  if empty block then 0%Q else
  if rows block * cols block <=? 4 then
    let firstPixel := at_ block 0 0 in
    if rows block * cols block =? 1 then 0%Q else
    for_pixels block
      (fun pixel maxDiff => dmax maxDiff (inject_Z (absdiff3 pixel firstPixel) / 3)%Q)
      0%Q
  else
    let '(minVals, maxVals) :=
      for_pixels block
        (fun pixel '(mn, mx) => (Vec3b_min mn pixel, Vec3b_max mx pixel))
        (mkVec3b 255 255 255, mkVec3b 0 0 0) in
    (inject_Z ((ch0 maxVals - ch0 minVals) + (ch1 maxVals - ch1 minVals)
               + (ch2 maxVals - ch2 minVals)) / 3)%Q.

(** [hist[k]++] on [int hist[768]]. *)
Definition hist_incr (hist : Z -> Z) (k : Z) : Z -> Z :=
  fun i => if i =? k then hist i + 1 else hist i.

Section Model.
Context {E : Externals}.

Definition calculateEntropy (block : Mat) : Q :=
  if empty block || (rows block * cols block <? 16) then
    (calculateMaxPixelDiff block / 255)%Q
  else
  let '(hist, sampleCount) :=
    for_pixels block
      (fun pixel '(h, n) =>
         (hist_incr (hist_incr (hist_incr h (ch0 pixel)) (256 + ch1 pixel))
                    (512 + ch2 pixel),
          n + 1))
      (fun _ => 0, 0) in
  if sampleCount =? 0 then 0%Q else
  let '(entropy, count) :=
    for_range 0 768
      (fun i '(e, c) =>
         if 0 <? hist i then
           let p := (inject_Z (hist i) / inject_Z sampleCount)%Q in
           ((e - p * log2 p)%Q, c + 1)
         else (e, c))
      (0%Q, 0) in
  let entropy := if 0 <? count then (entropy / 3)%Q else entropy in
  dmin entropy 5.

(** One channel of [calculateSSIM]: the body of [for (c = 0; c < 3; c++)],
    giving [ssimValues[c]]. *)
Definition SSIM_C1 : Q := sq (0.01 * 255).
Definition SSIM_C2 : Q := sq (0.03 * 255).

Definition ssimValue (block avgBlock : Mat) (ch : Vec3b -> Z) : Q :=
  let '(mu1, mu2, N) :=
    for_index (rows block) (cols block)
      (fun i j '(m1, m2, n) =>
         ((m1 + inject_Z (ch (at_ block i j)))%Q,
          (m2 + inject_Z (ch (at_ avgBlock i j)))%Q,
          n + 1))
      (0%Q, 0%Q, 0) in
  if N =? 0 then 0%Q else
  let mu1 := (mu1 / inject_Z N)%Q in
  let mu2 := (mu2 / inject_Z N)%Q in
  let '(sigma1_sq, sigma2_sq, sigma12) :=
    for_index (rows block) (cols block)
      (fun i j '(a, b, c) =>
         let diff1 := (inject_Z (ch (at_ block i j)) - mu1)%Q in
         let diff2 := (inject_Z (ch (at_ avgBlock i j)) - mu2)%Q in
         ((a + diff1 * diff1)%Q, (b + diff2 * diff2)%Q, (c + diff1 * diff2)%Q))
      (0%Q, 0%Q, 0%Q) in
  let sigma1_sq := (sigma1_sq / inject_Z (N - 1))%Q in
  let sigma2_sq := (sigma2_sq / inject_Z (N - 1))%Q in
  let sigma12 := (sigma12 / inject_Z (N - 1))%Q in
  let numerator := ((2 * mu1 * mu2 + SSIM_C1) * (2 * sigma12 + SSIM_C2))%Q in
  let denominator :=
    ((mu1 * mu1 + mu2 * mu2 + SSIM_C1) * (sigma1_sq + sigma2_sq + SSIM_C2))%Q in
  let ssim := if dlt 0.001 denominator then (numerator / denominator)%Q else 0.99%Q in
  dmax 0 (dmin 1 (1 - ssim)).

Definition calculateSSIM (block avgBlock : Mat) : Q :=
  if empty block || empty avgBlock then 0%Q else
  if (rows block <? 4) || (cols block <? 4) then (calculateVariance block / 1000)%Q else
  let wR := 0.299%Q in
  let wG := 0.587%Q in
  let wB := 0.114%Q in
  let weightedSSIM :=
    (wR * ssimValue block avgBlock ch2 + wG * ssimValue block avgBlock ch1
     + wB * ssimValue block avgBlock ch0)%Q in
  (weightedSSIM * 0.5)%Q.

(* ================================================================== *)
(** ** The tree and the aggregate *)

(** [T children[4]]. *)
Record Quad (A : Type) := quad { q0 : A; q1 : A; q2 : A; q3 : A }.
Arguments quad {A}.
Arguments q0 {A}.
Arguments q1 {A}.
Arguments q2 {A}.
Arguments q3 {A}.

Definition Quad_map {A B : Type} (f : A -> B) (c : Quad A) : Quad B :=
  quad (f (q0 c)) (f (q1 c)) (f (q2 c)) (f (q3 c)).

Definition Quad_all {A : Type} (P : A -> Prop) (c : Quad A) : Prop :=
  P (q0 c) /\ P (q1 c) /\ P (q2 c) /\ P (q3 c).

Definition Quad_list {A : Type} (c : Quad A) : list A := [q0 c; q1 c; q2 c; q3 c].

(** A node; a child pointer is [None] when it is [nullptr]. *)
Inductive QuadtreeNode : Type := mkNode {
  x : Z;
  y : Z;
  width : Z;
  height : Z;
  avgColor : Vec3b;
  children : Quad (option QuadtreeNode);
  isLeaf : bool
}.

Definition gray : Vec3b := mkVec3b 128 128 128.

(** [QuadtreeNode::QuadtreeNode(x, y, width, height)]. *)
Definition newNode (x0 y0 w h : Z) : QuadtreeNode :=
  mkNode x0 y0 w h gray (quad None None None None) true.

Definition set_isLeaf (n : QuadtreeNode) (b : bool) : QuadtreeNode :=
  mkNode (x n) (y n) (width n) (height n) (avgColor n) (children n) b.
Definition set_avgColor (n : QuadtreeNode) (c : Vec3b) : QuadtreeNode :=
  mkNode (x n) (y n) (width n) (height n) c (children n) (isLeaf n).
Definition set_children (n : QuadtreeNode) (cs : Quad (option QuadtreeNode)) : QuadtreeNode :=
  mkNode (x n) (y n) (width n) (height n) (avgColor n) cs (isLeaf n).

(** [QuadtreeNode::calculateAverageColor(image)]. *)
Definition calculateAverageColor (n : QuadtreeNode) (image : Mat) : QuadtreeNode :=
  let endX := Z.min (x n + width n) (cols image) in
  let endY := Z.min (y n + height n) (rows image) in
  let startX := Z.max 0 (x n) in
  let startY := Z.max 0 (y n) in
  if (endX <=? startX) || (endY <=? startY) || (cols image <=? startX)
     || (rows image <=? startY)
  then set_avgColor n gray else
  let '(sum0, sum1, sum2, count) :=
    for_range startY endY
      (fun py acc =>
         for_range startX endX
           (fun px '(a, b, c, k) =>
              if (px <? 0) || (cols image <=? px) || (py <? 0) || (rows image <=? py)
              then (a, b, c, k)
              else
                let pixel := at_ image py px in
                ((a + inject_Z (ch0 pixel))%Q, (b + inject_Z (ch1 pixel))%Q,
                 (c + inject_Z (ch2 pixel))%Q, k + 1))
           acc)
      (0%Q, 0%Q, 0%Q, 0) in
  if 0 <? count then
    set_avgColor n
      (mkVec3b (static_cast_uchar (sum0 / inject_Z count))
               (static_cast_uchar (sum1 / inject_Z count))
               (static_cast_uchar (sum2 / inject_Z count)))
  else set_avgColor n (mkVec3b 200 200 200).

(** The fields of [class Quadtree] that compression and reconstruction read
    or write.  ([targetNodeRatio] and [hybridCompressionTarget] are written
    and never read; [rng], [gifFrames] and [visualizeGif] belong to the
    visualisation.) *)
Record Quadtree := mkQuadtree {
  root : option QuadtreeNode;
  threshold : Q;
  minBlockSize : Z;
  sourceImage : Mat;
  errorMethod : ErrorMethod;
  targetCompressionPct : Q;
  nodeCounter : Z;
  timeoutFlag : bool;
  maxDepth : Z;
  forceLowCompression : bool;
  useHybridCompression : bool;
  centerRegion : Rect;
  centerMinBlockSize : Z;
  centerMaxDepth : Z;
  outerMinBlockSize : Z;
  outerMaxDepth : Z
}.

(** [Quadtree::Quadtree(image, threshold, minBlockSize, method,
    targetCompressionPct, visualizeGif)]. *)
Definition Quadtree_new (image : Mat) (threshold0 : Q) (minBlockSize0 : Z)
    (method : ErrorMethod) (targetCompressionPct0 : Q) : Quadtree :=
  mkQuadtree (Some (newNode 0 0 (cols image) (rows image)))
             threshold0 minBlockSize0 image method targetCompressionPct0
             0 false 10 false false (mkRect 0 0 0 0) 2 10 16 4.

Definition set_root (q : Quadtree) (r : option QuadtreeNode) : Quadtree :=
  mkQuadtree r (threshold q) (minBlockSize q) (sourceImage q) (errorMethod q)
    (targetCompressionPct q) (nodeCounter q) (timeoutFlag q) (maxDepth q)
    (forceLowCompression q) (useHybridCompression q) (centerRegion q)
    (centerMinBlockSize q) (centerMaxDepth q) (outerMinBlockSize q) (outerMaxDepth q).

Definition set_threshold (q : Quadtree) (t : Q) : Quadtree :=
  mkQuadtree (root q) t (minBlockSize q) (sourceImage q) (errorMethod q)
    (targetCompressionPct q) (nodeCounter q) (timeoutFlag q) (maxDepth q)
    (forceLowCompression q) (useHybridCompression q) (centerRegion q)
    (centerMinBlockSize q) (centerMaxDepth q) (outerMinBlockSize q) (outerMaxDepth q).

Definition set_minBlockSize (q : Quadtree) (m : Z) : Quadtree :=
  mkQuadtree (root q) (threshold q) m (sourceImage q) (errorMethod q)
    (targetCompressionPct q) (nodeCounter q) (timeoutFlag q) (maxDepth q)
    (forceLowCompression q) (useHybridCompression q) (centerRegion q)
    (centerMinBlockSize q) (centerMaxDepth q) (outerMinBlockSize q) (outerMaxDepth q).

Definition set_nodeCounter (q : Quadtree) (c : Z) : Quadtree :=
  mkQuadtree (root q) (threshold q) (minBlockSize q) (sourceImage q) (errorMethod q)
    (targetCompressionPct q) c (timeoutFlag q) (maxDepth q)
    (forceLowCompression q) (useHybridCompression q) (centerRegion q)
    (centerMinBlockSize q) (centerMaxDepth q) (outerMinBlockSize q) (outerMaxDepth q).

Definition set_timeoutFlag (q : Quadtree) (b : bool) : Quadtree :=
  mkQuadtree (root q) (threshold q) (minBlockSize q) (sourceImage q) (errorMethod q)
    (targetCompressionPct q) (nodeCounter q) b (maxDepth q)
    (forceLowCompression q) (useHybridCompression q) (centerRegion q)
    (centerMinBlockSize q) (centerMaxDepth q) (outerMinBlockSize q) (outerMaxDepth q).

Definition set_maxDepth (q : Quadtree) (d : Z) : Quadtree :=
  mkQuadtree (root q) (threshold q) (minBlockSize q) (sourceImage q) (errorMethod q)
    (targetCompressionPct q) (nodeCounter q) (timeoutFlag q) d
    (forceLowCompression q) (useHybridCompression q) (centerRegion q)
    (centerMinBlockSize q) (centerMaxDepth q) (outerMinBlockSize q) (outerMaxDepth q).

Definition set_forceLowCompression (q : Quadtree) (b : bool) : Quadtree :=
  mkQuadtree (root q) (threshold q) (minBlockSize q) (sourceImage q) (errorMethod q)
    (targetCompressionPct q) (nodeCounter q) (timeoutFlag q) (maxDepth q)
    b (useHybridCompression q) (centerRegion q)
    (centerMinBlockSize q) (centerMaxDepth q) (outerMinBlockSize q) (outerMaxDepth q).

Definition set_useHybridCompression (q : Quadtree) (b : bool) : Quadtree :=
  mkQuadtree (root q) (threshold q) (minBlockSize q) (sourceImage q) (errorMethod q)
    (targetCompressionPct q) (nodeCounter q) (timeoutFlag q) (maxDepth q)
    (forceLowCompression q) b (centerRegion q)
    (centerMinBlockSize q) (centerMaxDepth q) (outerMinBlockSize q) (outerMaxDepth q).

(** The assignments of the hybrid plan: [centerRegion], [centerMinBlockSize],
    [centerMaxDepth], [outerMinBlockSize], [outerMaxDepth]. *)
Definition set_hybrid_plan (q : Quadtree) (r : Rect) (cm cd om od : Z) : Quadtree :=
  mkQuadtree (root q) (threshold q) (minBlockSize q) (sourceImage q) (errorMethod q)
    (targetCompressionPct q) (nodeCounter q) (timeoutFlag q) (maxDepth q)
    (forceLowCompression q) (useHybridCompression q) r cm cd om od.

(** [Quadtree::calculateError(block, avgBlock)]; the default argument of
    [avgBlock] is [Mat()]. *)
Definition calculateError (q : Quadtree) (block avgBlock : Mat) : Q :=
  if empty block || ((rows block =? 1) && (cols block =? 1)) then 0%Q else
  let by_method :=
    match errorMethod q with
    | VARIANCE => calculateVariance block
    | MAD => calculateMAD block
    | MAX_PIXEL_DIFF => calculateMaxPixelDiff block
    | ENTROPY => calculateEntropy block
    | SSIM =>
        if empty avgBlock then
          let meanColor := mean block in
          let uniformBlock := Mat_fill (rows block) (cols block) meanColor in
          calculateSSIM block uniformBlock
        else calculateSSIM block avgBlock
    end in
  if (rows block * cols block <=? 9) && (minBlockSize q =? 2) then
    match errorMethod q with
    | VARIANCE | MAD | ENTROPY => (calculateMaxPixelDiff block * 0.5)%Q
    | _ => by_method
    end
  else by_method.

(* ================================================================== *)
(** ** The recursive splitter *)

Definition MAX_NODES : Z := 150000.

(** The test that opens [quadtreeCompress]:
    [timeoutFlag || nodeCounter > MAX_NODES]. *)
Definition aborted (q : Quadtree) : bool :=
  timeoutFlag q || (MAX_NODES <? nodeCounter q).

(** The three loops over the children that the source uses:
    - [for (i...) { rec(children[i]); if (timeoutFlag) break; }]
    - [for (i...) { rec(children[i]); if (i % 2 == 1 && timeoutFlag) break; }]
    - four [async] tasks, all awaited. *)
Inductive ChildLoop := BreakOnTimeout | BreakOnOddTimeout | AsyncTasks.

Definition breaks_after (loop : ChildLoop) (i : Z) (q : Quadtree) : bool :=
  match loop with
  | BreakOnTimeout => timeoutFlag q
  | BreakOnOddTimeout => (i mod 2 =? 1) && timeoutFlag q
  | AsyncTasks => false
  end.

(** What one activation of [quadtreeCompress] does before it recurses:
    either it returns, or it has marked the node internal, created the
    four children and chosen the loop that visits them. *)
Inductive Visit :=
| Return (node : QuadtreeNode) (q : Quadtree)
| Recurse (node : QuadtreeNode) (cs : Quad QuadtreeNode) (loop : ChildLoop) (q : Quadtree).

(** The four [new QuadtreeNode(...)] of a split with first child
    [hw x hh] and trailing sizes [w1], [h1]. *)
Definition split4 (n : QuadtreeNode) (hw hh w1 h1 : Z) : Quad QuadtreeNode :=
  quad (newNode (x n) (y n) hw hh)
       (newNode (x n + hw) (y n) w1 hh)
       (newNode (x n) (y n + hh) hw h1)
       (newNode (x n + hw) (y n + hh) w1 h1).

Definition leaf_with_color (n : QuadtreeNode) (image : Mat) : QuadtreeNode :=
  set_isLeaf (calculateAverageColor n image) true.

(** The clamped rectangle [Rect(startX, startY, endX - startX, endY - startY)]. *)
Definition clamped_rect (n : QuadtreeNode) (image : Mat) : Rect :=
  let endX := Z.min (x n + width n) (cols image) in
  let endY := Z.min (y n + height n) (rows image) in
  let startX := Z.max 0 (x n) in
  let startY := Z.max 0 (y n) in
  mkRect startX startY (endX - startX) (endY - startY).

Definition visit (q : Quadtree) (image : Mat) (node : QuadtreeNode) (depth : Z) : Visit :=
  if timeoutFlag q || (MAX_NODES <? nodeCounter q) then Return node q else
  if (x node <? 0) || (y node <? 0) || (cols image <=? x node) || (rows image <=? y node)
  then Return (set_isLeaf node true) q else
  let q :=
    if (useHybridCompression q || forceLowCompression q) && dle (targetCompressionPct q) 0
    then set_forceLowCompression (set_useHybridCompression q false) false
    else q in
  if useHybridCompression q && dlt 0 (targetCompressionPct q) then
    let nodeRect := mkRect (x node) (y node) (width node) (height node) in
    let isInCenterRegion := 0 <? Rect_area (Rect_and nodeRect (centerRegion q)) in
    let currentMaxDepth := if isInCenterRegion then centerMaxDepth q else outerMaxDepth q in
    let currentMinBlockSize :=
      if isInCenterRegion then centerMinBlockSize q else outerMinBlockSize q in
    if (currentMaxDepth <? depth) || (width node <=? currentMinBlockSize)
       || (height node <=? currentMinBlockSize)
    then Return (leaf_with_color node image) q else
    let node := set_isLeaf node false in
    let q := set_nodeCounter q (nodeCounter q + 4) in
    let halfWidth := Z.max 1 (cdiv (width node) 2) in
    let halfHeight := Z.max 1 (cdiv (height node) 2) in
    Recurse node
      (split4 node halfWidth halfHeight (width node - halfWidth) (height node - halfHeight))
      BreakOnTimeout q
  else if forceLowCompression q && dlt 0 (targetCompressionPct q) then
    if (width node <=? minBlockSize q) || (height node <=? minBlockSize q)
       || (maxDepth q <=? depth)
    then Return (leaf_with_color node image) q else
    let node := set_isLeaf node false in
    let q := set_nodeCounter q (nodeCounter q + 4) in
    let halfWidth := Z.max 1 (cdiv (width node) 2) in
    let halfHeight := Z.max 1 (cdiv (height node) 2) in
    Recurse node
      (split4 node halfWidth halfHeight (width node - halfWidth) (height node - halfHeight))
      BreakOnTimeout q
  else if minBlockSize q =? 2 then
    if maxDepth q <? depth then Return (leaf_with_color node image) q else
    if (width node <? 4) || (height node <? 4) then Return (leaf_with_color node image) q else
    if (cols image <=? x node) || (rows image <=? y node)
    then Return (set_isLeaf node true) q else
    let rect := clamped_rect node image in
    if (rw rect <=? 0) || (rh rect <=? 0) then Return (set_isLeaf node true) q else
    if (rw rect <=? 0) || (rh rect <=? 0) || (cols image <? rx rect + rw rect)
       || (rows image <? ry rect + rh rect)
    then Return (set_isLeaf node true) q else
    let block := roi image rect in
    let node := calculateAverageColor node image in
    let error :=
      if rw rect * rh rect <=? 16 then (calculateMaxPixelDiff block * 0.5)%Q
      else
        match errorMethod q with
        | SSIM =>
            calculateError q block
              (Mat_fill (rows block) (cols block) (Scalar_of_Vec3b (avgColor node)))
        | _ => calculateError q block Mat_default
        end in
    let adjusted_threshold :=
      if rw rect * rh rect <=? 36 then (threshold q * 1.5)%Q else threshold q in
    if dlt error adjusted_threshold then Return (set_isLeaf node true) q else
    let halfWidth := Z.max 2 (cdiv (width node) 2) in
    let halfHeight := Z.max 2 (cdiv (height node) 2) in
    if (halfWidth <? 2) || (halfHeight <? 2) then Return (set_isLeaf node true) q else
    let node := set_isLeaf node false in
    let q := set_nodeCounter q (nodeCounter q + 4) in
    Recurse node
      (split4 node halfWidth halfHeight
              (Z.max 2 (width node - halfWidth)) (Z.max 2 (height node - halfHeight)))
      BreakOnTimeout q
  else
    if (maxDepth q <? depth) || (width node <=? minBlockSize q)
       || (height node <=? minBlockSize q)
    then Return (leaf_with_color node image) q else
    if (cols image <=? x node) || (rows image <=? y node)
    then Return (set_isLeaf node true) q else
    let rect := clamped_rect node image in
    if (rw rect <=? 0) || (rh rect <=? 0) then Return (set_isLeaf node true) q else
    if (rw rect <=? 0) || (rh rect <=? 0) || (cols image <? rx rect + rw rect)
       || (rows image <? ry rect + rh rect)
    then Return (set_isLeaf node true) q else
    let block := roi image rect in
    let node := calculateAverageColor node image in
    let error :=
      match errorMethod q with
      | SSIM =>
          calculateError q block
            (Mat_fill (rows block) (cols block) (Scalar_of_Vec3b (avgColor node)))
      | _ => calculateError q block Mat_default
      end in
    if dlt error (threshold q) then Return (set_isLeaf node true) q else
    let node := set_isLeaf node false in
    let q := set_nodeCounter q (nodeCounter q + 4) in
    let halfWidth := Z.max 1 (cdiv (width node) 2) in
    let halfHeight := Z.max 1 (cdiv (height node) 2) in
    let useParallel := (500000 <? cols image * rows image) && (depth <=? 1) in
    Recurse node
      (split4 node halfWidth halfHeight (width node - halfWidth) (height node - halfHeight))
      (if useParallel then AsyncTasks else BreakOnOddTimeout) q.

(** A recursive call on one node, threading the aggregate. *)
Definition SubCall : Type := QuadtreeNode -> Quadtree -> QuadtreeNode * Quadtree.

(** The loop over [children[0..3]]; a child that the loop does not reach
    stays as it was constructed. *)
Definition run_children (rec : SubCall) (loop : ChildLoop) (cs : Quad QuadtreeNode)
    (q : Quadtree) : Quad QuadtreeNode * Quadtree :=
  let '(c0, q) := rec (q0 cs) q in
  if breaks_after loop 0 q then (quad c0 (q1 cs) (q2 cs) (q3 cs), q) else
  let '(c1, q) := rec (q1 cs) q in
  if breaks_after loop 1 q then (quad c0 c1 (q2 cs) (q3 cs), q) else
  let '(c2, q) := rec (q2 cs) q in
  if breaks_after loop 2 q then (quad c0 c1 c2 (q3 cs), q) else
  let '(c3, q) := rec (q3 cs) q in
  (quad c0 c1 c2 c3, q).

(** [Quadtree::quadtreeCompress(image, node, depth)].  The recursion of the
    source ends because [depth] grows by one per level and every branch
    stops above its depth limit; [fuel] bounds the nesting of the calls
    (see [quadtreeCompress_fuel]). *)
Fixpoint quadtreeCompress (fuel : nat) (image : Mat) (depth : Z)
    (node : QuadtreeNode) (q : Quadtree) : QuadtreeNode * Quadtree :=
  match fuel with
  | O => (node, q)
  | S fuel' =>
      match visit q image node depth with
      | Return node' q' => (node', q')
      | Recurse node' cs loop q' =>
          let '(cs', q'') :=
            run_children (quadtreeCompress fuel' image (depth + 1)) loop cs q' in
          (set_children node' (Quad_map Some cs'), q'')
      end
  end.

(** The largest depth limit of the plan. *)
Definition depth_bound (q : Quadtree) : Z :=
  Z.max (maxDepth q) (Z.max (centerMaxDepth q) (outerMaxDepth q)).

Definition fuel_for (q : Quadtree) : nat := S (S (Z.to_nat (depth_bound q))).

(** The assignments that open [compressImage]. *)
Definition reset_state (q : Quadtree) : Quadtree :=
  set_maxDepth
    (set_nodeCounter
       (set_timeoutFlag
          (set_forceLowCompression (set_useHybridCompression q false) false) false) 0) 10.

(** The [try] block of [compressImage]: a new root, and the splitter run on
    it; for more than 500000 pixels the root is split at once and the four
    quadrants are handed to [async] tasks. *)
Definition buildTree (q : Quadtree) : Quadtree :=
  let src := sourceImage q in
  let root0 := newNode 0 0 (cols src) (rows src) in
  let useParallel := 500000 <? rows src * cols src in
  if useParallel then
    let halfWidth := Z.max 1 (cdiv (cols src) 2) in
    let halfHeight := Z.max 1 (cdiv (rows src) 2) in
    let root1 := set_isLeaf root0 false in
    let cs :=
      quad (newNode 0 0 halfWidth halfHeight)
           (newNode halfWidth 0 (cols src - halfWidth) halfHeight)
           (newNode 0 halfHeight halfWidth (rows src - halfHeight))
           (newNode halfWidth halfHeight (cols src - halfWidth) (rows src - halfHeight)) in
    let '(cs', q') := run_children (quadtreeCompress (fuel_for q) src 1) AsyncTasks cs q in
    set_root q' (Some (set_children root1 (Quad_map Some cs')))
  else
    let '(r, q') := quadtreeCompress (fuel_for q) src 0 root0 q in
    set_root q' (Some r).

(** [compressImage] on an aggregate whose target percentage is not
    positive, as the trial trees of the threshold search are. *)
Definition compressPlain (q : Quadtree) : Quadtree := buildTree (reset_state q).

(* ================================================================== *)
(** ** Tree metrics *)

Definition on_ptr {A : Type} (f : QuadtreeNode -> A) (null : A) (o : option QuadtreeNode) : A :=
  match o with None => null | Some c => f c end.

(** [countLeafNodes(node)] for a non-null [node]; [countLeafNodes_ptr] is
    the function on pointers. *)
Fixpoint countLeafNodes (n : QuadtreeNode) : Z :=
  if isLeaf n then 1 else
  let f := fun o => match o with None => 0 | Some c => countLeafNodes c end in
  f (q0 (children n)) + f (q1 (children n)) + f (q2 (children n)) + f (q3 (children n)).

Definition countLeafNodes_ptr (o : option QuadtreeNode) : Z := on_ptr countLeafNodes 0 o.

Fixpoint getTreeDepthHelper (n : QuadtreeNode) : Z :=
  if isLeaf n then 1 else
  let f := fun o => match o with None => 0 | Some c => getTreeDepthHelper c end in
  1 + Z.max (Z.max (Z.max (Z.max 0 (f (q0 (children n)))) (f (q1 (children n))))
                   (f (q2 (children n)))) (f (q3 (children n))).

Definition getTreeDepth (q : Quadtree) : Z := on_ptr getTreeDepthHelper 0 (root q).

Fixpoint getNodeCountHelper (n : QuadtreeNode) : Z :=
  if isLeaf n then 1 else
  let f := fun o => match o with None => 0 | Some c => getNodeCountHelper c end in
  1 + (f (q0 (children n)) + f (q1 (children n)) + f (q2 (children n))
       + f (q3 (children n))).

Definition getNodeCount (q : Quadtree) : Z := on_ptr getNodeCountHelper 0 (root q).

(** The structural percentage
    [(1.0 - (double)leafNodes / totalPixels) * 100.0]. *)
Definition leafPct (leafNodes totalPixels : Z) : Q :=
  ((1 - inject_Z leafNodes / inject_Z totalPixels) * 100)%Q.

Definition nodeCompressionPct (q : Quadtree) : Q :=
  leafPct (countLeafNodes_ptr (root q)) (rows (sourceImage q) * cols (sourceImage q)).

(* ================================================================== *)
(** ** The adaptive threshold search *)

(** [while (powerOf2 * 2 <= gridSize) powerOf2 *= 2;] *)
Fixpoint powerOf2_loop (fuel : nat) (powerOf2 gridSize : Z) : Z :=
  match fuel with
  | O => powerOf2
  | S fuel' =>
      if powerOf2 * 2 <=? gridSize then powerOf2_loop fuel' (powerOf2 * 2) gridSize
      else powerOf2
  end.

Definition largest_powerOf2 (gridSize : Z) : Z :=
  powerOf2_loop (Z.to_nat gridSize) 1 gridSize.

(** The threshold of the low-target regime. *)
Definition low_target_threshold (m : ErrorMethod) : Q :=
  match m with
  | VARIANCE => 5
  | MAD => 2
  | MAX_PIXEL_DIFF => 5
  | ENTROPY => 0.1
  | SSIM => 0.01
  end.

(** The upper end of the search range, by target band and metric. *)
Definition search_high (targetPct : Q) (m : ErrorMethod) : Q :=
  if dlt targetPct 85 then
    match m with
    | VARIANCE => 50 | MAD => 15 | MAX_PIXEL_DIFF => 30 | ENTROPY => 1 | SSIM => 0.15
    end
  else if dlt targetPct 95 then
    match m with
    | VARIANCE => 200 | MAD => 30 | MAX_PIXEL_DIFF => 75 | ENTROPY => 2.5 | SSIM => 0.3
    end
  else
    match m with
    | VARIANCE => 500 | MAD => 50 | MAX_PIXEL_DIFF => 150 | ENTROPY => 5 | SSIM => 0.5
    end.

(** A trial: [Quadtree tempTree(testImage, t, minBlockSize, errorMethod, 0.0,
    false); tempTree.compressImage();] and the structural percentage of the
    tree it builds. *)
Definition trialPct (q : Quadtree) (testImage : Mat) (t : Q) : Q :=
  nodeCompressionPct
    (compressPlain (Quadtree_new testImage t (minBlockSize q) (errorMethod q) 0)).

(** The variables of the search, and the thresholds at which a trial tree
    was built inside the loop, with the percentage each achieved (most
    recent first). *)
Record Search := mkSearch {
  low : Q;
  high : Q;
  cur_threshold : Q;
  bestThreshold : Q;
  bestDifference : Q;
  currentPct : Q;
  trials : list (Q * Q)
}.

Definition maxIterations : nat := 7.
Definition tolerance : Q := 3.

(** The [for (iter = 0; iter < maxIterations; iter++)] loop; [n] iterations
    remain. *)
Fixpoint search_loop (q : Quadtree) (testImage : Mat) (targetPct : Q)
    (n : nat) (iter : Z) (st : Search) : Search :=
  match n with
  | O => st
  | S n' =>
      let weight :=
        if 0 <? iter then (if dlt (currentPct st) targetPct then 0.7%Q else 0.3%Q)
        else 0.5%Q in
      let t := (low st + (high st - low st) * weight)%Q in
      if dlt (Qabs (t - bestThreshold st)) (0.001 * bestThreshold st) then
        mkSearch (low st) (high st) t (bestThreshold st) (bestDifference st)
                 (currentPct st) (trials st)
      else
      let pct := trialPct q testImage t in
      let difference := Qabs (pct - targetPct) in
      let better := dlt difference (bestDifference st) in
      let best := if better then t else bestThreshold st in
      let bestDiff := if better then difference else bestDifference st in
      let log := (t, pct) :: trials st in
      if dle (Qabs (pct - targetPct)) tolerance then
        mkSearch (low st) (high st) t best bestDiff pct log
      else
      let low' := if dlt pct targetPct then t else low st in
      let high' := if dlt pct targetPct then high st else t in
      if dlt (high' - low') (0.001 * low') then
        mkSearch low' high' t best bestDiff pct log
      else
        search_loop q testImage targetPct n' (iter + 1)
                    (mkSearch low' high' t best bestDiff pct log)
  end.

(** The candidate of the final extrapolation.  A last percentage of zero
    makes the quotient [targetPct / currentPct] infinite in IEEE
    arithmetic: the product with [bestThreshold] is then plus infinity (or
    not a number) for a non-negative [bestThreshold], which [min] replaces
    by [high * 1.2], and minus infinity for a negative one, which [max]
    replaces by [low]. *)
Definition extrapolatedThreshold (st : Search) (targetPct : Q) : Q :=
  if dlt (currentPct st) targetPct then
    if Qeq_bool (currentPct st) 0 then
      (if dlt (bestThreshold st) 0 then low st else dmax (low st) (high st * 1.2))
    else
      dmax (low st)
           (dmin (high st * 1.2) (bestThreshold st * (targetPct / currentPct st)))
  else
    dmax (low st)
         (dmin (high st * 1.2) (bestThreshold st * (currentPct st / targetPct))).

(** What the adaptive regime did: the state of the search when the loop
    ended, and the extrapolation trial (threshold and percentage) when one
    was made. *)
Record SearchReport := mkReport {
  initialPct : Q;
  achieved_initially : bool;
  final : Search;
  extrapolation : option (Q * Q);
  chosen : Q
}.

Definition adaptive_search (q : Quadtree) (image : Mat) : SearchReport :=
  let targetPct := targetCompressionPct q in
  let low0 := 0.0001%Q in
  let high0 := search_high targetPct (errorMethod q) in
  let testImage := if 1000000 <? rows image * cols image then resize_half image else image in
  let pct0 := trialPct q testImage (threshold q) in
  let difference := Qabs (pct0 - targetPct) in
  let better := dlt difference DBL_MAX in
  let best := threshold q in
  let bestDiff := if better then difference else DBL_MAX in
  let st0 :=
    mkSearch (if dlt pct0 targetPct then threshold q else low0)
             (if dlt pct0 targetPct then high0 else threshold q)
             (threshold q) best bestDiff pct0 [] in
  if dle (Qabs (pct0 - targetPct)) tolerance then
    mkReport pct0 true
             (mkSearch low0 high0 (threshold q) best bestDiff pct0 []) None (threshold q)
  else
  let st := search_loop q testImage targetPct maxIterations 0 st0 in
  if dlt tolerance (bestDifference st) then
    let e := extrapolatedThreshold st targetPct in
    let extrapolatedPct := trialPct q testImage e in
    let extrapolatedDiff := Qabs (extrapolatedPct - targetPct) in
    let best' := if dlt extrapolatedDiff (bestDifference st) then e else bestThreshold st in
    mkReport pct0 false st (Some (e, extrapolatedPct)) best'
  else
    mkReport pct0 false st None (bestThreshold st).

(** [Quadtree::adjustThresholdForTargetCompression(image)]. *)
Definition adjustThresholdForTargetCompression (q : Quadtree) (image : Mat) : Quadtree :=
  let targetPct := targetCompressionPct q in
  if dle targetPct 0 then q else
  if dlt targetPct 20 then
    let q := set_threshold q (low_target_threshold (errorMethod q)) in
    let gridSize :=
      int_sqrt (inject_Z (cols image * rows image) * (1 - targetPct / 100)) in
    let powerOf2 := largest_powerOf2 gridSize in
    set_minBlockSize q (Z.max 2 powerOf2)
  else if dlt targetPct 75 then
    let totalPixels := rows image * cols image in
    let targetNodeRatio := (1 - targetPct / 100)%Q in
    let targetLeafNodes :=
      Z.max 1 (static_cast_int (inject_Z totalPixels * targetNodeRatio)) in
    let avgBlockArea := (inject_Z totalPixels / inject_Z targetLeafNodes)%Q in
    let gridSize := int_sqrt avgBlockArea in
    let powerOf2 := largest_powerOf2 gridSize in
    let q := set_minBlockSize q powerOf2 in
    let q :=
      set_maxDepth q (int_log2 (cdiv (Z.max (cols image) (rows image)) powerOf2) + 1) in
    let q := set_forceLowCompression q true in
    let predictedLeafNodes := cdiv (cols image) powerOf2 * cdiv (rows image) powerOf2 in
    let predictedCompressionPct := leafPct predictedLeafNodes totalPixels in
    if dlt 10 (Qabs (predictedCompressionPct - targetPct)) then
      let q := set_useHybridCompression q true in
      let centerRatio :=
        if dlt targetPct 40 then 0.6%Q else if dlt 60 targetPct then 0.3%Q else 0.4%Q in
      let centerWidth := static_cast_int (inject_Z (cols image) * centerRatio) in
      let centerHeight := static_cast_int (inject_Z (rows image) * centerRatio) in
      set_hybrid_plan q
        (mkRect (cdiv (cols image - centerWidth) 2) (cdiv (rows image - centerHeight) 2)
                centerWidth centerHeight)
        (Z.max 2 (cdiv powerOf2 2)) 10 (powerOf2 * 2) (Z.min 4 (maxDepth q - 1))
    else q
  else
    set_threshold q (chosen (adaptive_search q image)).

(** What [compressImage] does before its [try] block: the resets, and the
    threshold search when a target percentage is set. *)
Definition prepare (q : Quadtree) : Quadtree :=
  let q := reset_state q in
  let src := sourceImage q in
  if dlt 0 (targetCompressionPct q) then
    if 1000000 <? rows src * cols src
    then adjustThresholdForTargetCompression q (resize_half src)
    else adjustThresholdForTargetCompression q src
  else q.

(** [Quadtree::compressImage()]. *)
Definition compressImage (q : Quadtree) : Quadtree := buildTree (prepare q).

(* ================================================================== *)
(** ** Reconstruction *)

(** The rectangle that [reconstructHelper] fills for a leaf, when it fills
    one. *)
Definition leaf_region (image : Mat) (n : QuadtreeNode) : option Rect :=
  let endX := Z.min (x n + width n) (cols image) in
  let endY := Z.min (y n + height n) (rows image) in
  let startX := Z.max 0 (x n) in
  let startY := Z.max 0 (y n) in
  if (endX <=? startX) || (endY <=? startY) then None else
  let region := mkRect startX startY (endX - startX) (endY - startY) in
  if (0 <=? rx region) && (0 <=? ry region) && (rx region + rw region <=? cols image)
     && (ry region + rh region <=? rows image)
  then Some region else None.

(** [Quadtree::reconstructHelper(image, node)] for a non-null [node]. *)
Fixpoint reconstructHelper (image : Mat) (n : QuadtreeNode) : Mat :=
  if isLeaf n then
    match leaf_region image n with
    | Some region => rectangle_filled image region (Scalar_of_Vec3b (avgColor n))
    | None => image
    end
  else
    let f := fun (im : Mat) (o : option QuadtreeNode) =>
               match o with None => im | Some c => reconstructHelper im c end in
    f (f (f (f image (q0 (children n))) (q1 (children n))) (q2 (children n)))
      (q3 (children n)).

(** [for (i = lo; i < hi; i += step) acc = body i acc]. *)
Fixpoint for_loop_by (n : nat) (i step : Z) {A : Type} (body : Z -> A -> A) (acc : A) : A :=
  match n with
  | O => acc
  | S n' => for_loop_by n' (i + step) step body (body i acc)
  end.

Definition for_step {A : Type} (lo hi step : Z) (body : Z -> A -> A) (acc : A) : A :=
  for_loop_by (Z.to_nat ((hi - lo + step - 1) / step)) lo step body acc.

(** The branch of [reconstructImage] for [minBlockSize == 2]: the source
    averaged over a grid of 16 x 16 blocks, then a median filter. *)
Definition reconstructGrid (src image : Mat) : Mat :=
  let blockSize := 16 in
  let image :=
    for_step 0 (rows image) blockSize
      (fun y0 im =>
         for_step 0 (cols image) blockSize
           (fun x0 im =>
              let w := Z.min blockSize (cols image - x0) in
              let h := Z.min blockSize (rows image - y0) in
              if (w <=? 0) || (h <=? 0) then im else
              let region := mkRect x0 y0 w h in
              let block := roi src region in
              let avg := mean block in
              rectangle_filled im region avg)
           im)
      image in
  medianBlur3 image.

(** [Quadtree::reconstructImage(image)]: the new contents of [image]. *)
Definition reconstructImage (q : Quadtree) : Mat :=
  let image := Mat_zeros (rows (sourceImage q)) (cols (sourceImage q)) in
  if minBlockSize q =? 2 then reconstructGrid (sourceImage q) image
  else on_ptr (reconstructHelper image) image (root q).

End Model.

Arguments quad {A}.
Arguments q0 {A}.
Arguments q1 {A}.
Arguments q2 {A}.
Arguments q3 {A}.

(* ================================================================== *)
(** ** Executable stand-ins for the library functions

    They make the model run on concrete inputs.  The theorems below hold
    for every instance of [Externals]. *)

(** The integer part of the binary logarithm. *)
Definition log2_ref (p : Q) : Q :=
  (inject_Z (Z.log2 (Qfloor p)) - inject_Z (Z.log2 (Qfloor (/ p))))%Q.

Definition clampZ (lo hi v : Z) : Z := Z.max lo (Z.min hi v).

(** Each destination pixel is the rounded mean of a 2 x 2 block. *)
Definition resize_half_ref (m : Mat) : Mat :=
  let avg4 (ch : Vec3b -> Z) (i j : Z) :=
    let g a b := ch (at_ m (clampZ 0 (rows m - 1) a) (clampZ 0 (cols m - 1) b)) in
    cvRound (inject_Z (g (2 * i) (2 * j) + g (2 * i) (2 * j + 1)
                       + g (2 * i + 1) (2 * j) + g (2 * i + 1) (2 * j + 1)) / 4) in
  mkMat (cvRound (inject_Z (rows m) * 0.5)) (cvRound (inject_Z (cols m) * 0.5))
        (fun i j => mkVec3b (avg4 ch0 i j) (avg4 ch1 i j) (avg4 ch2 i j)).

Fixpoint insert_sorted (v : Z) (l : list Z) : list Z :=
  match l with
  | [] => [v]
  | a :: l' => if v <=? a then v :: l else a :: insert_sorted v l'
  end.

Definition median9 (l : list Z) : Z := nth 4 (fold_right insert_sorted [] l) 0.

(** The median of the 3 x 3 neighbourhood, per channel, the border
    replicated. *)
Definition medianBlur3_ref (m : Mat) : Mat :=
  let nb (i j : Z) :=
    map (fun d : Z * Z =>
           at_ m (clampZ 0 (rows m - 1) (i + fst d)) (clampZ 0 (cols m - 1) (j + snd d)))
        [(-1, -1); (-1, 0); (-1, 1); (0, -1); (0, 0); (0, 1); (1, -1); (1, 0); (1, 1)] in
  mkMat (rows m) (cols m)
        (fun i j =>
           mkVec3b (median9 (map ch0 (nb i j))) (median9 (map ch1 (nb i j)))
                   (median9 (map ch2 (nb i j)))).

Definition reference_externals : Externals :=
  {| log2 := log2_ref; resize_half := resize_half_ref; medianBlur3 := medianBlur3_ref |}.

(* ================================================================== *)
(** ** Predicates on trees *)

(** Every node reachable through the child pointers, the node itself first. *)
Fixpoint subnodes (n : QuadtreeNode) : list QuadtreeNode :=
  let f := fun o => match o with None => [] | Some c => subnodes c end in
  n :: f (q0 (children n)) ++ f (q1 (children n)) ++ f (q2 (children n))
    ++ f (q3 (children n)).

(** The nodes that the traversals of the source reach ([countLeafNodes],
    [reconstructHelper] do not look below a leaf) and that are leaves. *)
Fixpoint leaves (n : QuadtreeNode) : list QuadtreeNode :=
  if isLeaf n then [n] else
  let f := fun o => match o with None => [] | Some c => leaves c end in
  f (q0 (children n)) ++ f (q1 (children n)) ++ f (q2 (children n))
    ++ f (q3 (children n)).

Definition no_children (n : QuadtreeNode) : Prop :=
  children n = quad None None None None.

Definition four_children (n : QuadtreeNode) : Prop :=
  Quad_all (fun o => o <> None) (children n).

(** The shape invariant of one node. *)
Definition node_shape (n : QuadtreeNode) : Prop :=
  (isLeaf n = true /\ no_children n) \/ (isLeaf n = false /\ four_children n).

(** A node as its constructor leaves it, whatever its colour. *)
Definition unsplit (n : QuadtreeNode) : Prop := isLeaf n = true /\ no_children n.

(** The plans that the threshold search can leave behind: the block sizes
    of the grid regimes are at least one pixel. *)
Definition hybrid_ok (q : Quadtree) : Prop :=
  useHybridCompression q = true -> 1 <= centerMinBlockSize q /\ 1 <= outerMinBlockSize q.

Definition forceLow_ok (q : Quadtree) : Prop :=
  forceLowCompression q = true -> 1 <= minBlockSize q.

(* ================================================================== *)
(** ** Concrete inputs *)

Definition black : Vec3b := mkVec3b 0 0 0.
Definition white : Vec3b := mkVec3b 255 255 255.

(** A 4 x 4 image, black on the left half and white on the right. *)
Definition halves4x4 : Mat := mkMat 4 4 (fun _ j => if j <? 2 then black else white).

(** An 8 x 8 image of vertical stripes two pixels wide, black and white. *)
Definition stripes8x8 : Mat :=
  mkMat 8 8 (fun _ j => if (j / 2) mod 2 =? 0 then black else white).

(* ================================================================== *)
(** ** Rectangles of nodes *)

Definition rect_of (n : QuadtreeNode) : Rect := mkRect (x n) (y n) (width n) (height n).

(** The pixel in column [px] and row [py] lies in a rectangle. *)
Definition in_Rect (r : Rect) (px py : Z) : Prop :=
  rx r <= px < rx r + rw r /\ ry r <= py < ry r + rh r.

Definition in_Rectb (r : Rect) (px py : Z) : bool :=
  (rx r <=? px) && (px <? rx r + rw r) && (ry r <=? py) && (py <? ry r + rh r).

Definition in_rect (n : QuadtreeNode) (px py : Z) : Prop := in_Rect (rect_of n) px py.

(** The pixel lies in the rectangle of the node clamped to the buffer. *)
Definition in_clampedb (image : Mat) (n : QuadtreeNode) (px py : Z) : bool :=
  in_Rectb (clamped_rect n image) px py.

(** The children of [n] are the four parts of its rectangle cut at the
    column [x n + hw] and the row [y n + hh]. *)
Definition cut_at (n : QuadtreeNode) (hw hh : Z) : Prop :=
  exists c0 c1 c2 c3,
    children n = quad (Some c0) (Some c1) (Some c2) (Some c3) /\
    rect_of c0 = mkRect (x n) (y n) hw hh /\
    rect_of c1 = mkRect (x n + hw) (y n) (width n - hw) hh /\
    rect_of c2 = mkRect (x n) (y n + hh) hw (height n - hh) /\
    rect_of c3 = mkRect (x n + hw) (y n + hh) (width n - hw) (height n - hh).

(** The split that C2 describes: four children, the first of size
    [floor(width/2) x floor(height/2)] at [(x, y)], the others covering the
    rest from the same midpoint, every dimension at least one pixel, no two
    children sharing a pixel, and the children together covering exactly
    the pixels of the parent. *)
Definition halved (n : QuadtreeNode) : Prop :=
  cut_at n (width n / 2) (height n / 2) /\
  Quad_all (fun o => match o with
                     | Some c => 1 <= width c /\ 1 <= height c
                     | None => False
                     end) (children n) /\
  (forall px py,
      in_rect n px py <->
      Exists (fun o => match o with Some c => in_rect c px py | None => False end)
             (Quad_list (children n))) /\
  (forall px py i j c d,
      nth_error (Quad_list (children n)) i = Some (Some c) ->
      nth_error (Quad_list (children n)) j = Some (Some d) ->
      in_rect c px py -> in_rect d px py -> i = j).

(** A looser cut, which allows empty parts. *)
Definition tiled (n : QuadtreeNode) : Prop :=
  isLeaf n = false ->
  exists hw hh, 0 <= hw <= width n /\ 0 <= hh <= height n /\ cut_at n hw hh.

(** What the splitter establishes at a node when the minimum block size
    of the plan is [m]. *)
Definition cut_ok (m : Z) (n : QuadtreeNode) : Prop :=
  isLeaf n = false ->
  1 <= width n /\ 1 <= height n /\
  (1 <= m -> 2 <= width n /\ 2 <= height n) /\
  cut_at n (Z.max 1 (width n / 2)) (Z.max 1 (height n / 2)).

(** What [reconstructHelper] does at one leaf. *)
Definition paint (image : Mat) (n : QuadtreeNode) : Mat :=
  match leaf_region image n with
  | Some region => rectangle_filled image region (Scalar_of_Vec3b (avgColor n))
  | None => image
  end.

(** An image of one colour. *)
Definition uniform (m : Mat) (c : Vec3b) : Prop := forall i j, at_ m i j = c.

(** An 8 x 8 image and a 1000 x 501 image of one colour. *)
Definition plain_color : Vec3b := mkVec3b 7 7 7.
Definition plain8x8 : Mat := mkMat 8 8 (fun _ _ => plain_color).
Definition plain1000x501 : Mat := mkMat 501 1000 (fun _ _ => plain_color).

(* ================================================================== *)
(** ** The node counter *)

(** The values that the counter takes in a build: multiples of four up to
    the first one above the cap. *)
Definition counter_ok (c : Z) : Prop := 0 <= c <= MAX_NODES + 4 /\ c mod 4 = 0.

(** The flags of the grid regimes are not due to be cleared: they are
    clear, or a target percentage is set. *)
Definition settled (q : Quadtree) : Prop :=
  (useHybridCompression q || forceLowCompression q) && dle (targetCompressionPct q) 0 = false.

(** [q2] is [q1] with a threshold at least as high and a counter at most as
    high. *)
Definition raised (q1 q2 : Quadtree) : Prop :=
  q2 = set_nodeCounter (set_threshold q1 (threshold q2)) (nodeCounter q2) /\
  (threshold q1 <= threshold q2)%Q /\ nodeCounter q2 <= nodeCounter q1 /\
  counter_ok (nodeCounter q1) /\ counter_ok (nodeCounter q2) /\ settled q1 /\
  timeoutFlag q1 = false.

(* ================================================================== *)
(** ** The entropy of a block, in the words of the specification *)

(** [0, 1, ..., n - 1]. *)
Definition Zseq (n : Z) : list Z := map Z.of_nat (seq 0 (Z.to_nat n)).

(** The pixels of a block, row by row. *)
Definition pixels (block : Mat) : list Vec3b :=
  flat_map (fun i => map (fun j => at_ block i j) (Zseq (cols block))) (Zseq (rows block)).

Definition count_pixels (f : Vec3b -> bool) (l : list Vec3b) : Z :=
  Z.of_nat (length (filter f l)).

(** The bin of a histogram of 768 bins, 256 per channel, counts the pixels
    whose channel has the value of the bin. *)
Definition in_bin (k : Z) (p : Vec3b) : bool :=
  if k <? 256 then ch0 p =? k
  else if k <? 512 then ch1 p =? k - 256
  else ch2 p =? k - 512.

Definition histogram768 (block : Mat) (k : Z) : Z := count_pixels (in_bin k) (pixels block).

(** The base-2 Shannon entropy of the histogram: the sum over the occupied
    bins of [- p * log2 p], where [p] is the share of the pixels that the
    bin holds. *)
Definition shannon_term {E : Externals} (hist : Z -> Z) (sampleCount : Z) (e : Q) (k : Z) : Q :=
  if 0 <? hist k
  then (e - (inject_Z (hist k) / inject_Z sampleCount)
            * log2 (inject_Z (hist k) / inject_Z sampleCount))%Q
  else e.

Definition shannon768 {E : Externals} (block : Mat) : Q :=
  fold_left (shannon_term (histogram768 block) (Z.of_nat (length (pixels block))))
            (Zseq 768) 0%Q.

(** The running minimum and maximum of every channel, in the range of a
    [uchar] and in order. *)
Definition span_ok (mn mx : Vec3b) : Prop :=
  0 <= ch0 mn <= ch0 mx /\ ch0 mx <= 255 /\
  0 <= ch1 mn <= ch1 mx /\ ch1 mx <= 255 /\
  0 <= ch2 mn <= ch2 mx /\ ch2 mx <= 255.

(* ================================================================== *)
(** ** Reading the search log *)

(** The image on which the trial trees are built. *)
Definition testImage_of {E : Externals} (image : Mat) : Mat :=
  if 1000000 <? rows image * cols image then resize_half image else image.

(** A trial that ended more than [tolerance] away from the target. *)
Definition missed (targetPct : Q) (trial : Q * Q) : Prop :=
  (tolerance < Qabs (snd trial - targetPct))%Q.

(** The four ways in which the loop of the search ends. *)
Definition loop_exit (targetPct : Q) (made : nat) (st : Search) : Prop :=
  made = maxIterations \/
  (Qabs (currentPct st - targetPct) <= tolerance)%Q \/
  (high st - low st < 0.001 * low st)%Q \/
  (Qabs (cur_threshold st - bestThreshold st) < 0.001 * bestThreshold st)%Q.

(** Two inputs of the search: a plain image with a threshold at the lower
    end of the range and a target of 90 percent, and a striped image with a
    threshold of 100 and a target of 80 percent. *)
Definition overshoot_input : Quadtree := Quadtree_new plain8x8 0.0001 4 VARIANCE 90.
Definition undershoot_input : Quadtree := Quadtree_new stripes8x8 100 1 VARIANCE 80.

(** The fields of the aggregate that a visit never changes, and the two
    flags that it can only clear. *)
Definition frame (q q' : Quadtree) : Prop :=
  threshold q' = threshold q /\ minBlockSize q' = minBlockSize q /\
  sourceImage q' = sourceImage q /\ errorMethod q' = errorMethod q /\
  targetCompressionPct q' = targetCompressionPct q /\
  timeoutFlag q' = timeoutFlag q /\ maxDepth q' = maxDepth q /\
  centerRegion q' = centerRegion q /\
  centerMinBlockSize q' = centerMinBlockSize q /\ centerMaxDepth q' = centerMaxDepth q /\
  outerMinBlockSize q' = outerMinBlockSize q /\ outerMaxDepth q' = outerMaxDepth q /\
  (forceLowCompression q' = true -> forceLowCompression q = true) /\
  (useHybridCompression q' = true -> useHybridCompression q = true) /\
  nodeCounter q <= nodeCounter q'.

(* ================================================================== *)
(** ** Sums over the pixels of a block *)

(** The sum of one channel over a list of pixels. *)
Definition chan_sum (ch : Vec3b -> Z) (l : list Vec3b) : Z :=
  fold_right (fun p s => ch p + s) 0 l.

(** The sum of a rational function over a list of pixels. *)
Definition Qsum (g : Vec3b -> Q) (l : list Vec3b) : Q :=
  fold_right (fun p s => (g p + s)%Q) 0%Q l.

(** The largest value that each metric takes on a block of 8-bit pixels
    (for SSIM: on blocks narrower than four pixels, where the variance
    divided by 1000 stands in). *)
Definition metric_range (m : ErrorMethod) : Q :=
  match m with
  | VARIANCE => 65025 # 4
  | MAD => 255 # 2
  | MAX_PIXEL_DIFF => 255
  | ENTROPY => 5
  | SSIM => 65025 # 4000
  end.

(** The substitution that [calculateError] makes on small blocks: half the
    maximum pixel difference instead of the variance, the mean absolute
    deviation or the entropy. *)
Definition small_block_substitute (q : Quadtree) (block : Mat) : bool :=
  (rows block * cols block <=? 9) && (minBlockSize q =? 2)
  && match errorMethod q with
     | VARIANCE | MAD | ENTROPY => true
     | _ => false
     end.

(* ================================================================== *)
(** ** Helpers of the interface *)

(** [isPowerOfTwo(n)]: [n > 0 && (n & (n - 1)) == 0]. *)
Definition isPowerOfTwo (n : Z) : bool := (0 <? n) && (Z.land n (n - 1) =? 0).

(* ================================================================== *)
(** ** Tactics and elementary facts *)

Ltac case_if :=
  match goal with
  | |- context [if ?c then _ else _] => destruct c eqn:?
  end.

Ltac bool_hyps :=
  repeat match goal with
  | H : _ || _ = false |- _ => apply orb_false_iff in H; destruct H
  | H : _ && _ = true |- _ => apply andb_true_iff in H; destruct H
  | H : _ || _ = true |- _ => apply orb_true_iff in H
  | H : _ && _ = false |- _ => apply andb_false_iff in H
  | H : negb _ = true |- _ => apply negb_true_iff in H
  | H : negb _ = false |- _ => apply negb_false_iff in H
  | H : (_ <? _) = true |- _ => apply Z.ltb_lt in H
  | H : (_ <? _) = false |- _ => apply Z.ltb_ge in H
  | H : (_ <=? _) = true |- _ => apply Z.leb_le in H
  | H : (_ <=? _) = false |- _ => apply Z.leb_gt in H
  | H : (_ =? _) = true |- _ => apply Z.eqb_eq in H
  | H : (_ =? _) = false |- _ => apply Z.eqb_neq in H
  end.

(** The loop rule: an invariant indexed by the loop counter. *)
Lemma for_loop_inv {A : Type} (P : Z -> A -> Prop) (body : Z -> A -> A) :
  forall (n : nat) (i : Z) (acc : A),
    P i acc ->
    (forall k a, i <= k < i + Z.of_nat n -> P k a -> P (k + 1) (body k a)) ->
    P (i + Z.of_nat n) (for_loop n i body acc).
Proof.
  induction n as [|n IH]; intros i acc H0 Hstep.
  - simpl. now rewrite Z.add_0_r.
  - cbn [for_loop].
    replace (i + Z.of_nat (S n)) with ((i + 1) + Z.of_nat n) by lia.
    apply IH.
    + apply Hstep; [lia | exact H0].
    + intros k a Hk. apply Hstep. lia.
Qed.

Lemma for_range_inv {A : Type} (P : Z -> A -> Prop) (body : Z -> A -> A)
    (lo hi : Z) (acc : A) :
  lo <= hi ->
  P lo acc ->
  (forall k a, lo <= k < hi -> P k a -> P (k + 1) (body k a)) ->
  P hi (for_range lo hi body acc).
Proof.
  intros Hle H0 Hstep. unfold for_range.
  replace hi with (lo + Z.of_nat (Z.to_nat (hi - lo))) at 1 by lia.
  apply for_loop_inv; [exact H0|].
  intros k a Hk. apply Hstep. lia.
Qed.

Lemma for_range_empty {A : Type} (body : Z -> A -> A) (lo hi : Z) (acc : A) :
  hi <= lo -> for_range lo hi body acc = acc.
Proof.
  intros H. unfold for_range. replace (Z.to_nat (hi - lo)) with O by lia. reflexivity.
Qed.

(** An invariant that does not mention the counter. *)
Lemma for_range_preserves {A : Type} (P : A -> Prop) (body : Z -> A -> A)
    (lo hi : Z) (acc : A) :
  P acc ->
  (forall k a, lo <= k < hi -> P a -> P (body k a)) ->
  P (for_range lo hi body acc).
Proof.
  intros H0 Hstep.
  destruct (Z_le_gt_dec lo hi) as [Hle|Hgt].
  - apply (for_range_inv (fun _ a => P a)); auto.
  - rewrite for_range_empty by lia. exact H0.
Qed.

Lemma for_index_preserves {A : Type} (P : A -> Prop) (body : Z -> Z -> A -> A)
    (nrows ncols : Z) (acc : A) :
  P acc ->
  (forall i j a, 0 <= i < nrows -> 0 <= j < ncols -> P a -> P (body i j a)) ->
  P (for_index nrows ncols body acc).
Proof.
  intros H0 Hstep. unfold for_index.
  apply for_range_preserves; [exact H0|].
  intros i a Hi Ha. apply for_range_preserves; [exact Ha|].
  intros j b Hj Hb. now apply Hstep.
Qed.

Lemma cdiv_2_nonneg (a : Z) : 0 <= a -> cdiv a 2 = a / 2.
Proof. intros H. unfold cdiv. apply Z.quot_div_nonneg; lia. Qed.

Lemma dlt_true (a b : Q) : dlt a b = true <-> (a < b)%Q.
Proof.
  unfold dlt. destruct (Qlt_le_dec a b) as [H|H]; split; intros H'; auto; try discriminate.
  exfalso. apply (Qle_not_lt _ _ H H').
Qed.

Lemma dlt_false (a b : Q) : dlt a b = false <-> (b <= a)%Q.
Proof.
  unfold dlt. destruct (Qlt_le_dec a b) as [H|H]; split; intros H'; auto; try discriminate.
  exfalso. apply (Qle_not_lt _ _ H' H).
Qed.

Lemma dle_true (a b : Q) : dle a b = true <-> (a <= b)%Q.
Proof. unfold dle. apply Qle_bool_iff. Qed.

Lemma dle_false (a b : Q) : dle a b = false <-> (b < a)%Q.
Proof.
  unfold dle. split; intros H.
  - apply Qnot_le_lt. intros Hle. apply Qle_bool_iff in Hle. congruence.
  - destruct (Qle_bool a b) eqn:Hb; [|reflexivity].
    apply Qle_bool_iff in Hb. exfalso. apply (Qle_not_lt _ _ Hb H).
Qed.

(* ================================================================== *)
(** ** The shape of the nodes (C4) *)

Section Shape.
Context {E : Externals}.

Lemma calculateAverageColor_set (n : QuadtreeNode) (image : Mat) :
  exists c, calculateAverageColor n image = set_avgColor n c.
Proof.
  unfold calculateAverageColor.
  destruct (_ || _ || _ || _); [eauto|].
  destruct (for_range _ _ _ _) as [[[a b] c] k].
  destruct (0 <? k); eauto.
Qed.

Lemma visit_shape (q : Quadtree) (image : Mat) (node : QuadtreeNode) (depth : Z) :
  unsplit node ->
  match visit q image node depth with
  | Return n' _ => unsplit n'
  | Recurse n' cs _ _ => isLeaf n' = false /\ Quad_all unsplit cs
  end.
Proof.
  intros [Hl Hc].
  destruct (calculateAverageColor_set node image) as [c Hcol].
  assert (Hu : unsplit (set_isLeaf node true)) by (split; [reflexivity | exact Hc]).
  assert (Hu' : unsplit (leaf_with_color node image)).
  { unfold leaf_with_color. rewrite Hcol. split; [reflexivity | exact Hc]. }
  assert (Hs : forall n a b c d, Quad_all unsplit (split4 n a b c d)).
  { intros. repeat split. }
  unfold visit.
  repeat case_if; try (split; [reflexivity | apply Hs]); auto; try (split; assumption).
Qed.

(** The rule of the loop over the children: a property of the aggregate
    that every call keeps, and a property of the nodes that both a call and
    a skipped child establish. *)
Lemma run_children_rule (I : Quadtree -> Prop) (Pre Post : QuadtreeNode -> Prop)
    (rec : SubCall) (loop : ChildLoop) (cs : Quad QuadtreeNode) (q : Quadtree) :
  (forall c s, Pre c -> I s -> Post (fst (rec c s)) /\ I (snd (rec c s))) ->
  (forall c, Pre c -> Post c) ->
  Quad_all Pre cs -> I q ->
  Quad_all Post (fst (run_children rec loop cs q)) /\ I (snd (run_children rec loop cs q)).
Proof.
  intros Hrec Hskip (H0 & H1 & H2 & H3) Hq. unfold run_children.
  destruct (rec (q0 cs) q) as [c0 s0] eqn:E0.
  destruct (Hrec _ _ H0 Hq) as [P0 I0]. rewrite E0 in P0, I0. cbn [fst snd] in P0, I0.
  destruct (breaks_after loop 0 s0); [repeat split; auto|].
  destruct (rec (q1 cs) s0) as [c1 s1] eqn:E1.
  destruct (Hrec _ _ H1 I0) as [P1 I1]. rewrite E1 in P1, I1. cbn [fst snd] in P1, I1.
  destruct (breaks_after loop 1 s1); [repeat split; auto|].
  destruct (rec (q2 cs) s1) as [c2 s2] eqn:E2.
  destruct (Hrec _ _ H2 I1) as [P2 I2]. rewrite E2 in P2, I2. cbn [fst snd] in P2, I2.
  destruct (breaks_after loop 2 s2); [repeat split; auto|].
  destruct (rec (q3 cs) s2) as [c3 s3] eqn:E3.
  destruct (Hrec _ _ H3 I2) as [P3 I3]. rewrite E3 in P3, I3. cbn [fst snd] in P3, I3.
  repeat split; auto.
Qed.

Lemma Forall_subnodes_node (P : QuadtreeNode -> Prop) (n : QuadtreeNode) :
  Forall P (subnodes n) <->
  P n /\ Quad_all (fun o => match o with None => True | Some c => Forall P (subnodes c) end)
                  (children n).
Proof.
  destruct n as [x0 y0 w h col [o0 o1 o2 o3] l]. cbn [subnodes children q0 q1 q2 q3].
  unfold Quad_all. cbn [q0 q1 q2 q3].
  rewrite Forall_cons_iff, !Forall_app.
  destruct o0, o1, o2, o3; intuition (auto using Forall_nil).
Qed.

Lemma unsplit_shape (n : QuadtreeNode) : unsplit n -> Forall node_shape (subnodes n).
Proof.
  intros [Hl Hc]. apply Forall_subnodes_node. split.
  - left. split; assumption.
  - rewrite Hc. repeat split.
Qed.

Lemma quadtreeCompress_shape (fuel : nat) (image : Mat) :
  forall (depth : Z) (node : QuadtreeNode) (q : Quadtree),
    unsplit node ->
    Forall node_shape (subnodes (fst (quadtreeCompress fuel image depth node q))).
Proof.
  induction fuel as [|fuel IH]; intros depth node q Hn.
  - cbn. now apply unsplit_shape.
  - cbn [quadtreeCompress].
    pose proof (visit_shape q image node depth Hn) as Hv.
    destruct (visit q image node depth) as [n' q'|n' cs loop q'].
    + cbn. now apply unsplit_shape.
    + destruct Hv as [Hl Hcs].
      destruct (run_children_rule (fun _ => True) unsplit
                  (fun c => Forall node_shape (subnodes c))
                  (quadtreeCompress fuel image (depth + 1)) loop cs q') as [Hpost _];
        auto using unsplit_shape.
      destruct (run_children _ loop cs q') as [cs' q'']. cbn [fst snd] in *.
      apply Forall_subnodes_node. split.
      * right. split; [exact Hl|]. repeat split; discriminate.
      * destruct Hpost as (?&?&?&?). repeat split; assumption.
Qed.

Lemma newNode_unsplit (x0 y0 w h : Z) : unsplit (newNode x0 y0 w h).
Proof. split; reflexivity. Qed.

Lemma buildTree_shape (q : Quadtree) :
  exists r, root (buildTree q) = Some r /\ Forall node_shape (subnodes r).
Proof.
  unfold buildTree. destruct (500000 <? _).
  - destruct (run_children_rule (fun _ => True) unsplit
                (fun c => Forall node_shape (subnodes c))
                (quadtreeCompress (fuel_for q) (sourceImage q) 1) AsyncTasks
                (quad (newNode 0 0 (Z.max 1 (cdiv (cols (sourceImage q)) 2))
                         (Z.max 1 (cdiv (rows (sourceImage q)) 2)))
                      (newNode (Z.max 1 (cdiv (cols (sourceImage q)) 2)) 0
                         (cols (sourceImage q) - Z.max 1 (cdiv (cols (sourceImage q)) 2))
                         (Z.max 1 (cdiv (rows (sourceImage q)) 2)))
                      (newNode 0 (Z.max 1 (cdiv (rows (sourceImage q)) 2))
                         (Z.max 1 (cdiv (cols (sourceImage q)) 2))
                         (rows (sourceImage q) - Z.max 1 (cdiv (rows (sourceImage q)) 2)))
                      (newNode (Z.max 1 (cdiv (cols (sourceImage q)) 2))
                         (Z.max 1 (cdiv (rows (sourceImage q)) 2))
                         (cols (sourceImage q) - Z.max 1 (cdiv (cols (sourceImage q)) 2))
                         (rows (sourceImage q) - Z.max 1 (cdiv (rows (sourceImage q)) 2))))
                q) as [Hpost _];
      auto using unsplit_shape, quadtreeCompress_shape.
    { repeat split. }
    destruct (run_children _ _ _ _) as [cs' q']. cbn [fst snd] in *.
    eexists. split; [reflexivity|].
    apply Forall_subnodes_node. split.
    + right. split; [reflexivity|]. repeat split; discriminate.
    + destruct Hpost as (?&?&?&?). repeat split; assumption.
  - pose proof (quadtreeCompress_shape (fuel_for q) (sourceImage q) 0
                  (newNode 0 0 (cols (sourceImage q)) (rows (sourceImage q))) q
                  (newNode_unsplit _ _ _ _)) as H.
    destruct (quadtreeCompress _ _ _ _ _) as [r q']. eexists. split; [reflexivity|exact H].
Qed.

(** C4.  Every node of the tree that [compressImage] builds, whatever the
    image and the parameters, is either a leaf whose four child pointers
    are null or an internal node whose four child pointers are set; the
    splitter, the one operation that writes to nodes, establishes this at
    every node below a newly constructed node handed to it. *)
Theorem compressImage_node_shape :
  (forall q : Quadtree,
      exists r, root (compressImage q) = Some r /\ Forall node_shape (subnodes r)) /\
  (forall (fuel : nat) (image : Mat) (depth x0 y0 w h : Z) (q : Quadtree),
      Forall node_shape
        (subnodes (fst (quadtreeCompress fuel image depth (newNode x0 y0 w h) q)))).
Proof.
  split.
  - intros q. unfold compressImage. apply buildTree_shape.
  - intros. apply quadtreeCompress_shape, newNode_unsplit.
Qed.

End Shape.

(* ================================================================== *)
(** ** The abort test (C8) and one-pixel regions (C10) *)

Section Abort.
Context {E : Externals}.

Lemma visit_aborted (q : Quadtree) (image : Mat) (node : QuadtreeNode) (depth : Z) :
  aborted q = true -> visit q image node depth = Return node q.
Proof. unfold aborted, visit. intros ->. reflexivity. Qed.

Lemma quadtreeCompress_aborted (fuel : nat) (image : Mat) (depth : Z)
    (node : QuadtreeNode) (q : Quadtree) :
  aborted q = true -> quadtreeCompress fuel image depth node q = (node, q).
Proof.
  intros H. destruct fuel; [reflexivity|].
  cbn [quadtreeCompress]. now rewrite visit_aborted.
Qed.

Lemma run_children_aborted (fuel : nat) (image : Mat) (depth : Z) (loop : ChildLoop)
    (cs : Quad QuadtreeNode) (q : Quadtree) :
  aborted q = true ->
  run_children (quadtreeCompress fuel image depth) loop cs q = (cs, q).
Proof.
  intros H. unfold run_children. rewrite !quadtreeCompress_aborted by exact H.
  destruct cs. cbn. repeat case_if; reflexivity.
Qed.

(** C8, as the code has it.  When [quadtreeCompress] is entered with the
    timeout flag set or with the node counter above 150000, the node is
    left as it is (for a node handed over as constructed: a leaf without
    children, neutral gray) and the aggregate is left as it is; the test
    therefore fails again for every later call of the same build, and the
    loop over the siblings leaves all of them as constructed. *)
Theorem quadtreeCompress_abort (fuel : nat) (image : Mat) (depth x0 y0 w h : Z)
    (loop : ChildLoop) (siblings : Quad QuadtreeNode) (q : Quadtree) :
  timeoutFlag q = true \/ MAX_NODES < nodeCounter q ->
  let n := newNode x0 y0 w h in
  quadtreeCompress fuel image depth n q = (n, q) /\
  isLeaf n = true /\ no_children n /\ avgColor n = mkVec3b 128 128 128 /\
  aborted (snd (quadtreeCompress fuel image depth n q)) = true /\
  run_children (quadtreeCompress fuel image depth) loop siblings q = (siblings, q).
Proof.
  intros H n.
  assert (Ha : aborted q = true).
  { unfold aborted. destruct H as [->|H]; [reflexivity|].
    apply orb_true_iff. right. now apply Z.ltb_lt. }
  rewrite quadtreeCompress_aborted by exact Ha.
  repeat split; auto using run_children_aborted.
Qed.

Lemma calculateError_degenerate (q : Quadtree) (block avgBlock : Mat) :
  empty block = true \/ (rows block = 1 /\ cols block = 1) ->
  calculateError q block avgBlock = 0%Q.
Proof.
  intros H. unfold calculateError.
  destruct H as [->|[-> ->]]; [reflexivity|].
  rewrite orb_true_r. reflexivity.
Qed.

Lemma calculateAverageColor_fields (n : QuadtreeNode) (image : Mat) :
  x (calculateAverageColor n image) = x n /\
  y (calculateAverageColor n image) = y n /\
  width (calculateAverageColor n image) = width n /\
  height (calculateAverageColor n image) = height n /\
  children (calculateAverageColor n image) = children n /\
  isLeaf (calculateAverageColor n image) = isLeaf n.
Proof.
  destruct (calculateAverageColor_set n image) as [c ->]. repeat split.
Qed.

Lemma visit_one_pixel (q : Quadtree) (image : Mat) (depth x0 y0 : Z) :
  (0 < threshold q)%Q -> hybrid_ok q -> forceLow_ok q ->
  exists n' q', visit q image (newNode x0 y0 1 1) depth = Return n' q' /\ unsplit n'.
Proof.
  intros HT Hh Hf.
  pose proof (visit_shape q image (newNode x0 y0 1 1) depth (newNode_unsplit _ _ _ _)) as Hs.
  destruct (visit q image (newNode x0 y0 1 1) depth) as [n' q'|n' cs loop q'] eqn:Hv;
    [eauto|exfalso].
  clear Hs. revert Hv. unfold visit.
  cbn [x y width height newNode set_isLeaf].
  destruct (calculateAverageColor_fields (newNode x0 y0 1 1) image)
    as (Hx & Hy & Hw & Hhh & _ & _).
  cbn [x y width height newNode] in Hx, Hy, Hw, Hhh.
  unfold hybrid_ok, forceLow_ok in *.
  repeat case_if; try discriminate; bool_hyps;
    cbn [useHybridCompression forceLowCompression set_forceLowCompression
         set_useHybridCompression minBlockSize centerMinBlockSize outerMinBlockSize
         threshold errorMethod set_nodeCounter] in *;
    try lia.
  all: try match goal with
           | H : forceLowCompression _ = true |- _ => specialize (Hf H); lia
           | H : useHybridCompression _ = true |- _ =>
               destruct (Hh H);
               repeat match goal with
                      | H' : context [if ?c then _ else _] |- _ => destruct c
                      end; lia
           end.
  all: match goal with
       | H : dlt ?e _ = false |- _ =>
           assert (Hz : e = 0%Q);
           [ destruct (errorMethod _); apply calculateError_degenerate; right;
             unfold clamped_rect, roi; cbn [rows cols rw rh x y width height newNode]; lia
           | rewrite Hz in H; apply dlt_false in H; exfalso; apply (Qlt_not_le _ _ HT H) ]
       end.
Qed.

(** C10.  Whatever the error method and the reference block,
    [calculateError] is 0 on an empty region and on a region of one pixel;
    and under a positive threshold the splitter leaves a node of one pixel
    a leaf without children, in every branch (the block sizes of a grid
    plan being at least one, as [prepare_plan_ok] shows they are in every
    build). *)
Theorem one_pixel_region (q : Quadtree) (block avgBlock : Mat)
    (fuel : nat) (image : Mat) (depth x0 y0 : Z) :
  empty block = true \/ (rows block = 1 /\ cols block = 1) ->
  (0 < threshold q)%Q -> hybrid_ok q -> forceLow_ok q ->
  calculateError q block avgBlock = 0%Q /\
  isLeaf (fst (quadtreeCompress fuel image depth (newNode x0 y0 1 1) q)) = true /\
  no_children (fst (quadtreeCompress fuel image depth (newNode x0 y0 1 1) q)).
Proof.
  intros Hb HT Hh Hf. split; [now apply calculateError_degenerate|].
  destruct fuel as [|fuel]; [cbn; split; reflexivity|].
  cbn [quadtreeCompress].
  destruct (visit_one_pixel q image depth x0 y0 HT Hh Hf) as (n' & q' & -> & Hl & Hc).
  cbn. split; assumption.
Qed.

Lemma powerOf2_loop_ge (fuel : nat) :
  forall p g : Z, 1 <= p -> p <= powerOf2_loop fuel p g.
Proof.
  induction fuel as [|fuel IH]; intros p g Hp; cbn [powerOf2_loop]; [lia|].
  destruct (p * 2 <=? g); [|lia].
  specialize (IH (p * 2) g). lia.
Qed.

Lemma largest_powerOf2_ge (g : Z) : 1 <= largest_powerOf2 g.
Proof. unfold largest_powerOf2. apply powerOf2_loop_ge. lia. Qed.

Lemma prepare_plan_ok (q : Quadtree) : hybrid_ok (prepare q) /\ forceLow_ok (prepare q).
Proof.
  unfold prepare, adjustThresholdForTargetCompression, hybrid_ok, forceLow_ok.
  repeat case_if; cbn; split; intros; try discriminate;
    try match goal with
        | |- context [largest_powerOf2 ?g] => pose proof (largest_powerOf2_ge g); lia
        end.
Qed.

Lemma prepare_minBlockSize (q : Quadtree) : 1 <= minBlockSize q -> 1 <= minBlockSize (prepare q).
Proof.
  unfold prepare, adjustThresholdForTargetCompression.
  repeat case_if; cbn; intros; try assumption;
    try match goal with
        | |- context [largest_powerOf2 ?g] => pose proof (largest_powerOf2_ge g); lia
        end.
Qed.

End Abort.

Example one_pixel_region_witness :
  calculateError (E := reference_externals) (Quadtree_new halves4x4 1 1 VARIANCE 0)
    (roi halves4x4 (mkRect 3 3 1 1)) Mat_default = 0%Q /\
  isLeaf (fst (quadtreeCompress (E := reference_externals) 12 halves4x4 2
                 (newNode 3 3 1 1) (Quadtree_new halves4x4 1 1 VARIANCE 0))) = true /\
  no_children (fst (quadtreeCompress (E := reference_externals) 12 halves4x4 2
                      (newNode 3 3 1 1) (Quadtree_new halves4x4 1 1 VARIANCE 0))).
Proof.
  apply (one_pixel_region (E := reference_externals) (Quadtree_new halves4x4 1 1 VARIANCE 0)
           (roi halves4x4 (mkRect 3 3 1 1)) Mat_default 12 halves4x4 2 3 3).
  - right. split; reflexivity.
  - reflexivity.
  - intros H. discriminate H.
  - intros H. discriminate H.
Defined.

Example quadtreeCompress_abort_witness :
  let q := set_nodeCounter (Quadtree_new stripes8x8 1 1 VARIANCE 0) 150004 in
  let n := newNode 0 0 4 4 in
  quadtreeCompress (E := reference_externals) 12 stripes8x8 1 n q = (n, q) /\
  isLeaf n = true /\ no_children n /\ avgColor n = mkVec3b 128 128 128 /\
  aborted (snd (quadtreeCompress (E := reference_externals) 12 stripes8x8 1 n q)) = true /\
  run_children (quadtreeCompress (E := reference_externals) 12 stripes8x8 1)
    BreakOnOddTimeout (split4 (newNode 0 0 8 8) 4 4 4 4) q
  = (split4 (newNode 0 0 8 8) 4 4 4 4, q).
Proof.
  apply (quadtreeCompress_abort (E := reference_externals) 12 stripes8x8 1 0 0 4 4
           BreakOnOddTimeout (split4 (newNode 0 0 8 8) 4 4 4 4)
           (set_nodeCounter (Quadtree_new stripes8x8 1 1 VARIANCE 0) 150004)).
  right. reflexivity.
Defined.

(** The claim of C8 fails where it says that the rest of the tree is
    subdivided as before.  The build of the 8 x 8 stripes is entered at the
    four quadrants of the root with the counter at 150000: the first
    quadrant is split, which takes the counter to 150004, its children and
    the three other quadrants are left as constructed; with the counter at
    0 all four quadrants are split. *)
Example cap_stops_the_siblings :
  let cs := split4 (newNode 0 0 8 8) 4 4 4 4 in
  let run c :=
    fst (run_children (quadtreeCompress (E := reference_externals) 12 stripes8x8 1)
           BreakOnOddTimeout cs
           (set_nodeCounter (Quadtree_new stripes8x8 1 1 VARIANCE 0) c)) in
  map isLeaf (Quad_list (run 150000)) = [false; true; true; true] /\
  map isLeaf (Quad_list (run 0)) = [false; false; false; false] /\
  map avgColor (leaves (q0 (run 150000))) = [gray; gray; gray; gray] /\
  map avgColor (leaves (q0 (run 0))) = [black; white; black; white].
Proof. vm_compute. repeat split. Qed.

(* ================================================================== *)
(** ** The children partition the parent (C2) *)

Section Tiling.
Context {E : Externals}.

Lemma QuadtreeNode_tree_ind (P : QuadtreeNode -> Prop) :
  (forall n,
      Quad_all (fun o => match o with None => True | Some c => P c end) (children n) ->
      P n) ->
  forall n, P n.
Proof.
  intros H. fix F 1. intros n. apply H.
  destruct n as [x0 y0 w h col [o0 o1 o2 o3] l]. cbn [children].
  repeat split; cbn [q0 q1 q2 q3].
  - destruct o0 as [c|]; [apply F | exact I].
  - destruct o1 as [c|]; [apply F | exact I].
  - destruct o2 as [c|]; [apply F | exact I].
  - destruct o3 as [c|]; [apply F | exact I].
Qed.

Lemma frame_refl (q : Quadtree) : frame q q.
Proof. unfold frame. repeat split; auto; lia. Qed.

Lemma frame_trans (a b c : Quadtree) : frame a b -> frame b c -> frame a c.
Proof.
  unfold frame. intros H1 H2.
  decompose [and] H1. decompose [and] H2.
  repeat split; try congruence; auto; lia.
Qed.

Lemma visit_frame (q : Quadtree) (image : Mat) (node : QuadtreeNode) (depth : Z) :
  match visit q image node depth with
  | Return n' q' => rect_of n' = rect_of node /\ frame q q'
  | Recurse n' cs _ q' => rect_of n' = rect_of node /\ frame q q'
  end.
Proof.
  destruct (calculateAverageColor_set node image) as [c Hcol].
  unfold visit, leaf_with_color. rewrite !Hcol.
  repeat case_if; (split; [reflexivity|]); unfold frame; cbn;
    repeat split; auto; try discriminate; lia.
Qed.

Lemma frame_plan (q q' : Quadtree) :
  frame q q' -> hybrid_ok q -> forceLow_ok q -> hybrid_ok q' /\ forceLow_ok q'.
Proof.
  unfold frame, hybrid_ok, forceLow_ok. intros H Hh Hf. decompose [and] H.
  split; intros; [destruct Hh; auto; lia | specialize (Hf ltac:(auto)); lia ].
Qed.

Lemma split4_ext (a b : QuadtreeNode) (hw hh w1 h1 hw' hh' w1' h1' : Z) :
  x a = x b -> y a = y b -> hw = hw' -> hh = hh' -> w1 = w1' -> h1 = h1' ->
  split4 a hw hh w1 h1 = split4 b hw' hh' w1' h1'.
Proof. unfold split4. intros -> -> -> -> -> ->. reflexivity. Qed.

(** Where a visit splits: the node has at least one pixel each way (at
    least two when the minimum block size is positive), and the children
    are cut at [max(1, width / 2)], [max(1, height / 2)]. *)
Lemma visit_split (q : Quadtree) (image : Mat) (node : QuadtreeNode) (depth : Z) :
  hybrid_ok q -> forceLow_ok q ->
  match visit q image node depth with
  | Return _ _ => True
  | Recurse n' cs _ _ =>
      1 <= width node /\ 1 <= height node /\
      (1 <= minBlockSize q -> 2 <= width node /\ 2 <= height node) /\
      isLeaf n' = false /\
      cs = split4 node (Z.max 1 (width node / 2)) (Z.max 1 (height node / 2))
                  (width node - Z.max 1 (width node / 2))
                  (height node - Z.max 1 (height node / 2))
  end.
Proof.
  intros Hh Hf.
  destruct (calculateAverageColor_set node image) as [c Hcol].
  unfold visit, leaf_with_color. rewrite !Hcol.
  unfold hybrid_ok, forceLow_ok in *.
  destruct ((useHybridCompression q || forceLowCompression q)
            && dle (targetCompressionPct q) 0) eqn:Hclear;
  repeat case_if; try exact I; bool_hyps;
    cbn [x y width height children isLeaf set_isLeaf set_avgColor
         useHybridCompression forceLowCompression set_forceLowCompression
         set_useHybridCompression minBlockSize centerMinBlockSize outerMinBlockSize
         threshold errorMethod set_nodeCounter clamped_rect rx ry rw rh] in *;
    try discriminate.
  all: try match goal with
           | H : forceLowCompression _ = true |- _ => specialize (Hf H)
           end.
  all: try match goal with
           | H : useHybridCompression _ = true |- _ =>
               destruct (Hh H);
               repeat match goal with
                      | H' : context [if ?c then _ else _] |- _ => destruct c
                      end
           end.
  all: unfold cdiv.
  all: assert (1 <= width node /\ 1 <= height node) as [Hw1 Hh1] by lia.
  all: rewrite !Z.quot_div_nonneg by lia.
  all: repeat split; try lia; try reflexivity.
  all: apply split4_ext; cbn [x y set_isLeaf set_avgColor]; try lia.
  all: match goal with
       | Hw : 4 <= width _, Hh' : 4 <= height _ |- _ =>
           clear - Hw Hh'; Z.to_euclidean_division_equations; lia
       end.
Qed.

(** The loop over the children, relationally: [R] links every child to
    what the loop leaves in its place. *)
Lemma run_children_rel (I : Quadtree -> Prop) (Pre : QuadtreeNode -> Prop)
    (R : QuadtreeNode -> QuadtreeNode -> Prop)
    (rec : SubCall) (loop : ChildLoop) (cs : Quad QuadtreeNode) (q : Quadtree) :
  (forall c s, Pre c -> I s -> R c (fst (rec c s)) /\ I (snd (rec c s))) ->
  (forall c, Pre c -> R c c) ->
  Quad_all Pre cs -> I q ->
  let r := run_children rec loop cs q in
  R (q0 cs) (q0 (fst r)) /\ R (q1 cs) (q1 (fst r)) /\ R (q2 cs) (q2 (fst r)) /\
  R (q3 cs) (q3 (fst r)) /\ I (snd r).
Proof.
  intros Hrec Hskip (H0 & H1 & H2 & H3) Hq. unfold run_children.
  destruct (rec (q0 cs) q) as [c0 s0] eqn:E0.
  destruct (Hrec _ _ H0 Hq) as [P0 I0]. rewrite E0 in P0, I0. cbn [fst snd] in P0, I0.
  destruct (breaks_after loop 0 s0); [cbn; repeat split; auto|].
  destruct (rec (q1 cs) s0) as [c1 s1] eqn:E1.
  destruct (Hrec _ _ H1 I0) as [P1 I1]. rewrite E1 in P1, I1. cbn [fst snd] in P1, I1.
  destruct (breaks_after loop 1 s1); [cbn; repeat split; auto|].
  destruct (rec (q2 cs) s1) as [c2 s2] eqn:E2.
  destruct (Hrec _ _ H2 I1) as [P2 I2]. rewrite E2 in P2, I2. cbn [fst snd] in P2, I2.
  destruct (breaks_after loop 2 s2); [cbn; repeat split; auto|].
  destruct (rec (q3 cs) s2) as [c3 s3] eqn:E3.
  destruct (Hrec _ _ H3 I2) as [P3 I3]. rewrite E3 in P3, I3. cbn [fst snd] in P3, I3.
  cbn. repeat split; auto.
Qed.

Lemma quadtreeCompress_frame (fuel : nat) (image : Mat) :
  forall (depth : Z) (node : QuadtreeNode) (q : Quadtree),
    rect_of (fst (quadtreeCompress fuel image depth node q)) = rect_of node /\
    frame q (snd (quadtreeCompress fuel image depth node q)).
Proof.
  induction fuel as [|fuel IH]; intros depth node q.
  - cbn. split; [reflexivity | apply frame_refl].
  - cbn [quadtreeCompress].
    pose proof (visit_frame q image node depth) as Hv.
    destruct (visit q image node depth) as [n' q'|n' cs loop q']; [exact Hv|].
    destruct Hv as [Hr Hf].
    destruct (run_children_rel (fun s => frame q' s) (fun _ => True) (fun _ _ => True)
                (quadtreeCompress fuel image (depth + 1)) loop cs q') as (_&_&_&_&Hq);
      auto using frame_refl.
    { intros c s _ Hs. split; [exact I|]. eapply frame_trans; [exact Hs | apply IH]. }
    { repeat split. }
    destruct (run_children _ loop cs q') as [cs' q'']. cbn [fst snd] in *.
    split; [exact Hr | eapply frame_trans; eassumption].
Qed.

Lemma Forall_subnodes_unsplit (P : QuadtreeNode -> Prop) (n : QuadtreeNode) :
  unsplit n -> P n -> Forall P (subnodes n).
Proof.
  intros [_ Hc] Hp. apply Forall_subnodes_node. split; [exact Hp|].
  rewrite Hc. repeat split.
Qed.

Lemma in_rect_iff (n : QuadtreeNode) (px py : Z) :
  in_rect n px py <->
  x n <= px < x n + width n /\ y n <= py < y n + height n.
Proof. reflexivity. Qed.

Lemma rect_of_inj (a : QuadtreeNode) (x0 y0 w h : Z) :
  rect_of a = mkRect x0 y0 w h -> x a = x0 /\ y a = y0 /\ width a = w /\ height a = h.
Proof. unfold rect_of. intros H. injection H. auto. Qed.

(** A cut in the middle of a node of at least two pixels each way is the
    split of C2. *)
Lemma cut_halved (n : QuadtreeNode) :
  2 <= width n -> 2 <= height n ->
  cut_at n (width n / 2) (height n / 2) -> halved n.
Proof.
  intros Hw Hh Hcut. split; [exact Hcut|].
  destruct Hcut as (c0 & c1 & c2 & c3 & Hc & R0 & R1 & R2 & R3).
  apply rect_of_inj in R0, R1, R2, R3.
  destruct R0 as (X0 & Y0 & W0 & H0), R1 as (X1 & Y1 & W1 & H1),
           R2 as (X2 & Y2 & W2 & H2), R3 as (X3 & Y3 & W3 & H3).
  assert (Hhw : 1 <= width n / 2 < width n) by (Z.to_euclidean_division_equations; lia).
  assert (Hhh : 1 <= height n / 2 < height n) by (Z.to_euclidean_division_equations; lia).
  rewrite Hc. unfold Quad_all, Quad_list. cbn [q0 q1 q2 q3].
  split; [|split].
  - repeat split; lia.
  - intros px py. rewrite !Exists_cons, Exists_nil, !in_rect_iff.
    rewrite X0, Y0, W0, H0, X1, Y1, W1, H1, X2, Y2, W2, H2, X3, Y3, W3, H3. lia.
  - intros px py i j c d Hi Hj.
    rewrite !in_rect_iff.
    destruct i as [|[|[|[|i]]]]; cbn in Hi; try (destruct i; discriminate Hi);
      injection Hi as <-;
      destruct j as [|[|[|[|j]]]]; cbn in Hj; try (destruct j; discriminate Hj);
      injection Hj as <-; try reflexivity; intros; exfalso; lia.
Qed.

Lemma split4_rects (n : QuadtreeNode) (hw hh w1 h1 : Z) :
  let cs := split4 n hw hh w1 h1 in
  rect_of (q0 cs) = mkRect (x n) (y n) hw hh /\
  rect_of (q1 cs) = mkRect (x n + hw) (y n) w1 hh /\
  rect_of (q2 cs) = mkRect (x n) (y n + hh) hw h1 /\
  rect_of (q3 cs) = mkRect (x n + hw) (y n + hh) w1 h1.
Proof. repeat split. Qed.

Lemma calculateAverageColor_valid (n : QuadtreeNode) (image : Mat) :
  valid_pixel (avgColor (calculateAverageColor n image)).
Proof.
  unfold calculateAverageColor.
  destruct (_ || _ || _ || _); [cbn; unfold valid_pixel, valid_uchar; cbn; lia|].
  destruct (for_range _ _ _ _) as [[[a b] c] k].
  destruct (0 <? k); cbn; unfold valid_pixel, valid_uchar, static_cast_uchar; cbn;
    repeat split; try lia;
    match goal with
    | |- context [?a mod 256] => pose proof (Z.mod_pos_bound a 256 ltac:(lia)); lia
    end.
Qed.

Lemma visit_color (q : Quadtree) (image : Mat) (node : QuadtreeNode) (depth : Z) :
  valid_pixel (avgColor node) ->
  match visit q image node depth with
  | Return n' _ => valid_pixel (avgColor n')
  | Recurse n' _ _ _ => valid_pixel (avgColor n')
  end.
Proof.
  intros Hv. pose proof (calculateAverageColor_valid node image) as Hc.
  unfold visit, leaf_with_color. repeat case_if; assumption.
Qed.

Lemma quadtreeCompress_cut (fuel : nat) (image : Mat) :
  forall (depth : Z) (node : QuadtreeNode) (q : Quadtree),
    unsplit node -> valid_pixel (avgColor node) -> hybrid_ok q -> forceLow_ok q ->
    Forall (fun n => valid_pixel (avgColor n) /\ cut_ok (minBlockSize q) n)
           (subnodes (fst (quadtreeCompress fuel image depth node q))).
Proof.
  induction fuel as [|fuel IH]; intros depth node q Hn Hcol Hh Hfl.
  - cbn. apply Forall_subnodes_unsplit; [exact Hn|]. split; [exact Hcol|].
    intros Hl. destruct Hn. congruence.
  - cbn [quadtreeCompress].
    pose proof (visit_shape q image node depth Hn) as Hs.
    pose proof (visit_split q image node depth Hh Hfl) as Hv.
    pose proof (visit_frame q image node depth) as Hfr.
    pose proof (visit_color q image node depth Hcol) as Hvc.
    destruct (visit q image node depth) as [n' q'|n' cs loop q'].
    + cbn. apply Forall_subnodes_unsplit; [exact Hs|]. split; [exact Hvc|].
      intros Hl. destruct Hs. congruence.
    + destruct Hs as [_ Hcs]. destruct Hv as (Hw1 & Hh1 & H2 & Hl & ->).
      destruct Hfr as [Hr Hfr].
      set (cs := split4 node _ _ _ _) in *.
      assert (Hm : forall s, frame q' s -> minBlockSize s = minBlockSize q).
      { intros s Hfs. unfold frame in Hfr, Hfs.
        decompose [and] Hfr. decompose [and] Hfs. congruence. }
      pose proof (run_children_rel
                    (fun s => frame q' s)
                    (fun c => unsplit c /\ valid_pixel (avgColor c))
                    (fun c c' => rect_of c' = rect_of c /\
                                 Forall (fun n => valid_pixel (avgColor n) /\
                                                  cut_ok (minBlockSize q) n) (subnodes c'))
                    (quadtreeCompress fuel image (depth + 1)) loop cs q') as Hrun.
      cbv zeta in Hrun.
      destruct Hrun as (P0 & P1 & P2 & P3 & _); auto using frame_refl.
      { intros c s [Hc Hcc] Hfs. split; [split|].
        - apply quadtreeCompress_frame.
        - destruct (frame_plan _ _ (frame_trans _ _ _ Hfr Hfs) Hh Hfl) as [Hh' Hfl'].
          rewrite <- (Hm s Hfs). now apply IH.
        - eapply frame_trans; [exact Hfs | apply quadtreeCompress_frame]. }
      { intros c [Hc Hcc]. split; [reflexivity|].
        apply Forall_subnodes_unsplit; [exact Hc|]. split; [exact Hcc|].
        intros Hl'. destruct Hc. congruence. }
      { repeat split; cbn; unfold valid_uchar; lia. }
      destruct (run_children _ loop cs q') as [cs' q'']. cbn [fst snd] in *.
      destruct P0 as [R0 F0], P1 as [R1 F1], P2 as [R2 F2], P3 as [R3 F3].
      apply Forall_subnodes_node. split.
      * split; [exact Hvc|]. intros _.
        apply rect_of_inj in Hr. destruct Hr as (Hx & Hy & Hw & Hhh).
        cbn [width height set_children]. rewrite Hw, Hhh.
        repeat split; try lia; try (apply H2; assumption).
        exists (q0 cs'), (q1 cs'), (q2 cs'), (q3 cs').
        cbn [children set_children Quad_map q0 q1 q2 q3 x y width height].
        rewrite R0, R1, R2, R3, Hx, Hy, Hw, Hhh. repeat split.
      * cbn [children set_children Quad_map]. repeat split; assumption.
Qed.

Lemma cut_ok_halved (m : Z) (n : QuadtreeNode) :
  1 <= m -> cut_ok m n -> isLeaf n = false -> halved n.
Proof.
  intros Hm Hc Hl. destruct (Hc Hl) as (Hw & Hh & H2 & Hcut).
  destruct (H2 Hm) as [Hw2 Hh2].
  replace (Z.max 1 (width n / 2)) with (width n / 2) in Hcut
    by (Z.to_euclidean_division_equations; lia).
  replace (Z.max 1 (height n / 2)) with (height n / 2) in Hcut
    by (Z.to_euclidean_division_equations; lia).
  now apply cut_halved.
Qed.

Lemma cut_ok_tiled (m : Z) (n : QuadtreeNode) : cut_ok m n -> tiled n.
Proof.
  intros Hc Hl. destruct (Hc Hl) as (Hw & Hh & _ & Hcut).
  exists (Z.max 1 (width n / 2)), (Z.max 1 (height n / 2)).
  repeat split; try exact Hcut; Z.to_euclidean_division_equations; lia.
Qed.

(** C2.  Below a newly constructed node handed to the splitter, every node
    that the splitter has marked internal has exactly four children, the
    first of size [floor(width/2) x floor(height/2)] at [(x, y)], the other
    three covering the rest of the width and height from the same
    midpoint, every dimension at least one pixel; no pixel lies in two of
    them and together they cover exactly the pixels of the parent.  The
    minimum block size is at least one, as the interface requires, and so
    are the block sizes of a hybrid plan (see [prepare_plan_ok]). *)
Theorem split_partitions_parent (fuel : nat) (image : Mat) (depth x0 y0 w h : Z)
    (q : Quadtree) :
  1 <= minBlockSize q -> hybrid_ok q ->
  Forall (fun n => isLeaf n = false -> halved n)
         (subnodes (fst (quadtreeCompress fuel image depth (newNode x0 y0 w h) q))).
Proof.
  intros Hm Hh.
  eapply Forall_impl;
    [| apply quadtreeCompress_cut;
       [apply newNode_unsplit | | exact Hh | intros _; exact Hm] ].
  - intros n [_ Hc]. now apply (cut_ok_halved (minBlockSize q)).
  - repeat split; cbn; lia.
Qed.

End Tiling.

Example split_partitions_parent_witness :
  Forall (fun n => isLeaf n = false -> halved n)
         (subnodes (fst (quadtreeCompress (E := reference_externals) 12 stripes8x8 0
                           (newNode 0 0 8 8) (Quadtree_new stripes8x8 1 1 VARIANCE 0)))).
Proof.
  apply (split_partitions_parent (E := reference_externals) 12 stripes8x8 0 0 0 8 8
           (Quadtree_new stripes8x8 1 1 VARIANCE 0)).
  - cbn. lia.
  - intros H. discriminate H.
Defined.

(* ================================================================== *)
(** ** Reconstruction from the tree (C1) *)

Ltac b2p_in H :=
  rewrite ?andb_true_iff, ?andb_false_iff, ?orb_true_iff, ?orb_false_iff,
    ?negb_true_iff, ?negb_false_iff, ?Z.leb_le, ?Z.leb_gt, ?Z.ltb_lt, ?Z.ltb_ge,
    ?Z.eqb_eq, ?Z.eqb_neq in H.

Ltac b2p :=
  repeat match goal with
         | H : _ = true |- _ => progress b2p_in H
         | H : _ = false |- _ => progress b2p_in H
         end.

Section Reconstruction.
Context {E : Externals}.

Lemma in_Rectb_iff (r : Rect) (px py : Z) : in_Rectb r px py = true <-> in_Rect r px py.
Proof.
  unfold in_Rectb, in_Rect. rewrite !andb_true_iff, !Z.leb_le, !Z.ltb_lt. lia.
Qed.

(** Every pixel of a tiled tree lies in exactly one leaf, and a pixel
    outside the rectangle of the root lies in none. *)
Lemma tiled_cover (px py : Z) :
  forall n,
    Forall tiled (subnodes n) ->
    (in_rect n px py ->
     exists leaf, filter (fun m => in_Rectb (rect_of m) px py) (leaves n) = [leaf]) /\
    (~ in_rect n px py ->
     filter (fun m => in_Rectb (rect_of m) px py) (leaves n) = []).
Proof.
  induction n as [n IH] using QuadtreeNode_tree_ind. intros Ht.
  apply Forall_subnodes_node in Ht. destruct Ht as [Hn Hcs].
  destruct n as [x0 y0 w h col cs l]. cbn [leaves isLeaf children] in *.
  destruct l.
  - cbn [filter]. split; intros H.
    + apply in_Rectb_iff in H. rewrite H. eauto.
    + destruct (in_Rectb _ px py) eqn:Hb; [|reflexivity].
      apply in_Rectb_iff in Hb. contradiction.
  - destruct (Hn eq_refl) as (hw & hh & Hhw & Hhh & c0 & c1 & c2 & c3 & Hc & R0 & R1 & R2 & R3).
    cbn [children x y width height] in *. subst cs.
    destruct IH as (I0 & I1 & I2 & I3). destruct Hcs as (T0 & T1 & T2 & T3).
    cbn [q0 q1 q2 q3] in *.
    specialize (I0 T0). specialize (I1 T1). specialize (I2 T2). specialize (I3 T3).
    rewrite !filter_app.
    apply rect_of_inj in R0, R1, R2, R3.
    destruct R0 as (X0 & Y0 & W0 & H0), R1 as (X1 & Y1 & W1 & H1),
             R2 as (X2 & Y2 & W2 & H2), R3 as (X3 & Y3 & W3 & H3).
    destruct I0 as [A0 B0], I1 as [A1 B1], I2 as [A2 B2], I3 as [A3 B3].
    unfold in_rect, in_Rect in *. cbn [rect_of rx ry rw rh x y width height] in *.
    split; intros H.
    + destruct (Z_lt_ge_dec px (x0 + hw)), (Z_lt_ge_dec py (y0 + hh)).
      * destruct A0 as [leaf ->]; [lia|].
        rewrite B1, B2, B3 by lia. eexists; reflexivity.
      * destruct A2 as [leaf ->]; [lia|].
        rewrite B0, B1, B3 by lia. eexists; reflexivity.
      * destruct A1 as [leaf ->]; [lia|].
        rewrite B0, B2, B3 by lia. eexists; reflexivity.
      * destruct A3 as [leaf ->]; [lia|].
        rewrite B0, B1, B2 by lia. eexists; reflexivity.
    + rewrite B0, B1, B2, B3 by lia. reflexivity.
Qed.

Lemma reconstructHelper_paint :
  forall n image, reconstructHelper image n = fold_left paint (leaves n) image.
Proof.
  induction n as [n IH] using QuadtreeNode_tree_ind. intros image.
  destruct n as [x0 y0 w h col [o0 o1 o2 o3] l].
  cbn [reconstructHelper leaves isLeaf children q0 q1 q2 q3] in *.
  destruct l; [reflexivity|].
  destruct IH as (I0 & I1 & I2 & I3). cbn [q0 q1 q2 q3] in *.
  rewrite !fold_left_app.
  destruct o0, o1, o2, o3; cbn [fold_left];
    repeat match goal with H : forall _ : Mat, _ = _ |- _ => rewrite <- H; clear H end;
    reflexivity.
Qed.

Lemma paint_dims (image : Mat) (n : QuadtreeNode) :
  rows (paint image n) = rows image /\ cols (paint image n) = cols image.
Proof. unfold paint. destruct (leaf_region image n); split; reflexivity. Qed.

Lemma fold_paint_dims (ls : list QuadtreeNode) :
  forall image,
    rows (fold_left paint ls image) = rows image /\
    cols (fold_left paint ls image) = cols image.
Proof.
  induction ls as [|l ls IH]; intros image; [split; reflexivity|].
  cbn [fold_left]. destruct (IH (paint image l)) as [-> ->]. apply paint_dims.
Qed.

Lemma saturate_cast_uchar_id (v : Z) : valid_uchar v -> saturate_cast_uchar (inject_Z v) = v.
Proof.
  intros Hv. unfold saturate_cast_uchar, cvRound.
  rewrite Qfloor_Z.
  destruct (Qlt_le_dec _ _) as [_|H]; [unfold valid_uchar in Hv; lia|].
  exfalso. revert H. apply Qlt_not_le.
  assert (inject_Z v - inject_Z v == 0)%Q as -> by ring. reflexivity.
Qed.

(** One leaf painted: inside the buffer, the pixels of its rectangle take
    its colour and the others keep theirs. *)
Lemma paint_at (image : Mat) (n : QuadtreeNode) (px py : Z) :
  valid_pixel (avgColor n) ->
  0 <= px < cols image -> 0 <= py < rows image ->
  at_ (paint image n) py px =
  if in_Rectb (rect_of n) px py then avgColor n else at_ image py px.
Proof.
  intros (V0 & V1 & V2) Hx Hy. unfold paint, leaf_region.
  destruct (in_Rectb (rect_of n) px py) eqn:Hin;
    unfold in_Rectb, rect_of in Hin;
    repeat case_if; cbn [at_ rectangle_filled rx ry rw rh Scalar_of_Vec3b s0 s1 s2] in *;
    rewrite ?saturate_cast_uchar_id by assumption;
    repeat case_if; try reflexivity; try (destruct (avgColor n); reflexivity);
    exfalso; b2p; lia.
Qed.

Lemma fold_paint_at (px py : Z) (ls : list QuadtreeNode) :
  forall image,
    Forall (fun n => valid_pixel (avgColor n)) ls ->
    0 <= px < cols image -> 0 <= py < rows image ->
    at_ (fold_left paint ls image) py px =
    match rev (filter (fun m => in_Rectb (rect_of m) px py) ls) with
    | [] => at_ image py px
    | m :: _ => avgColor m
    end.
Proof.
  induction ls as [|l ls IH]; intros image Hv Hx Hy; [reflexivity|].
  inversion Hv as [|? ? Hl Hls]; subst.
  cbn [fold_left filter].
  destruct (paint_dims image l) as [Hr Hc].
  rewrite IH by (try assumption; lia).
  rewrite paint_at by assumption.
  destruct (in_Rectb (rect_of l) px py); [|reflexivity].
  cbn [rev]. destruct (rev (filter _ ls)); reflexivity.
Qed.

Lemma leaves_subnodes (P : QuadtreeNode -> Prop) :
  forall n, Forall P (subnodes n) -> Forall P (leaves n).
Proof.
  induction n as [n IH] using QuadtreeNode_tree_ind. intros H.
  apply Forall_subnodes_node in H. destruct H as [Hn Hcs].
  destruct n as [x0 y0 w h col [o0 o1 o2 o3] l].
  cbn [leaves isLeaf children q0 q1 q2 q3] in *.
  destruct l; [auto|].
  destruct IH as (I0 & I1 & I2 & I3), Hcs as (T0 & T1 & T2 & T3). cbn [q0 q1 q2 q3] in *.
  rewrite !Forall_app.
  destruct o0, o1, o2, o3; auto 10 using Forall_nil.
Qed.

(** Inside the buffer a pixel lies in the clamped rectangle of a node
    exactly when it lies in its rectangle. *)
Lemma in_clampedb_in_Rectb (image : Mat) (n : QuadtreeNode) (px py : Z) :
  0 <= px < cols image -> 0 <= py < rows image ->
  in_clampedb image n px py = in_Rectb (rect_of n) px py.
Proof.
  intros Hx Hy. unfold in_clampedb, in_Rectb, clamped_rect, rect_of.
  cbn [rx ry rw rh].
  apply eq_true_iff_eq. rewrite !andb_true_iff, !Z.leb_le, !Z.ltb_lt. lia.
Qed.


Lemma reset_state_fields (q : Quadtree) :
  sourceImage (reset_state q) = sourceImage q /\
  minBlockSize (reset_state q) = minBlockSize q /\
  threshold (reset_state q) = threshold q /\
  errorMethod (reset_state q) = errorMethod q /\
  targetCompressionPct (reset_state q) = targetCompressionPct q /\
  nodeCounter (reset_state q) = 0 /\ timeoutFlag (reset_state q) = false /\
  maxDepth (reset_state q) = 10 /\
  forceLowCompression (reset_state q) = false /\
  useHybridCompression (reset_state q) = false.
Proof. repeat split. Qed.

Lemma prepare_sourceImage (q : Quadtree) : sourceImage (prepare q) = sourceImage q.
Proof.
  unfold prepare, adjustThresholdForTargetCompression.
  repeat case_if; reflexivity.
Qed.

Lemma buildTree_frame (q : Quadtree) : frame q (buildTree q).
Proof.
  unfold buildTree. destruct (500000 <? _).
  - pose proof (run_children_rel (fun s => frame q s) (fun _ => True) (fun _ _ => True)
                  (quadtreeCompress (fuel_for q) (sourceImage q) 1) AsyncTasks) as Hrun.
    cbv zeta in Hrun.
    match goal with
    | |- context [run_children _ _ ?cs q] =>
        destruct (Hrun cs q) as (_ & _ & _ & _ & Hf); auto using frame_refl;
          [ intros c s _ Hs; split; [exact I|];
            eapply frame_trans; [exact Hs | apply quadtreeCompress_frame]
          | repeat split
          | destruct (run_children _ _ cs q) as [cs' q'] ]
    end.
    cbn [snd] in Hf. unfold frame in *. cbn. exact Hf.
  - pose proof (quadtreeCompress_frame (fuel_for q) (sourceImage q) 0
                  (newNode 0 0 (cols (sourceImage q)) (rows (sourceImage q))) q) as [_ Hf].
    destruct (quadtreeCompress _ _ _ _ _) as [r q']. cbn [snd] in Hf.
    unfold frame in *. cbn. exact Hf.
Qed.

(** The tree that [buildTree] leaves: its root has the rectangle of the
    buffer, its colours are 8-bit values, and the children of every
    internal node tile their parent. *)
Lemma buildTree_tiled (q : Quadtree) :
  0 <= rows (sourceImage q) -> 0 <= cols (sourceImage q) ->
  hybrid_ok q -> forceLow_ok q ->
  exists r,
    root (buildTree q) = Some r /\
    rect_of r = mkRect 0 0 (cols (sourceImage q)) (rows (sourceImage q)) /\
    Forall (fun n => valid_pixel (avgColor n) /\ tiled n) (subnodes r).
Proof.
  intros Hr Hc Hh Hf.
  assert (Hg : valid_pixel gray) by (repeat split; cbn; lia).
  assert (Himpl : forall c,
             Forall (fun n => valid_pixel (avgColor n) /\ cut_ok (minBlockSize q) n)
                    (subnodes c) ->
             Forall (fun n => valid_pixel (avgColor n) /\ tiled n) (subnodes c)).
  { intros c. apply Forall_impl. intros n [? ?]. split; [assumption|].
    now apply (cut_ok_tiled (minBlockSize q)). }
  unfold buildTree. destruct (500000 <? _) eqn:Hbig.
  - apply Z.ltb_lt in Hbig.
    assert (1 <= rows (sourceImage q) /\ 1 <= cols (sourceImage q)) as [Hr1 Hc1] by nia.
    set (hw := Z.max 1 (cdiv (cols (sourceImage q)) 2)).
    set (hh := Z.max 1 (cdiv (rows (sourceImage q)) 2)).
    assert (Hhw : 0 <= hw <= cols (sourceImage q)).
    { unfold hw, cdiv. rewrite Z.quot_div_nonneg by lia.
      Z.to_euclidean_division_equations; lia. }
    assert (Hhh : 0 <= hh <= rows (sourceImage q)).
    { unfold hh, cdiv. rewrite Z.quot_div_nonneg by lia.
      Z.to_euclidean_division_equations; lia. }
    pose proof (run_children_rel
                  (fun s => frame q s)
                  (fun c => unsplit c /\ valid_pixel (avgColor c))
                  (fun c c' => rect_of c' = rect_of c /\
                               Forall (fun n => valid_pixel (avgColor n) /\ tiled n)
                                      (subnodes c'))
                  (quadtreeCompress (fuel_for q) (sourceImage q) 1) AsyncTasks) as Hrun.
    cbv zeta in Hrun.
    match goal with
    | |- context [run_children _ _ ?cs q] =>
        destruct (Hrun cs q) as (P0 & P1 & P2 & P3 & _); auto using frame_refl;
          [ | | | destruct (run_children _ _ cs q) as [cs' q'] ]
    end.
    + intros c s [Hu Hv] Hs. split; [split|].
      * apply quadtreeCompress_frame.
      * destruct (frame_plan _ _ Hs Hh Hf) as [Hh' Hf'].
        apply Himpl.
        replace (minBlockSize q) with (minBlockSize s)
          by (unfold frame in Hs; decompose [and] Hs; assumption).
        now apply quadtreeCompress_cut.
      * eapply frame_trans; [exact Hs | apply quadtreeCompress_frame].
    + intros c [Hu Hv]. split; [reflexivity|].
      apply Forall_subnodes_unsplit; [exact Hu|]. split; [exact Hv|].
      intros Hl. destruct Hu. congruence.
    + repeat split; cbn; lia.
    + cbn [fst snd q0 q1 q2 q3] in *.
      destruct P0 as [R0 F0], P1 as [R1 F1], P2 as [R2 F2], P3 as [R3 F3].
      eexists. split; [reflexivity|]. split; [reflexivity|].
      apply Forall_subnodes_node. split.
      * split; [exact Hg|]. intros _. exists hw, hh.
        cbn [width height set_children set_isLeaf newNode].
        split; [exact Hhw|]. split; [exact Hhh|].
        exists (q0 cs'), (q1 cs'), (q2 cs'), (q3 cs').
        cbn [children set_children Quad_map q0 q1 q2 q3 x y width height set_isLeaf newNode].
        rewrite R0, R1, R2, R3. repeat split.
      * cbn [children set_children Quad_map]. repeat split; assumption.
  - pose proof (quadtreeCompress_cut (fuel_for q) (sourceImage q) 0
                  (newNode 0 0 (cols (sourceImage q)) (rows (sourceImage q))) q
                  (newNode_unsplit _ _ _ _) Hg Hh Hf) as Hcut.
    pose proof (quadtreeCompress_frame (fuel_for q) (sourceImage q) 0
                  (newNode 0 0 (cols (sourceImage q)) (rows (sourceImage q))) q) as [Hrect _].
    destruct (quadtreeCompress _ _ _ _ _) as [r q']. cbn [fst] in *.
    exists r. split; [reflexivity|]. split; [exact Hrect|]. now apply Himpl.
Qed.

(** C1, as the code has it.  When the minimum block size in force after
    compression is not 2, [reconstructImage] walks the tree: the buffer it
    produces has the dimensions of the source, every pixel of it lies in
    the clamped rectangle of exactly one leaf and has the colour of that
    leaf. *)
Theorem reconstruct_paints_leaves (q : Quadtree) :
  0 <= rows (sourceImage q) -> 0 <= cols (sourceImage q) ->
  minBlockSize (compressImage q) <> 2 ->
  rows (reconstructImage (compressImage q)) = rows (sourceImage q) /\
  cols (reconstructImage (compressImage q)) = cols (sourceImage q) /\
  exists r,
    root (compressImage q) = Some r /\
    forall px py,
      0 <= px < cols (sourceImage q) -> 0 <= py < rows (sourceImage q) ->
      exists leaf,
        filter (fun m => in_clampedb (sourceImage q) m px py) (leaves r) = [leaf] /\
        at_ (reconstructImage (compressImage q)) py px = avgColor leaf.
Proof.
  unfold compressImage. intros Hr Hc Hm.
  destruct (prepare_plan_ok q) as [Hh Hf].
  pose proof (prepare_sourceImage q) as Hsrc.
  pose proof (buildTree_frame (prepare q)) as Hfr.
  assert (Hsrc' : sourceImage (buildTree (prepare q)) = sourceImage q).
  { unfold frame in Hfr. decompose [and] Hfr. congruence. }
  destruct (buildTree_tiled (prepare q)) as (r & Hroot & Hrect & Hall);
    try assumption; try (rewrite Hsrc; assumption).
  rewrite Hsrc in Hrect.
  unfold reconstructImage.
  apply Z.eqb_neq in Hm. rewrite Hm, Hroot, Hsrc'. cbn [on_ptr].
  rewrite reconstructHelper_paint.
  destruct (fold_paint_dims (leaves r)
              (Mat_zeros (rows (sourceImage q)) (cols (sourceImage q)))) as [Hrows Hcols].
  split; [exact Hrows|]. split; [exact Hcols|].
  exists r. split; [reflexivity|]. intros px py Hx Hy.
  assert (Ht : Forall tiled (subnodes r))
    by (eapply Forall_impl; [|exact Hall]; intros ? [? ?]; assumption).
  assert (Hv : Forall (fun n => valid_pixel (avgColor n)) (leaves r)).
  { apply leaves_subnodes. eapply Forall_impl; [|exact Hall]. intros ? [? ?]; assumption. }
  destruct (tiled_cover px py r Ht) as [Hin _].
  destruct Hin as [leaf Hleaf].
  { unfold in_rect. rewrite Hrect. unfold in_Rect. cbn. lia. }
  exists leaf. split.
  - rewrite <- Hleaf. apply filter_ext. intros m.
    now apply in_clampedb_in_Rectb.
  - rewrite fold_paint_at by (try exact Hv; cbn; lia).
    rewrite Hleaf. reflexivity.
Qed.

End Reconstruction.

Example reconstruct_paints_leaves_witness :
  rows (reconstructImage (E := reference_externals)
          (compressImage (E := reference_externals) (Quadtree_new halves4x4 1 1 VARIANCE 0)))
  = rows (sourceImage (Quadtree_new halves4x4 1 1 VARIANCE 0)) /\
  cols (reconstructImage (E := reference_externals)
          (compressImage (E := reference_externals) (Quadtree_new halves4x4 1 1 VARIANCE 0)))
  = cols (sourceImage (Quadtree_new halves4x4 1 1 VARIANCE 0)) /\
  exists r,
    root (compressImage (E := reference_externals) (Quadtree_new halves4x4 1 1 VARIANCE 0))
    = Some r /\
    forall px py,
      0 <= px < cols (sourceImage (Quadtree_new halves4x4 1 1 VARIANCE 0)) ->
      0 <= py < rows (sourceImage (Quadtree_new halves4x4 1 1 VARIANCE 0)) ->
      exists leaf,
        filter (fun m => in_clampedb (sourceImage (Quadtree_new halves4x4 1 1 VARIANCE 0))
                           m px py) (leaves r) = [leaf] /\
        at_ (reconstructImage (E := reference_externals)
               (compressImage (E := reference_externals)
                  (Quadtree_new halves4x4 1 1 VARIANCE 0))) py px = avgColor leaf.
Proof.
  apply (reconstruct_paints_leaves (E := reference_externals)
           (Quadtree_new halves4x4 1 1 VARIANCE 0)).
  - cbn. lia.
  - cbn. lia.
  - vm_compute. discriminate.
Defined.

(** The claim of C1 fails for a minimum block size of 2, where
    [reconstructImage] does not read the tree.  The 4 x 4 image of a black
    and a white half, compressed with threshold 1: the tree has four leaves
    of two by two pixels, black, white, black, white, and the reconstructed
    buffer is the rounded mean of the whole image, 128, at every pixel. *)
Example grid_reconstruction_ignores_tree :
  let q := compressImage (E := reference_externals) (Quadtree_new halves4x4 1 2 VARIANCE 0) in
  let out := reconstructImage (E := reference_externals) q in
  option_map (fun r => map (fun m => (rect_of m, avgColor m)) (leaves r)) (root q)
  = Some [(mkRect 0 0 2 2, black); (mkRect 2 0 2 2, white);
          (mkRect 0 2 2 2, black); (mkRect 2 2 2 2, white)] /\
  map (fun p : Z * Z => at_ out (snd p) (fst p)) [(0, 0); (3, 0); (0, 3); (3, 3)]
  = [gray; gray; gray; gray].
Proof. vm_compute. split; reflexivity. Qed.

(* ================================================================== *)
(** ** Uniform images (C3) *)

Lemma for_loop_ext {A : Type} (f g : Z -> A -> A) :
  forall (n : nat) (i : Z) (acc : A),
    (forall k a, i <= k < i + Z.of_nat n -> f k a = g k a) ->
    for_loop n i f acc = for_loop n i g acc.
Proof.
  induction n as [|n IH]; intros i acc H; [reflexivity|].
  cbn [for_loop]. rewrite H by lia. apply IH. intros k a Hk. apply H. lia.
Qed.

Lemma for_range_ext {A : Type} (f g : Z -> A -> A) (lo hi : Z) (acc : A) :
  (forall k a, lo <= k < hi -> f k a = g k a) ->
  for_range lo hi f acc = for_range lo hi g acc.
Proof.
  intros H. unfold for_range. apply for_loop_ext. intros k a Hk. apply H. lia.
Qed.

Lemma for_loop_const {A : Type} (g : A -> A) :
  forall (n : nat) (i : Z) (acc : A), for_loop n i (fun _ => g) acc = Nat.iter n g acc.
Proof.
  induction n as [|n IH]; intros i acc; [reflexivity|].
  cbn [for_loop]. rewrite IH. symmetry. apply Nat.iter_succ_r.
Qed.

Lemma for_range_const {A : Type} (g : A -> A) (lo hi : Z) (acc : A) :
  for_range lo hi (fun _ => g) acc = Nat.iter (Z.to_nat (hi - lo)) g acc.
Proof. unfold for_range. apply for_loop_const. Qed.

Lemma iter_iter {A : Type} (g : A -> A) (m : nat) :
  forall (n : nat) (acc : A),
    Nat.iter n (fun a => Nat.iter m g a) acc = Nat.iter (n * m) g acc.
Proof.
  induction n as [|n IH]; intros acc; [reflexivity|].
  rewrite Nat.iter_succ, IH. change (S n * m)%nat with (m + n * m)%nat.
  symmetry. apply Nat.iter_add.
Qed.

(** A loop over a block whose body sees the same pixel everywhere. *)
Lemma for_index_const {A : Type} (body : Z -> Z -> A -> A) (g : A -> A)
    (nrows ncols : Z) (acc : A) :
  0 <= nrows -> 0 <= ncols ->
  (forall i j a, 0 <= i < nrows -> 0 <= j < ncols -> body i j a = g a) ->
  for_index nrows ncols body acc = Nat.iter (Z.to_nat (nrows * ncols)) g acc.
Proof.
  intros Hr Hc H. unfold for_index.
  rewrite (for_range_ext _ (fun _ a => Nat.iter (Z.to_nat ncols) g a)).
  - rewrite for_range_const, iter_iter. f_equal. rewrite Z.sub_0_r. lia.
  - intros i a Hi. rewrite (for_range_ext _ (fun _ => g)).
    + rewrite for_range_const. now rewrite Z.sub_0_r.
    + intros j b Hj. now apply H.
Qed.

Lemma for_pixels_uniform {A : Type} (block : Mat) (c : Vec3b) (body : Vec3b -> A -> A)
    (acc : A) :
  uniform block c -> 0 <= rows block -> 0 <= cols block ->
  for_pixels block body acc = Nat.iter (Z.to_nat (rows block * cols block)) (body c) acc.
Proof.
  intros Hu Hr Hc. unfold for_pixels. apply for_index_const; try assumption.
  intros i j a _ _. now rewrite Hu.
Qed.

Lemma iter_inv {A : Type} (P : nat -> A -> Prop) (g : A -> A) (acc : A) :
  P O acc -> (forall k a, P k a -> P (S k) (g a)) ->
  forall n, P n (Nat.iter n g acc).
Proof.
  intros H0 Hs. induction n as [|n IH]; [exact H0|].
  rewrite Nat.iter_succ. now apply Hs.
Qed.

Lemma inject_Z_plus_eq (a b : Z) : (inject_Z a + inject_Z b)%Q = inject_Z (a + b).
Proof. unfold Qplus, inject_Z. cbn. f_equal. lia. Qed.

Lemma dlt_zero (a t : Q) : (a == 0)%Q -> (0 < t)%Q -> dlt a t = true.
Proof. intros Ha Ht. apply dlt_true. now rewrite Ha. Qed.

Lemma static_cast_uchar_mean (k v : Z) :
  0 < k -> valid_uchar v ->
  static_cast_uchar (inject_Z (k * v) / inject_Z k) = v.
Proof.
  intros Hk Hv. unfold static_cast_uchar, static_cast_int, Qdiv, Qinv, Qmult, inject_Z.
  cbn [Qnum Qden]. destruct k as [|p|p]; try lia. cbn [Qnum Qden].
  rewrite Pos.mul_1_l, Z.mul_1_r, Z.mul_comm, Z.quot_mul by lia.
  unfold valid_uchar in Hv. apply Z.mod_small. lia.
Qed.

Lemma leaf_depth (n : QuadtreeNode) : isLeaf n = true -> getTreeDepthHelper n = 1.
Proof. destruct n as [x0 y0 w h col cs l]. cbn. now intros ->. Qed.

Lemma leaf_count (n : QuadtreeNode) : isLeaf n = true -> countLeafNodes n = 1.
Proof. destruct n as [x0 y0 w h col cs l]. cbn. now intros ->. Qed.

Section Uniform.
Context {E : Externals}.
Variable c : Vec3b.
Hypothesis c_valid : valid_pixel c.
Hypothesis log2_ok : log2_laws E.

Lemma roi_uniform (image : Mat) (r : Rect) : uniform image c -> uniform (roi image r) c.
Proof. intros H i j. apply H. Qed.

Lemma calculateAverageColor_uniform (n : QuadtreeNode) (image : Mat) :
  uniform image c ->
  0 <= x n < cols image -> 0 <= y n < rows image -> 1 <= width n -> 1 <= height n ->
  avgColor (calculateAverageColor n image) = c.
Proof.
  intros Hu Hx Hy Hw Hh. unfold calculateAverageColor.
  set (endX := Z.min (x n + width n) (cols image)).
  set (endY := Z.min (y n + height n) (rows image)).
  set (startX := Z.max 0 (x n)). set (startY := Z.max 0 (y n)).
  assert (HX : startX < endX) by (unfold startX, endX; lia).
  assert (HY : startY < endY) by (unfold startY, endY; lia).
  replace ((endX <=? startX) || (endY <=? startY) || (cols image <=? startX)
           || (rows image <=? startY)) with false
    by (symmetry; rewrite !orb_false_iff, !Z.leb_gt; unfold startX, startY; lia).
  set (step := fun acc : Q * Q * Q * Z =>
                 let '(a, b, d, k) := acc in
                 ((a + inject_Z (ch0 c))%Q, (b + inject_Z (ch1 c))%Q,
                  (d + inject_Z (ch2 c))%Q, k + 1)).
  rewrite (for_range_ext _ (fun _ acc => Nat.iter (Z.to_nat (endX - startX)) step acc)).
  2:{ intros py acc Hpy. rewrite (for_range_ext _ (fun _ => step)).
      - apply for_range_const.
      - intros px [[[a b] d] k] Hpx.
        replace ((px <? 0) || (cols image <=? px) || (py <? 0) || (rows image <=? py))
          with false
          by (symmetry; rewrite !orb_false_iff, !Z.ltb_ge, !Z.leb_gt;
              unfold startX, startY, endX, endY in *; lia).
        rewrite Hu. reflexivity. }
  rewrite for_range_const, iter_iter.
  set (N := (Z.to_nat (endY - startY) * Z.to_nat (endX - startX))%nat).
  assert (HN : (0 < N)%nat) by (unfold N; nia).
  pose proof (iter_inv
                (fun k acc => acc = (inject_Z (Z.of_nat k * ch0 c),
                                     inject_Z (Z.of_nat k * ch1 c),
                                     inject_Z (Z.of_nat k * ch2 c), Z.of_nat k))
                step (0%Q, 0%Q, 0%Q, 0)) as Hinv.
  rewrite (Hinv eq_refl); clear Hinv.
  - replace (0 <? Z.of_nat N) with true by (symmetry; apply Z.ltb_lt; lia).
    destruct c_valid as (V0 & V1 & V2).
    cbn [avgColor set_avgColor].
    rewrite !static_cast_uchar_mean by (assumption || lia).
    destruct c; reflexivity.
  - intros k acc ->. unfold step. rewrite !inject_Z_plus_eq, Nat2Z.inj_succ.
    unfold Z.succ.
    replace (Z.of_nat k * ch0 c + ch0 c) with ((Z.of_nat k + 1) * ch0 c) by ring.
    replace (Z.of_nat k * ch1 c + ch1 c) with ((Z.of_nat k + 1) * ch1 c) by ring.
    replace (Z.of_nat k * ch2 c + ch2 c) with ((Z.of_nat k + 1) * ch2 c) by ring.
    reflexivity.
Qed.


Section Block.
Variable block : Mat.
Hypothesis block_uniform : uniform block c.
Hypothesis block_rows : 1 <= rows block.
Hypothesis block_cols : 1 <= cols block.

Let N : nat := Z.to_nat (rows block * cols block).

Lemma block_size : 1 <= rows block * cols block /\ Z.of_nat N = rows block * cols block.
Proof. unfold N. nia. Qed.

Lemma block_not_empty : empty block = false.
Proof. unfold empty. apply orb_false_iff. rewrite !Z.leb_gt. lia. Qed.

Lemma pixel_sum_uniform :
  pixel_sum block = (Z.of_nat N * ch0 c, Z.of_nat N * ch1 c, Z.of_nat N * ch2 c).
Proof.
  unfold pixel_sum. rewrite (for_pixels_uniform block c) by (assumption || lia).
  fold N.
  apply (iter_inv (fun k acc => acc = (Z.of_nat k * ch0 c, Z.of_nat k * ch1 c,
                                       Z.of_nat k * ch2 c))).
  - reflexivity.
  - intros k acc ->. rewrite Nat2Z.inj_succ. unfold Z.succ.
    f_equal; [f_equal|]; ring.
Qed.

Lemma mean_uniform :
  (s0 (mean block) == inject_Z (ch0 c))%Q /\ (s1 (mean block) == inject_Z (ch1 c))%Q /\
  (s2 (mean block) == inject_Z (ch2 c))%Q.
Proof.
  destruct block_size as [Hn HN].
  unfold mean. rewrite pixel_sum_uniform. cbn [s0 s1 s2]. rewrite <- HN.
  assert (Hnz : ~ (inject_Z (Z.of_nat N) == 0)%Q).
  { unfold Qeq, inject_Z. cbn. lia. }
  repeat split; rewrite inject_Z_mult; field; exact Hnz.
Qed.

Lemma calculateVariance_uniform : (calculateVariance block == 0)%Q.
Proof.
  destruct mean_uniform as (M0 & M1 & M2).
  unfold calculateVariance. rewrite block_not_empty. cbn [orb].
  destruct (_ <=? 1); [reflexivity|].
  rewrite (for_pixels_uniform block c) by (assumption || lia).
  pose proof (iter_inv
                (fun (k : nat) (acc : Q * Q * Q * Z) =>
                   let '(a, b, d, n) := acc in (a == 0 /\ b == 0 /\ d == 0)%Q)
                (fun '(a, b, d, n) =>
                   ((a + sq (inject_Z (ch0 c) - s0 (mean block)))%Q,
                    (b + sq (inject_Z (ch1 c) - s1 (mean block)))%Q,
                    (d + sq (inject_Z (ch2 c) - s2 (mean block)))%Q, n + 1))
                (0%Q, 0%Q, 0%Q, 0)) as Hinv.
  specialize (Hinv ltac:(cbn; repeat split; reflexivity)).
  match type of Hinv with
  | ?H -> _ => assert (Hs : H); [| specialize (Hinv Hs (Z.to_nat (rows block * cols block)))]
  end.
  { intros k [[[a b] d] n] (Ha & Hb & Hd). unfold sq.
    rewrite Ha, Hb, Hd, M0, M1, M2. repeat split; ring. }
  destruct (Nat.iter _ _ _) as [[[a b] d] n]. destruct Hinv as (Ha & Hb & Hd).
  destruct (n <=? 1); [reflexivity|].
  rewrite Ha, Hb, Hd. unfold Qdiv. ring.
Qed.

Lemma calculateMAD_uniform : (calculateMAD block == 0)%Q.
Proof.
  destruct mean_uniform as (M0 & M1 & M2).
  unfold calculateMAD. rewrite block_not_empty.
  rewrite (for_pixels_uniform block c) by (assumption || lia).
  pose proof (iter_inv
                (fun (k : nat) (acc : Q * Q * Q * Z) =>
                   let '(a, b, d, n) := acc in (a == 0 /\ b == 0 /\ d == 0)%Q)
                (fun '(a, b, d, n) =>
                   ((a + Qabs (inject_Z (ch0 c) - s0 (mean block)))%Q,
                    (b + Qabs (inject_Z (ch1 c) - s1 (mean block)))%Q,
                    (d + Qabs (inject_Z (ch2 c) - s2 (mean block)))%Q, n + 1))
                (0%Q, 0%Q, 0%Q, 0)) as Hinv.
  specialize (Hinv ltac:(cbn; repeat split; reflexivity)).
  match type of Hinv with
  | ?H -> _ => assert (Hs : H); [| specialize (Hinv Hs (Z.to_nat (rows block * cols block)))]
  end.
  { intros k [[[a b] d] n] (Ha & Hb & Hd).
    assert (Hz : forall u v : Q, (u == v)%Q -> (Qabs (v - u) == 0)%Q).
    { intros u v Huv. rewrite Huv. setoid_replace (v - v)%Q with 0%Q by ring. reflexivity. }
    rewrite Ha, Hb, Hd, (Hz _ _ M0), (Hz _ _ M1), (Hz _ _ M2). repeat split; ring. }
  destruct (Nat.iter _ _ _) as [[[a b] d] n]. destruct Hinv as (Ha & Hb & Hd).
  destruct (n =? 0); [reflexivity|].
  rewrite Ha, Hb, Hd. unfold Qdiv. ring.
Qed.

Lemma absdiff3_same : absdiff3 c c = 0.
Proof. unfold absdiff3. lia. Qed.

Lemma calculateMaxPixelDiff_uniform : (calculateMaxPixelDiff block == 0)%Q.
Proof.
  destruct block_size as [Hn HN]. destruct c_valid as (V0 & V1 & V2).
  unfold valid_uchar in *.
  unfold calculateMaxPixelDiff. rewrite block_not_empty.
  destruct (_ <=? 4) eqn:H4.
  - destruct (_ =? 1); [reflexivity|].
    rewrite (for_pixels_uniform block c) by (assumption || lia).
    rewrite block_uniform, absdiff3_same.
    apply (iter_inv (fun _ a => (a == 0)%Q)); [reflexivity|].
    intros k a Ha. unfold dmax. destruct (Qlt_le_dec _ _); [reflexivity | exact Ha].
  - apply Z.leb_gt in H4.
    rewrite (for_pixels_uniform block c) by (assumption || lia).
    pose proof (iter_inv
                  (fun (k : nat) (acc : Vec3b * Vec3b) =>
                     match k with
                     | O => acc = (mkVec3b 255 255 255, mkVec3b 0 0 0)
                     | S _ => acc = (c, c)
                     end)
                  (fun '(mn, mx) => (Vec3b_min mn c, Vec3b_max mx c))
                  (mkVec3b 255 255 255, mkVec3b 0 0 0) eq_refl) as Hinv.
    match type of Hinv with
    | ?H -> _ => assert (Hs : H); [| specialize (Hinv Hs (Z.to_nat (rows block * cols block)))]
    end.
    { intros k [mn mx] IH. destruct k as [|k].
      - injection IH as -> ->. unfold Vec3b_min, Vec3b_max. cbn.
        rewrite !Z.min_r, !Z.max_r by lia. destruct c; reflexivity.
      - injection IH as -> ->. unfold Vec3b_min, Vec3b_max.
        rewrite !Z.min_id, !Z.max_id. destruct c; reflexivity. }
    destruct (Nat.iter _ _ _) as [mn mx].
    destruct (Z.to_nat (rows block * cols block)) eqn:HNz; [lia|].
    injection Hinv as -> ->.
    replace (ch0 c - ch0 c + (ch1 c - ch1 c) + (ch2 c - ch2 c)) with 0 by lia.
    reflexivity.
Qed.


Lemma dmin_zero (a b : Q) : (a == 0)%Q -> (0 <= b)%Q -> (dmin a b == 0)%Q.
Proof.
  intros Ha Hb. unfold dmin. destruct (Qlt_le_dec b a) as [H|H]; [|exact Ha].
  rewrite Ha in H. exfalso. apply (Qlt_not_le _ _ H Hb).
Qed.

Lemma hist_uniform (k : nat) :
  let r := Nat.iter k
             (fun '(h, n) =>
                (hist_incr (hist_incr (hist_incr h (ch0 c)) (256 + ch1 c)) (512 + ch2 c),
                 n + 1))
             (fun _ : Z => 0, 0) in
  snd r = Z.of_nat k /\
  forall i, fst r i = if (i =? ch0 c) || (i =? 256 + ch1 c) || (i =? 512 + ch2 c)
                      then Z.of_nat k else 0.
Proof.
  destruct c_valid as (V0 & V1 & V2). unfold valid_uchar in *.
  induction k as [|k IH]; cbv zeta in *.
  - split; [reflexivity|]. intros i. cbn. now destruct (_ || _ || _).
  - rewrite Nat.iter_succ. destruct (Nat.iter k _ _) as [h n].
    destruct IH as [Hk Hh]. cbn [fst snd] in *. split; [lia|].
    intros i. unfold hist_incr. rewrite Hh.
    destruct (i =? ch0 c) eqn:E0, (i =? 256 + ch1 c) eqn:E1, (i =? 512 + ch2 c) eqn:E2;
      cbn [orb]; b2p; lia.
Qed.

Lemma calculateEntropy_uniform : (calculateEntropy block == 0)%Q.
Proof.
  destruct block_size as [Hn HN].
  unfold calculateEntropy. rewrite block_not_empty. cbn [orb].
  destruct (_ <? 16).
  { rewrite calculateMaxPixelDiff_uniform. reflexivity. }
  rewrite (for_pixels_uniform block c) by (assumption || lia).
  pose proof (hist_uniform (Z.to_nat (rows block * cols block))) as Hh. cbv zeta in Hh.
  destruct (Nat.iter _ _ _) as [hist sampleCount]. destruct Hh as [Hcount Hhist].
  cbn [fst snd] in *. fold N in Hcount. 
  replace (sampleCount =? 0) with false by (symmetry; apply Z.eqb_neq; lia).
  pose proof (for_range_preserves
                (fun acc : Q * Z => (fst acc == 0)%Q)
                (fun i '(e, cnt) =>
                   if 0 <? hist i
                   then ((e - inject_Z (hist i) / inject_Z sampleCount
                              * log2 (inject_Z (hist i) / inject_Z sampleCount))%Q, cnt + 1)
                   else (e, cnt))
                0 768 (0%Q, 0)) as Hbins.
  cbn [fst] in Hbins. specialize (Hbins ltac:(reflexivity)).
  match type of Hbins with
  | ?H -> _ => assert (Hs : H); [| specialize (Hbins Hs)]
  end.
  { intros i [e cnt] _ He. cbn [fst] in *.
    destruct (0 <? hist i) eqn:Hpos; [|exact He]. cbn [fst].
    apply Z.ltb_lt in Hpos. rewrite Hhist in Hpos.
    assert (Hi : hist i = sampleCount).
    { rewrite Hhist. destruct (_ || _ || _); lia. }
    rewrite Hi.
    assert (Hone : (inject_Z sampleCount / inject_Z sampleCount == 1)%Q).
    { field. unfold Qeq, inject_Z. cbn. lia. }
    rewrite (log2_proper E log2_ok _ _ Hone), (log2_one E log2_ok), He. ring. }
  destruct (for_range 0 768 _ _) as [entropy cnt]. cbn [fst] in Hbins.
  apply dmin_zero; [|discriminate].
  destruct (0 <? cnt); [rewrite Hbins; reflexivity | exact Hbins].
Qed.

Section Reference.
Variable avgBlock : Mat.
Hypothesis avg_uniform : uniform avgBlock c.

Lemma ssimValue_uniform (ch : Vec3b -> Z) : (ssimValue block avgBlock ch == 0)%Q.
Proof.
  destruct block_size as [Hn HN].
  unfold ssimValue.
  rewrite (for_index_const _
             (fun '(m1, m2, n) =>
                ((m1 + inject_Z (ch c))%Q, (m2 + inject_Z (ch c))%Q, n + 1)))
    by (try lia; intros i j [[m1 m2] n] _ _; now rewrite block_uniform, avg_uniform).
  pose proof (iter_inv
                (fun (k : nat) (acc : Q * Q * Z) =>
                   acc = (inject_Z (Z.of_nat k * ch c), inject_Z (Z.of_nat k * ch c),
                          Z.of_nat k))
                (fun '(m1, m2, n) =>
                   ((m1 + inject_Z (ch c))%Q, (m2 + inject_Z (ch c))%Q, n + 1))
                (0%Q, 0%Q, 0) eq_refl) as Hsum.
  rewrite Hsum; clear Hsum.
  2:{ intros k acc ->. rewrite !inject_Z_plus_eq, Nat2Z.inj_succ. unfold Z.succ.
      replace (Z.of_nat k * ch c + ch c) with ((Z.of_nat k + 1) * ch c) by ring.
      reflexivity. }
  fold N. replace (Z.of_nat N =? 0) with false by (symmetry; apply Z.eqb_neq; lia).
  assert (Hmu : (inject_Z (Z.of_nat N * ch c) / inject_Z (Z.of_nat N) == inject_Z (ch c))%Q).
  { rewrite inject_Z_mult. field. unfold Qeq, inject_Z. cbn. lia. }
  set (mu := (inject_Z (Z.of_nat N * ch c) / inject_Z (Z.of_nat N))%Q) in *.
  rewrite (for_index_const _
             (fun '(a, b, d) =>
                ((a + (inject_Z (ch c) - mu) * (inject_Z (ch c) - mu))%Q,
                 (b + (inject_Z (ch c) - mu) * (inject_Z (ch c) - mu))%Q,
                 (d + (inject_Z (ch c) - mu) * (inject_Z (ch c) - mu))%Q)))
    by (try lia; intros i j [[a b] d] _ _; now rewrite block_uniform, avg_uniform).
  pose proof (iter_inv
                (fun (k : nat) (acc : Q * Q * Q) =>
                   let '(a, b, d) := acc in (a == 0 /\ b == 0 /\ d == 0)%Q)
                (fun '(a, b, d) =>
                   ((a + (inject_Z (ch c) - mu) * (inject_Z (ch c) - mu))%Q,
                    (b + (inject_Z (ch c) - mu) * (inject_Z (ch c) - mu))%Q,
                    (d + (inject_Z (ch c) - mu) * (inject_Z (ch c) - mu))%Q))
                (0%Q, 0%Q, 0%Q)) as Hsig.
  specialize (Hsig ltac:(cbn; repeat split; reflexivity)).
  match type of Hsig with
  | ?H -> _ => assert (Hs : H); [| specialize (Hsig Hs (Z.to_nat (rows block * cols block)))]
  end.
  { intros k [[a b] d] (Ha & Hb & Hd). rewrite Ha, Hb, Hd, Hmu. repeat split; ring. }
  destruct (Nat.iter _ _ _) as [[s1sq s2sq] s12]. destruct Hsig as (H1 & H2 & H12).
  set (v := inject_Z (ch c)) in *.
  assert (Hden : ((mu * mu + mu * mu + SSIM_C1)
                  * (s1sq / inject_Z (Z.of_nat N - 1) + s2sq / inject_Z (Z.of_nat N - 1)
                     + SSIM_C2) == (2 * (v * v) + SSIM_C1) * SSIM_C2)%Q).
  { rewrite H1, H2, Hmu. unfold Qdiv. ring. }
  assert (Hnum : ((2 * mu * mu + SSIM_C1)
                  * (2 * (s12 / inject_Z (Z.of_nat N - 1)) + SSIM_C2)
                  == (2 * (v * v) + SSIM_C1) * SSIM_C2)%Q).
  { rewrite H12, Hmu. unfold Qdiv. ring. }
  assert (Hpos : (1 < (2 * (v * v) + SSIM_C1) * SSIM_C2)%Q).
  { assert (0 <= v * v)%Q by (apply Qsqr_nonneg || nra).
    unfold SSIM_C1, SSIM_C2, sq. nra. }
  replace (dlt 0.001 _) with true
    by (symmetry; apply dlt_true; rewrite Hden; lra).
  match goal with
  | |- (dmax 0 (dmin 1 ?X) == 0)%Q =>
      assert (Hz : (X == 0)%Q)
        by (rewrite Hnum, Hden;
            generalize dependent ((2 * (v * v) + SSIM_C1) * SSIM_C2)%Q;
            intros D _ _ HD; field; lra);
        generalize dependent X
  end.
  intros X0 Hz. unfold dmax, dmin.
  destruct (Qlt_le_dec X0 1) as [_|Hc]; [|exfalso; rewrite Hz in Hc; lra].
  destruct (Qlt_le_dec 0 X0); [exact Hz | reflexivity].
Qed.

Lemma calculateSSIM_uniform : (calculateSSIM block avgBlock == 0)%Q.
Proof.
  unfold calculateSSIM. destruct (_ || _); [reflexivity|].
  destruct (_ || _).
  - rewrite calculateVariance_uniform. reflexivity.
  - rewrite !ssimValue_uniform. ring.
Qed.

End Reference.

Lemma calculateError_uniform (q : Quadtree) (avgBlock : Mat) :
  (errorMethod q = SSIM -> empty avgBlock = false /\ uniform avgBlock c) ->
  (calculateError q block avgBlock == 0)%Q.
Proof.
  intros Havg. unfold calculateError.
  destruct (_ || _); [reflexivity|].
  assert (Hm : (calculateMaxPixelDiff block * 0.5 == 0)%Q)
    by (rewrite calculateMaxPixelDiff_uniform; reflexivity).
  destruct (errorMethod q) eqn:Hmeth;
    try (destruct (Havg eq_refl) as [-> Hu]);
    destruct (_ && _);
    auto using calculateVariance_uniform, calculateMAD_uniform,
      calculateMaxPixelDiff_uniform, calculateEntropy_uniform, calculateSSIM_uniform.
Qed.

End Block.

Lemma Mat_fill_uniform (nrows ncols : Z) : uniform (Mat_fill nrows ncols (Scalar_of_Vec3b c)) c.
Proof.
  destruct c_valid as (V0 & V1 & V2). intros i j.
  unfold Mat_fill, Scalar_of_Vec3b. cbn [at_ s0 s1 s2].
  rewrite !saturate_cast_uchar_id by assumption. destruct c; reflexivity.
Qed.

(** On a uniform image, a node with a pixel inside the buffer is returned
    as a leaf of the colour of the image, and the aggregate is unchanged. *)
Lemma visit_uniform (q : Quadtree) (image : Mat) (node : QuadtreeNode) (depth : Z) :
  uniform image c ->
  0 <= x node < cols image -> 0 <= y node < rows image ->
  1 <= width node -> 1 <= height node ->
  aborted q = false ->
  useHybridCompression q = false -> forceLowCompression q = false ->
  (0 < threshold q)%Q ->
  exists n',
    visit q image node depth = Return n' q /\
    isLeaf n' = true /\ children n' = children node /\ avgColor n' = c.
Proof.
  intros Hu Hx Hy Hw Hh Hab Hhy Hfl HT.
  pose proof (calculateAverageColor_uniform node image Hu Hx Hy Hw Hh) as Hcol.
  destruct (calculateAverageColor_fields node image) as (Fx & Fy & Fw & Fh & Fc & Fl).
  assert (Hleaf : exists n', Return (leaf_with_color node image) q = Return n' q /\
                             isLeaf n' = true /\ children n' = children node /\
                             avgColor n' = c).
  { eexists. split; [reflexivity|]. unfold leaf_with_color. cbn. auto. }
  assert (Hleaf' : exists n',
             Return (set_isLeaf (calculateAverageColor node image) true) q = Return n' q /\
             isLeaf n' = true /\ children n' = children node /\ avgColor n' = c)
    by exact Hleaf.
  set (block := roi image (clamped_rect node image)).
  assert (Hbu : uniform block c) by (apply roi_uniform; exact Hu).
  assert (Hbr : 1 <= rows block) by (unfold block, roi, clamped_rect; cbn; lia).
  assert (Hbc : 1 <= cols block) by (unfold block, roi, clamped_rect; cbn; lia).
  assert (Herr : forall avg,
             (errorMethod q = SSIM -> empty avg = false /\ uniform avg c) ->
             (calculateError q block avg == 0)%Q)
    by (intros avg; now apply calculateError_uniform).
  assert (Hssim : empty (Mat_fill (rows block) (cols block) (Scalar_of_Vec3b c)) = false /\
                  uniform (Mat_fill (rows block) (cols block) (Scalar_of_Vec3b c)) c).
  { split; [|apply Mat_fill_uniform]. unfold empty, Mat_fill. cbn [rows cols].
    apply orb_false_iff. rewrite !Z.leb_gt. lia. }
  assert (Hmpd : (calculateMaxPixelDiff block * 0.5 == 0)%Q)
    by (rewrite calculateMaxPixelDiff_uniform by assumption; reflexivity).
  assert (HT15 : (0 < threshold q * 1.5)%Q) by lra.
  unfold visit. unfold aborted in Hab. rewrite Hab, Hhy, Hfl. cbn [orb andb].
  rewrite ?Hhy, ?Hfl. cbn [orb andb].
  fold block. rewrite Hcol.
  repeat case_if; try assumption; exfalso; b2p;
    cbn [clamped_rect rx ry rw rh] in *; try lia.
  all: repeat match goal with
              | H : context [if ?b then _ else _] |- _ => destruct b
              end.
  all: match goal with
       | H : dlt ?e ?t = false |- _ =>
           assert (He : (e == 0)%Q);
           [ try exact Hmpd; destruct (errorMethod q) eqn:Hmeth; apply Herr;
             intros; (discriminate || assumption)
           | apply dlt_false in H; rewrite He in H; lra ]
       end.
Qed.


Lemma reset_state_not_aborted (q : Quadtree) : aborted (reset_state q) = false.
Proof. reflexivity. Qed.

Lemma prepare_no_target (q : Quadtree) :
  (targetCompressionPct q <= 0)%Q -> prepare q = reset_state q.
Proof.
  intros H. unfold prepare.
  replace (dlt 0 (targetCompressionPct (reset_state q))) with false; [reflexivity|].
  symmetry. apply dlt_false. exact H.
Qed.

Lemma quadtreeCompress_uniform (fuel : nat) (q : Quadtree) (image : Mat)
    (node : QuadtreeNode) (depth : Z) :
  uniform image c ->
  0 <= x node < cols image -> 0 <= y node < rows image ->
  1 <= width node -> 1 <= height node ->
  aborted q = false ->
  useHybridCompression q = false -> forceLowCompression q = false ->
  (0 < threshold q)%Q ->
  exists n',
    quadtreeCompress (S fuel) image depth node q = (n', q) /\
    isLeaf n' = true /\ children n' = children node /\ avgColor n' = c.
Proof.
  intros Hu Hx Hy Hw Hh Hab Hhy Hfl HT.
  destruct (visit_uniform q image node depth Hu Hx Hy Hw Hh Hab Hhy Hfl HT)
    as (n' & Hv & Hn).
  exists n'. cbn [quadtreeCompress]. rewrite Hv. auto.
Qed.

(** A uniform image of more than 500000 pixels: [compressImage] splits the
    root before any error is measured, and each quadrant is a leaf. *)
Lemma uniform_large (q : Quadtree) :
  uniform (sourceImage q) c ->
  2 <= rows (sourceImage q) -> 2 <= cols (sourceImage q) ->
  500000 < rows (sourceImage q) * cols (sourceImage q) ->
  (targetCompressionPct q <= 0)%Q -> (0 < threshold q)%Q ->
  exists r c0 c1 c2 c3,
    root (compressImage q) = Some r /\ isLeaf r = false /\
    children r = quad (Some c0) (Some c1) (Some c2) (Some c3) /\
    Forall (fun n => isLeaf n = true /\ no_children n /\ avgColor n = c) [c0; c1; c2; c3] /\
    getTreeDepth (compressImage q) = 2 /\
    countLeafNodes_ptr (root (compressImage q)) = 4.
Proof.
  intros Hu Hr Hc Hbig Htgt HT.
  unfold compressImage. rewrite (prepare_no_target q Htgt).
  unfold buildTree.
  destruct (reset_state_fields q) as (Hsrc & _ & Hthr & _ & _ & _ & _ & _ & Hfl & Hhy).
  rewrite Hsrc.
  replace (500000 <? _) with true by (symmetry; apply Z.ltb_lt; exact Hbig).
  set (hw := Z.max 1 (cdiv (cols (sourceImage q)) 2)).
  set (hh := Z.max 1 (cdiv (rows (sourceImage q)) 2)).
  assert (Hhw : 1 <= hw < cols (sourceImage q)).
  { unfold hw, cdiv. rewrite Z.quot_div_nonneg by lia.
    Z.to_euclidean_division_equations; lia. }
  assert (Hhh : 1 <= hh < rows (sourceImage q)).
  { unfold hh, cdiv. rewrite Z.quot_div_nonneg by lia.
    Z.to_euclidean_division_equations; lia. }
  assert (Hcall : forall x0 y0 w h,
             0 <= x0 < cols (sourceImage q) -> 0 <= y0 < rows (sourceImage q) ->
             1 <= w -> 1 <= h ->
             exists n',
               quadtreeCompress (fuel_for (reset_state q)) (sourceImage q) 1
                 (newNode x0 y0 w h) (reset_state q) = (n', reset_state q) /\
               isLeaf n' = true /\ no_children n' /\ avgColor n' = c).
  { intros x0 y0 w h Hx0 Hy0 Hw0 Hh0. unfold fuel_for.
    apply quadtreeCompress_uniform; try assumption; reflexivity. }
  unfold run_children. cbn [q0 q1 q2 q3 breaks_after].
  destruct (Hcall 0 0 hw hh) as (n0 & -> & L0 & C0 & A0); try lia.
  destruct (Hcall hw 0 (cols (sourceImage q) - hw) hh) as (n1 & -> & L1 & C1 & A1); try lia.
  destruct (Hcall 0 hh hw (rows (sourceImage q) - hh)) as (n2 & -> & L2 & C2 & A2); try lia.
  destruct (Hcall hw hh (cols (sourceImage q) - hw) (rows (sourceImage q) - hh))
    as (n3 & -> & L3 & C3 & A3); try lia.
  exists (set_children (set_isLeaf (newNode 0 0 (cols (sourceImage q)) (rows (sourceImage q)))
                          false) (Quad_map Some (quad n0 n1 n2 n3))), n0, n1, n2, n3.
  split; [reflexivity|]. split; [reflexivity|]. split; [reflexivity|].
  split; [repeat constructor; assumption|].
  unfold getTreeDepth, countLeafNodes_ptr.
  cbn [root set_root on_ptr getTreeDepthHelper countLeafNodes isLeaf children set_children
       set_isLeaf newNode Quad_map q0 q1 q2 q3].
  rewrite !leaf_depth, !leaf_count by assumption. split; reflexivity.
Qed.


End Uniform.

Lemma reference_log2_laws : log2_laws reference_externals.
Proof.
  split; cbn [log2 reference_externals]; unfold log2_ref.
  - intros a b Hab. now rewrite Hab.
  - reflexivity.
  - intros p Hp Hp1.
    assert (Hf : 0 <= Qfloor p <= 1).
    { split.
      - change 0 with (Qfloor 0). apply Qfloor_resp_le. now apply Qlt_le_weak.
      - change 1 with (Qfloor 1). now apply Qfloor_resp_le. }
    assert (Hl : Z.log2 (Qfloor p) = 0).
    { destruct (Z.eq_dec (Qfloor p) 0) as [->| ]; [reflexivity|].
      replace (Qfloor p) with 1 by lia. reflexivity. }
    rewrite Hl. pose proof (Z.log2_nonneg (Qfloor (/ p))) as Hn.
    unfold Qle, Qminus, Qplus, Qopp, inject_Z. cbn. lia.
Qed.



(* ================================================================== *)
(** ** Monotonicity in the threshold (C5) *)

Section Monotone.
Context {E : Externals}.

Lemma visit_counter (q : Quadtree) (image : Mat) (node : QuadtreeNode) (depth : Z) :
  match visit q image node depth with
  | Return _ q' => nodeCounter q' = nodeCounter q
  | Recurse _ _ _ q' => nodeCounter q' = nodeCounter q + 4 /\ aborted q = false
  end.
Proof.
  unfold visit, aborted.
  destruct (timeoutFlag q || (MAX_NODES <? nodeCounter q)); [reflexivity|].
  repeat case_if; cbn; auto.
Qed.

(** Leaves and counter over the loop: the four children together. *)
Lemma run_children_count (rec : SubCall) (loop : ChildLoop) (cs : Quad QuadtreeNode)
    (q : Quadtree) :
  (forall c s, unsplit c ->
     4 * (countLeafNodes (fst (rec c s)) - 1) = 3 * (nodeCounter (snd (rec c s)) - nodeCounter s)) ->
  Quad_all unsplit cs ->
  let r := run_children rec loop cs q in
  4 * (countLeafNodes (q0 (fst r)) + countLeafNodes (q1 (fst r))
       + countLeafNodes (q2 (fst r)) + countLeafNodes (q3 (fst r)) - 4)
  = 3 * (nodeCounter (snd r) - nodeCounter q).
Proof.
  intros IH (U0 & U1 & U2 & U3). unfold run_children.
  pose proof (IH (q0 cs) q U0) as H0.
  destruct (rec (q0 cs) q) as [c0 s0]. cbn [fst snd] in H0.
  destruct (breaks_after loop 0 s0).
  { cbn [fst snd q0 q1 q2 q3]. rewrite !(leaf_count (q1 cs)), !(leaf_count (q2 cs)),
      !(leaf_count (q3 cs)) by (apply U1 || apply U2 || apply U3). lia. }
  pose proof (IH (q1 cs) s0 U1) as H1.
  destruct (rec (q1 cs) s0) as [c1 s1]. cbn [fst snd] in H1.
  destruct (breaks_after loop 1 s1).
  { cbn [fst snd q0 q1 q2 q3]. rewrite !(leaf_count (q2 cs)),
      !(leaf_count (q3 cs)) by (apply U2 || apply U3). lia. }
  pose proof (IH (q2 cs) s1 U2) as H2.
  destruct (rec (q2 cs) s1) as [c2 s2]. cbn [fst snd] in H2.
  destruct (breaks_after loop 2 s2).
  { cbn [fst snd q0 q1 q2 q3]. rewrite !(leaf_count (q3 cs)) by apply U3. lia. }
  pose proof (IH (q3 cs) s2 U3) as H3.
  destruct (rec (q3 cs) s2) as [c3 s3].
  cbn [fst snd q0 q1 q2 q3] in *. lia.
Qed.

(** Leaves and counter: every split adds three leaves and four to the
    counter. *)
Lemma quadtreeCompress_count (fuel : nat) (image : Mat) :
  forall (depth : Z) (node : QuadtreeNode) (q : Quadtree),
    unsplit node ->
    4 * (countLeafNodes (fst (quadtreeCompress fuel image depth node q)) - 1)
    = 3 * (nodeCounter (snd (quadtreeCompress fuel image depth node q)) - nodeCounter q).
Proof.
  induction fuel as [|fuel IH]; intros depth node q Hn.
  - cbn [quadtreeCompress fst snd]. rewrite leaf_count by apply Hn. lia.
  - cbn [quadtreeCompress].
    pose proof (visit_shape q image node depth Hn) as Hs.
    pose proof (visit_counter q image node depth) as Hc.
    destruct (visit q image node depth) as [n' q'|n' cs loop q'].
    + cbn [fst snd]. rewrite leaf_count by apply Hs. lia.
    + destruct Hs as [Hl U]. destruct Hc as [Hc _].
      pose proof (run_children_count (quadtreeCompress fuel image (depth + 1)) loop cs q'
                    (IH (depth + 1)) U) as Hrun.
      cbv zeta in Hrun.
      destruct (run_children _ loop cs q') as [cs' q'']. cbn [fst snd] in *.
      destruct n' as [x0 y0 w h col ch l]. cbn [isLeaf] in Hl. subst l.
      cbn [countLeafNodes set_children isLeaf children Quad_map q0 q1 q2 q3]. lia.
Qed.


Lemma calculateError_indep (q q' : Quadtree) (block avgBlock : Mat) :
  errorMethod q' = errorMethod q -> minBlockSize q' = minBlockSize q ->
  calculateError q' block avgBlock = calculateError q block avgBlock.
Proof. intros He Hm. unfold calculateError. now rewrite He, Hm. Qed.

(** In a settled aggregate a visit changes the counter and nothing else. *)
Lemma visit_settled (q : Quadtree) (image : Mat) (node : QuadtreeNode) (depth : Z) :
  settled q ->
  match visit q image node depth with
  | Return _ q' => q' = q
  | Recurse _ _ _ q' => q' = set_nodeCounter q (nodeCounter q + 4)
  end.
Proof.
  unfold settled, visit. intros ->.
  repeat case_if; reflexivity.
Qed.

Lemma settled_counter (q : Quadtree) (k : Z) : settled q -> settled (set_nodeCounter q k).
Proof. exact (fun H => H). Qed.

Lemma counter_ok_step (k : Z) : counter_ok k -> k <= MAX_NODES -> counter_ok (k + 4).
Proof.
  unfold counter_ok, MAX_NODES. intros [Hr Hm] Hk. split; [lia|].
  rewrite <- Z.add_mod_idemp_l, Hm by lia. reflexivity.
Qed.

Lemma counter_ok_cap (k : Z) : counter_ok k -> MAX_NODES < k -> k = MAX_NODES + 4.
Proof.
  unfold counter_ok, MAX_NODES. intros [Hr Hm] Hk.
  Z.to_euclidean_division_equations. lia.
Qed.

(** A run from a settled aggregate changes the counter only, upwards and
    within its range. *)
Lemma quadtreeCompress_settled (fuel : nat) (image : Mat) :
  forall (depth : Z) (node : QuadtreeNode) (q : Quadtree),
    settled q -> counter_ok (nodeCounter q) ->
    exists k, snd (quadtreeCompress fuel image depth node q) = set_nodeCounter q k /\
              counter_ok k /\ nodeCounter q <= k.
Proof.
  assert (Hid : forall q, q = set_nodeCounter q (nodeCounter q)) by (intros []; reflexivity).
  induction fuel as [|fuel IH]; intros depth node q Hs Hk.
  - exists (nodeCounter q). cbn. split; [apply Hid|]. split; [exact Hk | lia].
  - cbn [quadtreeCompress].
    pose proof (visit_settled q image node depth Hs) as Hv.
    pose proof (visit_counter q image node depth) as Hc.
    destruct (visit q image node depth) as [n' q'|n' cs loop q'].
    + subst q'. exists (nodeCounter q). cbn. split; [apply Hid|]. split; [exact Hk | lia].
    + destruct Hc as [_ Hab]. subst q'.
      assert (Hle : nodeCounter q <= MAX_NODES).
      { unfold aborted in Hab. apply orb_false_iff in Hab. destruct Hab as [_ Hab].
        now apply Z.ltb_ge in Hab. }
      destruct (run_children_rel
                  (fun s => exists k, s = set_nodeCounter q k /\ counter_ok k /\
                                      nodeCounter q <= k)
                  (fun _ => True) (fun _ _ => True)
                  (quadtreeCompress fuel image (depth + 1)) loop cs
                  (set_nodeCounter q (nodeCounter q + 4))) as (_ & _ & _ & _ & Hr).
      * intros c s _ (k & -> & Hok & Hge). split; [exact I|].
        destruct (IH (depth + 1) c (set_nodeCounter q k)) as (k' & -> & Hok' & Hge');
          [exact Hs | exact Hok |].
        exists k'. cbn in Hge'. split; [reflexivity|]. split; [exact Hok' | lia].
      * auto.
      * repeat split.
      * exists (nodeCounter q + 4). split; [reflexivity|].
        split; [now apply counter_ok_step | lia].
      * destruct (run_children _ loop cs _) as [cs' q'']. exact Hr.
Qed.

Lemma raised_refl_counter (q1 q2 : Quadtree) (k1 k2 : Z) :
  raised q1 q2 -> counter_ok k1 -> counter_ok k2 -> k2 <= k1 ->
  raised (set_nodeCounter q1 k1) (set_nodeCounter q2 k2).
Proof.
  unfold raised. intros (He & HT & _ & _ & _ & Hs & Hf) H1 H2 Hle.
  split; [rewrite He at 1; reflexivity|].
  split; [exact HT|]. split; [exact Hle|]. split; [exact H1|]. split; [exact H2|].
  split; [exact Hs | exact Hf].
Qed.

Lemma raised_flags (q1 q2 : Quadtree) :
  raised q1 q2 -> settled q2 /\ timeoutFlag q2 = false.
Proof.
  unfold raised, settled. intros (He & _ & _ & _ & _ & Hs & Hf).
  rewrite He. split; [exact Hs | exact Hf].
Qed.


Lemma dlt_mono (e a b : Q) : (a <= b)%Q -> dlt e a = true -> dlt e b = true.
Proof.
  intros Hab H. apply dlt_true in H. apply dlt_true.
  eapply Qlt_le_trans; eassumption.
Qed.

(** The same node visited under the two thresholds: the higher threshold
    never splits where the lower one does not; where both split they make
    the same children. *)
Lemma visit_raised (q1 q2 : Quadtree) (image : Mat) (node : QuadtreeNode) (depth : Z) :
  raised q1 q2 -> aborted q1 = false ->
  match visit q1 image node depth, visit q2 image node depth with
  | Return _ _, Recurse _ _ _ _ => False
  | Recurse _ cs1 l1 _, Recurse _ cs2 l2 _ => cs1 = cs2 /\ l1 = l2
  | _, _ => True
  end.
Proof.
  unfold raised, settled, aborted. intros (He & HT & Hc & _ & _ & Hs & _) Hab.
  apply orb_false_iff in Hab. destruct Hab as [Hto Hcap].
  assert (Hcap2 : (MAX_NODES <? nodeCounter q2) = false).
  { apply Z.ltb_ge. apply Z.ltb_ge in Hcap. lia. }
  assert (HT15 : (threshold q1 * 1.5 <= threshold q2 * 1.5)%Q) by lra.
  revert HT HT15 Hc Hcap2. rewrite He. clear He.
  generalize (threshold q2) as T2. generalize (nodeCounter q2) as c2.
  intros c2 T2 HT HT15 Hc Hcap2.
  destruct q1 as [r T1 m src meth tgt c1 tf md fl hy cr cm cd om od].
  cbn [timeoutFlag nodeCounter useHybridCompression forceLowCompression
       targetCompressionPct set_nodeCounter set_threshold threshold root minBlockSize
       sourceImage errorMethod maxDepth centerRegion centerMinBlockSize centerMaxDepth
       outerMinBlockSize outerMaxDepth] in *.
  subst tf.
  unfold visit.
  cbn [timeoutFlag nodeCounter useHybridCompression forceLowCompression
       targetCompressionPct set_nodeCounter set_threshold threshold root minBlockSize
       sourceImage errorMethod maxDepth centerRegion centerMinBlockSize centerMaxDepth
       outerMinBlockSize outerMaxDepth].
  rewrite Hcap, Hcap2, Hs.
  cbn [orb timeoutFlag nodeCounter useHybridCompression forceLowCompression
       targetCompressionPct set_nodeCounter set_threshold threshold root minBlockSize
       sourceImage errorMethod maxDepth centerRegion centerMinBlockSize centerMaxDepth
       outerMinBlockSize outerMaxDepth].
  repeat match goal with
         | |- context [calculateError
                         (mkQuadtree r T2 m src meth tgt c2 false md fl hy cr cm cd om od)
                         ?b ?a] =>
             rewrite (calculateError_indep
                        (mkQuadtree r T1 m src meth tgt c1 false md fl hy cr cm cd om od)
                        (mkQuadtree r T2 m src meth tgt c2 false md fl hy cr cm cd om od)
                        b a eq_refl eq_refl)
         end.
  repeat match goal with
         | |- context [calculateError (set_nodeCounter (set_threshold ?q ?T) ?c) ?b ?a] =>
             rewrite (calculateError_indep q (set_nodeCounter (set_threshold q T) c)
                        b a eq_refl eq_refl)
         end.
  repeat case_if; try exact I; try (split; reflexivity); try congruence;
    repeat match goal with
           | H : context [if ?b then _ else _] |- _ => destruct b eqn:?
           end;
    try congruence;
    try match goal with
    | H1 : dlt ?e ?a = true, H2 : dlt ?e ?b = false |- _ =>
        rewrite (dlt_mono e a b) in H2 by assumption; discriminate H2
    end.
Qed.

(** The loop over the children under the two thresholds. *)
Lemma run_children_raised (rec : SubCall) (loop : ChildLoop) (cs : Quad QuadtreeNode)
    (qa qb : Quadtree) :
  (forall c s1 s2, unsplit c -> raised s1 s2 ->
                   raised (snd (rec c s1)) (snd (rec c s2))) ->
  Quad_all unsplit cs -> raised qa qb ->
  raised (snd (run_children rec loop cs qa)) (snd (run_children rec loop cs qb)).
Proof.
  intros Hrec (U0 & U1 & U2 & U3) R.
  assert (Hbreak : forall i s1 s2, raised s1 s2 ->
            breaks_after loop i s1 = false /\ breaks_after loop i s2 = false).
  { intros i s1 s2 Hr. destruct (raised_flags _ _ Hr) as [_ Hf2].
    destruct Hr as (_ & _ & _ & _ & _ & _ & Hf1).
    unfold breaks_after. rewrite Hf1, Hf2.
    destruct loop; rewrite ?andb_false_r; auto. }
  unfold run_children.
  pose proof (Hrec _ _ _ U0 R) as R0.
  destruct (rec (q0 cs) qa) as [a0 s0], (rec (q0 cs) qb) as [b0 t0]. cbn [snd] in R0.
  destruct (Hbreak 0 _ _ R0) as [-> ->].
  pose proof (Hrec _ _ _ U1 R0) as R1.
  destruct (rec (q1 cs) s0) as [a1 s1], (rec (q1 cs) t0) as [b1 t1]. cbn [snd] in R1.
  destruct (Hbreak 1 _ _ R1) as [-> ->].
  pose proof (Hrec _ _ _ U2 R1) as R2.
  destruct (rec (q2 cs) s1) as [a2 s2], (rec (q2 cs) t1) as [b2 t2]. cbn [snd] in R2.
  destruct (Hbreak 2 _ _ R2) as [-> ->].
  pose proof (Hrec _ _ _ U3 R2) as R3.
  destruct (rec (q3 cs) s2) as [a3 s3], (rec (q3 cs) t2) as [b3 t3]. exact R3.
Qed.

(** A whole run under the two thresholds: the run with the higher
    threshold ends with the counter that is not the higher one. *)
Lemma quadtreeCompress_raised (fuel : nat) (image : Mat) :
  forall (depth : Z) (node : QuadtreeNode) (q1 q2 : Quadtree),
    unsplit node -> raised q1 q2 ->
    raised (snd (quadtreeCompress fuel image depth node q1))
           (snd (quadtreeCompress fuel image depth node q2)).
Proof.
  assert (Hid : forall q, q = set_nodeCounter q (nodeCounter q)) by (intros []; reflexivity).
  induction fuel as [|fuel IH]; intros depth node q1 q2 Hn R; [exact R|].
  pose proof R as (He & HT & Hc & Hk1 & Hk2 & Hs & Hf).
  destruct (raised_flags _ _ R) as [Hs2 Hf2].
  destruct (aborted q1) eqn:Hab.
  - (* the first run is at the cap: its counter is the largest there is *)
    rewrite (quadtreeCompress_aborted (S fuel) image depth node q1 Hab). cbn [snd].
    destruct (quadtreeCompress_settled (S fuel) image depth node q2 Hs2 Hk2)
      as (k & -> & Hk & Hge).
    rewrite (Hid q1). apply raised_refl_counter; auto.
    unfold aborted in Hab. rewrite Hf in Hab. cbn [orb] in Hab. apply Z.ltb_lt in Hab.
    rewrite (counter_ok_cap _ Hk1 Hab). destruct Hk as [Hk _]. lia.
  - pose proof (visit_raised q1 q2 image node depth R Hab) as Hv.
    pose proof (visit_settled q1 image node depth Hs) as V1.
    pose proof (visit_settled q2 image node depth Hs2) as V2.
    pose proof (visit_shape q1 image node depth Hn) as S1.
    destruct (quadtreeCompress_settled (S fuel) image depth node q1 Hs Hk1)
      as (k & Hrun1 & Hk & Hge).
    cbn [quadtreeCompress] in *.
    assert (Hle : nodeCounter q1 <= MAX_NODES).
    { unfold aborted in Hab. apply orb_false_iff in Hab. destruct Hab as [_ Hab].
      now apply Z.ltb_ge in Hab. }
    destruct (visit q1 image node depth) as [n1 q1'|n1 cs1 l1 q1'],
             (visit q2 image node depth) as [n2 q2'|n2 cs2 l2 q2'].
    + cbn [snd]. subst q1' q2'. exact R.
    + contradiction.
    + cbn [snd]. subst q2'. rewrite Hrun1. rewrite (Hid q2).
      apply raised_refl_counter; auto. lia.
    + destruct Hv as [<- <-]. subst q1' q2'.
      destruct S1 as [_ U].
      pose proof (run_children_raised (quadtreeCompress fuel image (depth + 1)) l1 cs1
                    (set_nodeCounter q1 (nodeCounter q1 + 4))
                    (set_nodeCounter q2 (nodeCounter q2 + 4))) as Hr.
      destruct (run_children _ l1 cs1 (set_nodeCounter q1 _)) as [a s],
               (run_children _ l1 cs1 (set_nodeCounter q2 _)) as [b t].
      cbn [snd] in *. apply Hr.
      * intros c s1 s2 Hu Hr'. apply IH; assumption.
      * exact U.
      * apply raised_refl_counter; auto; try lia; apply counter_ok_step; auto; lia.
Qed.

(** The tree of a build under the higher threshold has no more leaves. *)
Lemma buildTree_leaves (qa qb : Quadtree) :
  raised qa qb -> nodeCounter qb = nodeCounter qa ->
  countLeafNodes_ptr (root (buildTree qb)) <= countLeafNodes_ptr (root (buildTree qa)).
Proof.
  intros R Hc0. pose proof R as (He & _).
  assert (Hsrc : sourceImage qb = sourceImage qa) by (rewrite He; reflexivity).
  assert (Hfuel : fuel_for qb = fuel_for qa) by (rewrite He; reflexivity).
  unfold buildTree. rewrite Hsrc, Hfuel.
  set (src := sourceImage qa). set (fuel := fuel_for qa).
  destruct (500000 <? rows src * cols src).
  - set (cs := quad _ _ _ _).
    assert (U : Quad_all unsplit cs) by (repeat split).
    pose proof (run_children_raised (quadtreeCompress fuel src 1) AsyncTasks cs qa qb
                  (fun c s1 s2 Hu Hr => quadtreeCompress_raised fuel src 1 c s1 s2 Hu Hr)
                  U R) as (_ & _ & Hle & _).
    pose proof (run_children_count (quadtreeCompress fuel src 1) AsyncTasks cs qa
                  (quadtreeCompress_count fuel src 1) U) as Ca.
    pose proof (run_children_count (quadtreeCompress fuel src 1) AsyncTasks cs qb
                  (quadtreeCompress_count fuel src 1) U) as Cb.
    cbv zeta in Ca, Cb.
    destruct (run_children _ AsyncTasks cs qa) as [a s],
             (run_children _ AsyncTasks cs qb) as [b t].
    cbn [fst snd] in *.
    cbn -[Z.mul Z.add Z.sub Z.max cdiv Z.le]. lia.
  - pose proof (quadtreeCompress_raised fuel src 0 _ qa qb
                  (newNode_unsplit 0 0 (cols src) (rows src)) R) as (_ & _ & Hle & _).
    pose proof (quadtreeCompress_count fuel src 0 _ qa
                  (newNode_unsplit 0 0 (cols src) (rows src))) as Ca.
    pose proof (quadtreeCompress_count fuel src 0 _ qb
                  (newNode_unsplit 0 0 (cols src) (rows src))) as Cb.
    destruct (quadtreeCompress fuel src 0 _ qa) as [a s],
             (quadtreeCompress fuel src 0 _ qb) as [b t].
    cbn [fst snd] in *.
    cbn -[Z.mul Z.add Z.sub Z.max cdiv Z.le]. lia.
Qed.

(** The percentage falls as the leaves grow. *)
Lemma leafPct_antitone (l1 l2 n : Z) :
  0 <= n -> l2 <= l1 -> (leafPct l1 n <= leafPct l2 n)%Q.
Proof.
  intros Hn Hl. unfold leafPct.
  assert (H : (inject_Z l2 / inject_Z n <= inject_Z l1 / inject_Z n)%Q).
  { unfold Qdiv. apply Qmult_le_compat_r; [now rewrite <- Zle_Qle|].
    apply Qinv_le_0_compat. now rewrite <- (Zle_Qle 0). }
  lra.
Qed.

Lemma buildTree_sourceImage (q : Quadtree) : sourceImage (buildTree q) = sourceImage q.
Proof. destruct (buildTree_frame q) as [_ H]. apply H. Qed.


End Monotone.


(* ================================================================== *)
(** ** The entropy metric (C9) *)

Lemma for_loop_fold {A : Type} (body : Z -> A -> A) :
  forall (n : nat) (i : Z) (acc : A),
    for_loop n i body acc
    = fold_left (fun a k => body k a) (map (fun k => i + Z.of_nat k) (seq 0 n)) acc.
Proof.
  induction n as [|n IH]; intros i acc; [reflexivity|].
  cbn [for_loop seq map fold_left]. rewrite IH, <- seq_shift, map_map.
  rewrite Z.add_0_r. f_equal. apply map_ext. intros k. lia.
Qed.

Lemma for_range_fold {A : Type} (body : Z -> A -> A) (n : Z) (acc : A) :
  for_range 0 n body acc = fold_left (fun a k => body k a) (Zseq n) acc.
Proof.
  unfold for_range, Zseq. rewrite for_loop_fold, Z.sub_0_r. reflexivity.
Qed.

Lemma fold_left_map {A B C : Type} (f : A -> C -> A) (g : B -> C) (l : list B) :
  forall a, fold_left f (map g l) a = fold_left (fun a x => f a (g x)) l a.
Proof. induction l as [|x l IH]; intros a; [reflexivity|]. cbn. apply IH. Qed.

Lemma fold_left_flat_map {A B C : Type} (f : A -> C -> A) (g : B -> list C) (l : list B) :
  forall a, fold_left f (flat_map g l) a = fold_left (fun a x => fold_left f (g x) a) l a.
Proof.
  induction l as [|x l IH]; intros a; [reflexivity|].
  cbn [flat_map fold_left]. rewrite fold_left_app. apply IH.
Qed.

(** The loop over the pixels is a fold over their list. *)
Lemma for_pixels_fold {A : Type} (block : Mat) (body : Vec3b -> A -> A) (acc : A) :
  for_pixels block body acc = fold_left (fun a p => body p a) (pixels block) acc.
Proof.
  unfold for_pixels, for_index, pixels.
  rewrite for_range_fold, fold_left_flat_map.
  revert acc. induction (Zseq (rows block)) as [|i l IH]; intros acc; [reflexivity|].
  cbn [fold_left]. rewrite for_range_fold, fold_left_map. apply IH.
Qed.

Lemma length_pixels (block : Mat) :
  0 <= rows block -> 0 <= cols block ->
  Z.of_nat (length (pixels block)) = rows block * cols block.
Proof.
  intros Hr Hc. unfold pixels.
  assert (H : forall l : list Z,
             length (flat_map (fun i => map (fun j => at_ block i j) (Zseq (cols block))) l)
             = (length l * Z.to_nat (cols block))%nat).
  { induction l as [|i l IH]; [reflexivity|].
    cbn [flat_map length]. rewrite length_app, IH, length_map.
    unfold Zseq. rewrite length_map, length_seq. lia. }
  rewrite H. unfold Zseq. rewrite length_map, length_seq. lia.
Qed.

Lemma pixels_valid (block : Mat) : valid_image block -> Forall valid_pixel (pixels block).
Proof.
  intros Hv. apply Forall_forall. intros p Hp. unfold pixels in Hp.
  apply in_flat_map in Hp. destruct Hp as (i & _ & Hp).
  apply in_map_iff in Hp. destruct Hp as (j & <- & _). apply Hv.
Qed.

Lemma pixels_not_nil (block : Mat) : empty block = false -> pixels block <> [].
Proof.
  unfold empty. intros He Hnil. apply orb_false_iff in He. destruct He as [Hr Hc].
  apply Z.leb_gt in Hr, Hc.
  pose proof (length_pixels block ltac:(lia) ltac:(lia)) as Hl.
  rewrite Hnil in Hl. cbn in Hl. nia.
Qed.

Lemma minmax_fold (l : list Vec3b) :
  Forall valid_pixel l ->
  forall mn mx, span_ok mn mx ->
    let r := fold_left (fun a p => (fun pixel '(mn, mx) =>
                                      (Vec3b_min mn pixel, Vec3b_max mx pixel)) p a)
                       l (mn, mx) in
    span_ok (fst r) (snd r).
Proof.
  induction 1 as [|p l Hp _ IH]; intros mn mx Hs; [exact Hs|].
  cbn [fold_left]. apply IH.
  unfold span_ok, valid_pixel, valid_uchar in *. cbn [Vec3b_min Vec3b_max ch0 ch1 ch2]. lia.
Qed.

Lemma third_range (d : Q) :
  (0 <= d)%Q -> (d <= 765)%Q -> (0 <= d / 3)%Q /\ (d / 3 <= 255)%Q.
Proof. intros Hlo Hhi. split; [apply Qle_shift_div_l | apply Qle_shift_div_r]; lra. Qed.

Lemma calculateMaxPixelDiff_range (block : Mat) :
  valid_image block ->
  (0 <= calculateMaxPixelDiff block)%Q /\ (calculateMaxPixelDiff block <= 255)%Q.
Proof.
  intros Hv. unfold calculateMaxPixelDiff.
  destruct (empty block) eqn:He; [split; lra|].
  destruct (rows block * cols block <=? 4).
  - destruct (rows block * cols block =? 1); [split; lra|].
    unfold for_pixels.
    apply (for_index_preserves (fun a : Q => (0 <= a)%Q /\ (a <= 255)%Q)); [split; lra|].
    intros i j a _ _ Ha.
    assert (Hd : (0 <= inject_Z (absdiff3 (at_ block i j) (at_ block 0 0)) / 3)%Q /\
                 (inject_Z (absdiff3 (at_ block i j) (at_ block 0 0)) / 3 <= 255)%Q).
    { pose proof (Hv i j) as Hp. pose proof (Hv 0 0) as Hf.
      assert (H : 0 <= absdiff3 (at_ block i j) (at_ block 0 0) <= 765).
      { unfold absdiff3, valid_pixel, valid_uchar in *. lia. }
      destruct H as [Hlo Hhi]. rewrite Zle_Qle in Hlo, Hhi.
      change (inject_Z 765) with 765%Q in Hhi. change (inject_Z 0) with 0%Q in Hlo.
      revert Hlo Hhi. generalize (inject_Z (absdiff3 (at_ block i j) (at_ block 0 0))).
      intros d Hlo Hhi. now apply third_range. }
    unfold dmax. destruct (Qlt_le_dec _ _); split; lra.
  - rewrite for_pixels_fold.
    pose proof (pixels_valid block Hv) as Hall.
    pose proof (pixels_not_nil block He) as Hne.
    destruct (pixels block) as [|p l]; [congruence|].
    apply Forall_cons_iff in Hall. destruct Hall as [Hp Hl].
    cbn [fold_left].
    pose proof (minmax_fold l Hl (Vec3b_min (mkVec3b 255 255 255) p)
                  (Vec3b_max (mkVec3b 0 0 0) p)) as H.
    cbv zeta in H.
    destruct (fold_left _ l _) as [minVals maxVals]. cbn [fst snd] in H.
    assert (Hs : span_ok minVals maxVals).
    { apply H. unfold span_ok, valid_pixel, valid_uchar in *.
      cbn [Vec3b_min Vec3b_max ch0 ch1 ch2]. lia. }
    assert (Hz : 0 <= (ch0 maxVals - ch0 minVals) + (ch1 maxVals - ch1 minVals)
                      + (ch2 maxVals - ch2 minVals) <= 765).
    { unfold span_ok in Hs. lia. }
    destruct Hz as [Hlo Hhi]. rewrite Zle_Qle in Hlo, Hhi.
    change (inject_Z 765) with 765%Q in Hhi. change (inject_Z 0) with 0%Q in Hlo.
    revert Hlo Hhi.
    generalize (inject_Z (ch0 maxVals - ch0 minVals + (ch1 maxVals - ch1 minVals)
                          + (ch2 maxVals - ch2 minVals))).
    intros d Hlo Hhi. now apply third_range.
Qed.

Lemma count_pixels_cons (f : Vec3b -> bool) (p : Vec3b) (l : list Vec3b) :
  count_pixels f (p :: l) = (if f p then 1 else 0) + count_pixels f l.
Proof. unfold count_pixels. cbn [filter]. destruct (f p); cbn [length]; lia. Qed.

Lemma count_pixels_range (f : Vec3b -> bool) (l : list Vec3b) :
  0 <= count_pixels f l <= Z.of_nat (length l).
Proof.
  induction l as [|p l IH]; [cbn; lia|].
  rewrite count_pixels_cons. cbn [length]. destruct (f p); lia.
Qed.

(** The three increments of one pixel fall into three different bins. *)
Lemma hist_incr_pixel (h : Z -> Z) (p : Vec3b) (k : Z) :
  valid_pixel p ->
  hist_incr (hist_incr (hist_incr h (ch0 p)) (256 + ch1 p)) (512 + ch2 p) k
  = h k + (if in_bin k p then 1 else 0).
Proof.
  unfold valid_pixel, valid_uchar, hist_incr, in_bin. intros Hp.
  destruct (Z.eqb_spec k (512 + ch2 p)), (Z.eqb_spec k (256 + ch1 p)),
    (Z.eqb_spec k (ch0 p)), (Z.ltb_spec k 256), (Z.ltb_spec k 512),
    (Z.eqb_spec (ch0 p) k), (Z.eqb_spec (ch1 p) (k - 256)),
    (Z.eqb_spec (ch2 p) (k - 512)); lia.
Qed.

(** The histogram loop counts, bin by bin, and counts the samples. *)
Lemma hist_fold (l : list Vec3b) :
  Forall valid_pixel l ->
  forall (h : Z -> Z) (n : Z),
    let r := fold_left
               (fun a p =>
                  (fun pixel '(h, n) =>
                     (hist_incr (hist_incr (hist_incr h (ch0 pixel)) (256 + ch1 pixel))
                                (512 + ch2 pixel), n + 1)) p a)
               l (h, n) in
    (forall k, fst r k = h k + count_pixels (in_bin k) l) /\
    snd r = n + Z.of_nat (length l).
Proof.
  induction 1 as [|p l Hp _ IH]; intros h n.
  - cbn. split; [intros k; unfold count_pixels; cbn|]; lia.
  - cbn [fold_left]. cbv zeta in IH.
    destruct (IH (hist_incr (hist_incr (hist_incr h (ch0 p)) (256 + ch1 p)) (512 + ch2 p))
                 (n + 1)) as [Hh Hn].
    cbv zeta. split.
    + intros k. rewrite Hh, hist_incr_pixel, count_pixels_cons by exact Hp. lia.
    + rewrite Hn. cbn [length]. lia.
Qed.

Section Entropy.
Context {E : Externals}.
Hypothesis log2_ok : log2_laws E.

Lemma fold_left_pointwise {A B : Type} (f g : A -> B -> A) (l : list B) :
  (forall a x, In x l -> f a x = g a x) ->
  forall a, fold_left f l a = fold_left g l a.
Proof.
  induction l as [|x l IH]; intros H a; [reflexivity|].
  cbn [fold_left]. rewrite H by (left; reflexivity).
  apply IH. intros b y Hy. apply H. now right.
Qed.

(** The loop over the bins: its first component is the sum of the terms,
    its second counts the occupied bins. *)
Lemma bins_fold (hist : Z -> Z) (sampleCount : Z) (l : list Z) :
  forall (e : Q) (c : Z),
    let r := fold_left
               (fun a i =>
                  (fun i '(e, c) =>
                     if 0 <? hist i then
                       let p := (inject_Z (hist i) / inject_Z sampleCount)%Q in
                       ((e - p * log2 p)%Q, c + 1)
                     else (e, c)) i a)
               l (e, c) in
    fst r = fold_left (shannon_term hist sampleCount) l e /\
    c <= snd r /\ ((exists k, In k l /\ 0 < hist k) -> c < snd r).
Proof.
  induction l as [|k l IH]; intros e c.
  - cbn. split; [reflexivity|]. split; [lia|]. intros (k & [] & _).
  - cbn [fold_left]. cbv zeta in IH |- *. unfold shannon_term at 2.
    destruct (Z.ltb_spec 0 (hist k)) as [Hk|Hk].
    + destruct (IH (e - inject_Z (hist k) / inject_Z sampleCount
                        * log2 (inject_Z (hist k) / inject_Z sampleCount))%Q (c + 1))
        as (H1 & H2 & _).
      split; [exact H1|]. split; lia.
    + destruct (IH e c) as (H1 & H2 & H3).
      split; [exact H1|]. split; [exact H2|].
      intros (k' & [<-|Hin] & Hpos); [lia|]. apply H3. now exists k'.
Qed.

(** Every term of the sum is non-negative: the shares lie in (0, 1]. *)
Lemma shannon_fold_nonneg (hist : Z -> Z) (sampleCount : Z) (l : list Z) :
  0 < sampleCount -> (forall k, hist k <= sampleCount) ->
  forall e, (0 <= e)%Q -> (0 <= fold_left (shannon_term hist sampleCount) l e)%Q.
Proof.
  intros Hn Hh. induction l as [|k l IH]; intros e He; [exact He|].
  cbn [fold_left]. apply IH. unfold shannon_term.
  destruct (Z.ltb_spec 0 (hist k)) as [Hk|Hk]; [|exact He].
  assert (Hp : (0 < inject_Z (hist k) / inject_Z sampleCount)%Q).
  { apply Qlt_shift_div_l; [now rewrite <- (Zlt_Qlt 0)|].
    rewrite Qmult_0_l. now rewrite <- (Zlt_Qlt 0). }
  assert (Hp1 : (inject_Z (hist k) / inject_Z sampleCount <= 1)%Q).
  { apply Qle_shift_div_r; [now rewrite <- (Zlt_Qlt 0)|].
    rewrite Qmult_1_l. rewrite <- Zle_Qle. apply Hh. }
  pose proof (log2_nonpos E log2_ok _ Hp Hp1) as Hlog.
  revert Hp Hlog. generalize (log2 (inject_Z (hist k) / inject_Z sampleCount)).
  generalize (inject_Z (hist k) / inject_Z sampleCount)%Q. intros p lg Hp Hlog. nra.
Qed.

Lemma calculateEntropy_small (block : Mat) :
  empty block || (rows block * cols block <? 16) = true ->
  calculateEntropy block = (calculateMaxPixelDiff block / 255)%Q.
Proof. unfold calculateEntropy. now intros ->. Qed.

Lemma calculateEntropy_large (block : Mat) :
  valid_image block -> 0 <= rows block -> 0 <= cols block ->
  16 <= rows block * cols block ->
  calculateEntropy block = dmin (shannon768 block / 3) 5.
Proof.
  intros Hv Hr Hc Hsize.
  assert (He : empty block = false).
  { unfold empty. apply orb_false_iff. split; apply Z.leb_gt; nia. }
  unfold calculateEntropy. rewrite He.
  replace (rows block * cols block <? 16) with false by (symmetry; apply Z.ltb_ge; lia).
  cbn [orb]. rewrite for_pixels_fold.
  pose proof (pixels_valid block Hv) as Hall.
  pose proof (hist_fold (pixels block) Hall (fun _ => 0) 0) as Hhist. cbv zeta in Hhist.
  destruct (fold_left _ (pixels block) _) as [hist sampleCount].
  cbn [fst snd] in Hhist. destruct Hhist as [Hh Hn]. rewrite Z.add_0_l in Hn.
  pose proof (length_pixels block Hr Hc) as Hlen.
  replace (sampleCount =? 0) with false by (symmetry; apply Z.eqb_neq; lia).
  rewrite for_range_fold.
  pose proof (bins_fold hist sampleCount (Zseq 768) 0%Q 0) as Hbins. cbv zeta in Hbins.
  destruct (fold_left _ (Zseq 768) _) as [entropy count].
  cbn [fst snd] in Hbins. destruct Hbins as (Hsum & _ & Hcount).
  assert (Hpos : 0 < count).
  { apply Hcount.
    pose proof (pixels_not_nil block He) as Hne.
    destruct (pixels block) as [|p l] eqn:Hpx; [congruence|].
    apply Forall_cons_iff in Hall. destruct Hall as [Hp _].
    exists (ch0 p). split.
    - unfold Zseq. apply in_map_iff. exists (Z.to_nat (ch0 p)).
      destruct Hp as [Hp _]. unfold valid_uchar in Hp.
      split; [lia|]. apply in_seq. lia.
    - rewrite Hh, count_pixels_cons.
      pose proof (count_pixels_range (in_bin (ch0 p)) l) as Hl.
      destruct Hp as [Hp _]. unfold valid_uchar in Hp.
      unfold in_bin at 1. replace (ch0 p <? 256) with true by (symmetry; apply Z.ltb_lt; lia).
      rewrite Z.eqb_refl. lia. }
  replace (0 <? count) with true by (symmetry; apply Z.ltb_lt; exact Hpos).
  rewrite Hsum. unfold shannon768. rewrite <- Hn.
  do 2 f_equal. apply fold_left_pointwise.
  intros e k _. unfold shannon_term, histogram768. rewrite Hh, Z.add_0_l. reflexivity.
Qed.

Lemma shannon768_nonneg (block : Mat) :
  0 <= rows block -> 0 <= cols block -> 16 <= rows block * cols block ->
  (0 <= shannon768 block)%Q.
Proof.
  intros Hr Hc Hsize. unfold shannon768.
  pose proof (length_pixels block Hr Hc) as Hlen.
  apply shannon_fold_nonneg; [lia | | lra].
  intros k. unfold histogram768. apply count_pixels_range.
Qed.

(** C9.  On a block of 8-bit pixels, and for a [log2] that is not positive
    on (0, 1]: with fewer than 16 pixels the entropy metric is the maximum
    pixel difference divided by 255, a value in [0, 1]; with 16 pixels or
    more it is the base-2 Shannon entropy of the 768-bin histogram, divided
    by 3 and capped at 5; in both cases it lies in [0, 5]. *)
Theorem entropy_metric (block : Mat) :
  valid_image block -> 0 <= rows block -> 0 <= cols block ->
  (rows block * cols block < 16 ->
   calculateEntropy block = (calculateMaxPixelDiff block / 255)%Q /\
   (0 <= calculateEntropy block)%Q /\ (calculateEntropy block <= 1)%Q) /\
  (16 <= rows block * cols block ->
   calculateEntropy block = dmin (shannon768 block / 3) 5) /\
  (0 <= calculateEntropy block)%Q /\ (calculateEntropy block <= 5)%Q.
Proof.
  intros Hv Hr Hc.
  assert (Hsmall : rows block * cols block < 16 ->
            calculateEntropy block = (calculateMaxPixelDiff block / 255)%Q /\
            (0 <= calculateEntropy block)%Q /\ (calculateEntropy block <= 1)%Q).
  { intros Hsize.
    assert (Heq : calculateEntropy block = (calculateMaxPixelDiff block / 255)%Q).
    { apply calculateEntropy_small. apply orb_true_iff. right. now apply Z.ltb_lt. }
    split; [exact Heq|]. rewrite Heq.
    destruct (calculateMaxPixelDiff_range block Hv) as [Hlo Hhi].
    split; [apply Qle_shift_div_l | apply Qle_shift_div_r]; lra. }
  assert (Hlarge : 16 <= rows block * cols block ->
            calculateEntropy block = dmin (shannon768 block / 3) 5).
  { intros Hsize. now apply calculateEntropy_large. }
  split; [exact Hsmall|]. split; [exact Hlarge|].
  destruct (Z_lt_le_dec (rows block * cols block) 16) as [Hsize|Hsize].
  - destruct (Hsmall Hsize) as (_ & Hlo & Hhi). split; lra.
  - rewrite (Hlarge Hsize).
    pose proof (shannon768_nonneg block Hr Hc Hsize) as Hs.
    assert (H3 : (0 <= shannon768 block / 3)%Q) by (apply Qle_shift_div_l; lra).
    unfold dmin. destruct (Qlt_le_dec _ _); split; lra.
Qed.

End Entropy.

Example entropy_metric_witness :
  (rows stripes8x8 * cols stripes8x8 < 16 ->
   calculateEntropy (E := reference_externals) stripes8x8
   = (calculateMaxPixelDiff stripes8x8 / 255)%Q /\
   (0 <= calculateEntropy (E := reference_externals) stripes8x8)%Q /\
   (calculateEntropy (E := reference_externals) stripes8x8 <= 1)%Q) /\
  (16 <= rows stripes8x8 * cols stripes8x8 ->
   calculateEntropy (E := reference_externals) stripes8x8
   = dmin (shannon768 (E := reference_externals) stripes8x8 / 3) 5) /\
  (0 <= calculateEntropy (E := reference_externals) stripes8x8)%Q /\
  (calculateEntropy (E := reference_externals) stripes8x8 <= 5)%Q.
Proof.
  apply (entropy_metric (E := reference_externals) reference_log2_laws stripes8x8).
  - intros i j. cbn. destruct (_ =? _); repeat split; cbn; lia.
  - cbn; lia.
  - cbn; lia.
Defined.

(* ================================================================== *)
(** ** The adaptive threshold search (C7) *)

Section SearchFacts.
Context {E : Externals}.
Variable q : Quadtree.
Variable testImage : Mat.
Variable targetPct : Q.

(** What the loop leaves in the log: no more trials than iterations; each
    entry is a threshold with the percentage of its trial tree; a trial
    within the tolerance is the last one. *)
Lemma search_loop_log (n : nat) :
  forall (iter : Z) (st : Search),
    Forall (missed targetPct) (trials st) ->
    Forall (fun tp => snd tp = trialPct q testImage (fst tp)) (trials st) ->
    let st' := search_loop q testImage targetPct n iter st in
    (length (trials st') <= length (trials st) + n)%nat /\
    Forall (fun tp => snd tp = trialPct q testImage (fst tp)) (trials st') /\
    Forall (missed targetPct) (tl (trials st')) /\
    (length (trials st') = (length (trials st) + n)%nat \/
     (Qabs (currentPct st' - targetPct) <= tolerance)%Q \/
     (high st' - low st' < 0.001 * low st')%Q \/
     (Qabs (cur_threshold st' - bestThreshold st') < 0.001 * bestThreshold st')%Q).
Proof.
  induction n as [|n IH]; intros iter st Hmiss Hlog.
  - cbn [search_loop]. rewrite Nat.add_0_r.
    split; [lia|]. split; [exact Hlog|]. split; [|now left].
    destruct (trials st); [constructor|]. now apply Forall_cons_iff in Hmiss.
  - cbn [search_loop]. cbv zeta.
    set (weight := if 0 <? iter then _ else _).
    set (t := (low st + (high st - low st) * weight)%Q).
    destruct (dlt (Qabs (t - bestThreshold st)) (0.001 * bestThreshold st)) eqn:Hnear.
    { cbn [trials low high cur_threshold bestThreshold currentPct].
      split; [lia|]. split; [exact Hlog|]. split.
      - destruct (trials st); [constructor|]. now apply Forall_cons_iff in Hmiss.
      - right. right. right. now apply dlt_true. }
    set (pct := trialPct q testImage t).
    destruct (dle (Qabs (pct - targetPct)) tolerance) eqn:Htol.
    { cbn [trials low high cur_threshold bestThreshold currentPct length tl].
      split; [lia|]. split; [constructor; [reflexivity | exact Hlog]|].
      split; [exact Hmiss|]. right. left. now apply dle_true. }
    set (low' := if dlt pct targetPct then t else low st).
    set (high' := if dlt pct targetPct then high st else t).
    destruct (dlt (high' - low') (0.001 * low')) eqn:Hgap.
    { cbn [trials low high cur_threshold bestThreshold currentPct length tl].
      split; [lia|]. split; [constructor; [reflexivity | exact Hlog]|].
      split; [exact Hmiss|]. right. right. left. now apply dlt_true. }
    match goal with
    | |- context [search_loop q testImage targetPct n (iter + 1) ?s] =>
        destruct (IH (iter + 1) s) as (Hlen & Hlog' & Hmiss' & Hexit)
    end.
    { cbn [trials]. constructor; [|exact Hmiss].
      unfold missed. cbn [snd]. now apply dle_false. }
    { cbn [trials]. constructor; [reflexivity | exact Hlog]. }
    cbn [trials length] in Hlen, Hexit.
    split; [lia|]. split; [exact Hlog'|]. split; [exact Hmiss'|].
    destruct Hexit as [Hexit|Hexit]; [left; lia | right; exact Hexit].
Qed.

End SearchFacts.

Section AdaptiveSearch.
Context {E : Externals}.

Lemma adjustThreshold_adaptive (q : Quadtree) (image : Mat) :
  (75 <= targetCompressionPct q)%Q ->
  adjustThresholdForTargetCompression q image
  = set_threshold q (chosen (adaptive_search q image)).
Proof.
  intros HP. unfold adjustThresholdForTargetCompression.
  replace (dle (targetCompressionPct q) 0) with false by (symmetry; apply dle_false; lra).
  replace (dlt (targetCompressionPct q) 20) with false by (symmetry; apply dlt_false; lra).
  replace (dlt (targetCompressionPct q) 75) with false by (symmetry; apply dlt_false; lra).
  reflexivity.
Qed.


End AdaptiveSearch.



(* ================================================================== *)
(** ** The fuel of the splitter is enough *)

Section Fuel.
Context {E : Externals}.

(** A visit splits only down to the depth limit of its regime. *)
Lemma visit_depth (q : Quadtree) (image : Mat) (node : QuadtreeNode) (depth : Z) :
  match visit q image node depth with
  | Return _ _ => True
  | Recurse _ _ _ _ => depth <= depth_bound q
  end.
Proof.
  destruct (visit q image node depth) as [|n' cs loop q'] eqn:Hv; [exact I|].
  unfold visit in Hv. unfold depth_bound.
  destruct ((useHybridCompression q || forceLowCompression q)
            && dle (targetCompressionPct q) 0) eqn:Hclear;
    repeat match goal with
           | H : context [if ?c then _ else _] |- _ => destruct c eqn:?
           end;
    try discriminate; cbn in *; bool_hyps; lia.
Qed.

Lemma frame_depth_bound (q q' : Quadtree) : frame q q' -> depth_bound q' = depth_bound q.
Proof.
  unfold frame, depth_bound. intros H. decompose [and] H.
  repeat match goal with H : _ = _ |- _ => rewrite H; clear H end. reflexivity.
Qed.

(** The loop over the children depends on the recursive call only at the
    aggregates that can reach it. *)
Lemma run_children_ext (I : Quadtree -> Prop) (rec rec' : SubCall) (loop : ChildLoop)
    (cs : Quad QuadtreeNode) (q : Quadtree) :
  (forall c s, I s -> rec c s = rec' c s /\ I (snd (rec c s))) ->
  I q -> run_children rec loop cs q = run_children rec' loop cs q.
Proof.
  intros H Hq. unfold run_children.
  destruct (H (q0 cs) q Hq) as [<- I0]. destruct (rec (q0 cs) q) as [c0 s0].
  destruct (breaks_after loop 0 s0); [reflexivity|]. cbn [snd] in I0.
  destruct (H (q1 cs) s0 I0) as [<- I1]. destruct (rec (q1 cs) s0) as [c1 s1].
  destruct (breaks_after loop 1 s1); [reflexivity|]. cbn [snd] in I1.
  destruct (H (q2 cs) s1 I1) as [<- I2]. destruct (rec (q2 cs) s1) as [c2 s2].
  destruct (breaks_after loop 2 s2); [reflexivity|]. cbn [snd] in I2.
  destruct (H (q3 cs) s2 I2) as [<- I3]. reflexivity.
Qed.

(** From [depth_bound q - depth + 2] units of fuel on, more fuel changes
    nothing: the fuel never runs out before the depth limit stops the
    recursion. *)
Lemma quadtreeCompress_fuel (image : Mat) (n : nat) :
  forall (m : nat) (depth : Z) (node : QuadtreeNode) (q : Quadtree),
    (Z.to_nat (depth_bound q - depth + 1) + 1 <= n)%nat -> (n <= m)%nat ->
    quadtreeCompress n image depth node q = quadtreeCompress m image depth node q.
Proof.
  induction n as [|n IH]; intros m depth node q Hn Hm; [lia|].
  destruct m as [|m]; [lia|]. cbn [quadtreeCompress].
  pose proof (visit_depth q image node depth) as Hd.
  pose proof (visit_frame q image node depth) as Hf.
  destruct (visit q image node depth) as [n' q'|n' cs loop q']; [reflexivity|].
  destruct Hf as [_ Hf]. apply frame_depth_bound in Hf.
  rewrite (run_children_ext (fun s => depth_bound s = depth_bound q)
             (quadtreeCompress n image (depth + 1))
             (quadtreeCompress m image (depth + 1)) loop cs q'); [reflexivity | | exact Hf].
  intros c s Hs. split.
  - apply IH; lia.
  - rewrite <- Hs. apply frame_depth_bound. apply quadtreeCompress_frame.
Qed.

(** The fuel that [buildTree] gives is enough at the depths at which it
    starts the splitter. *)
Lemma fuel_for_enough (q : Quadtree) (image : Mat) (m : nat) (depth : Z)
    (node : QuadtreeNode) (s : Quadtree) :
  0 <= depth -> depth_bound s = depth_bound q -> (fuel_for q <= m)%nat ->
  quadtreeCompress (fuel_for q) image depth node s = quadtreeCompress m image depth node s.
Proof.
  intros Hd Hs Hm. apply quadtreeCompress_fuel; [|exact Hm].
  rewrite Hs. unfold fuel_for. lia.
Qed.

(** With the tasks taken in the order of their launch, the three loops
    differ only in where they look at the timeout flag: while it stays
    clear they visit the same children in the same way. *)
Lemma run_children_no_timeout (rec : SubCall) (loop loop' : ChildLoop)
    (cs : Quad QuadtreeNode) (q : Quadtree) :
  (forall c s, timeoutFlag s = false -> timeoutFlag (snd (rec c s)) = false) ->
  timeoutFlag q = false ->
  run_children rec loop cs q = run_children rec loop' cs q.
Proof.
  intros H Hq.
  assert (Hb : forall l i s, timeoutFlag s = false -> breaks_after l i s = false).
  { intros l i s Hs. unfold breaks_after. rewrite Hs. destruct l; auto using andb_false_r. }
  unfold run_children.
  pose proof (H (q0 cs) q Hq) as T0. destruct (rec (q0 cs) q) as [c0 s0]. cbn [snd] in T0.
  rewrite !Hb by exact T0.
  pose proof (H (q1 cs) s0 T0) as T1. destruct (rec (q1 cs) s0) as [c1 s1]. cbn [snd] in T1.
  rewrite !Hb by exact T1.
  pose proof (H (q2 cs) s1 T1) as T2. destruct (rec (q2 cs) s1) as [c2 s2]. cbn [snd] in T2.
  rewrite !Hb by exact T2. reflexivity.
Qed.

End Fuel.

(* ================================================================== *)
(** ** The tree metrics on well-shaped trees *)

(** Leaves, nodes and depth of a tree whose nodes all have the shape of
    C4: a tree with [i] internal nodes has [3 i + 1] leaves and [4 i + 1]
    nodes, and a tree of depth [d] has at most [4 ^ (d - 1)] leaves. *)
Lemma shaped_tree_counts :
  forall n : QuadtreeNode,
    Forall node_shape (subnodes n) ->
    3 * getNodeCountHelper n = 4 * countLeafNodes n - 1 /\
    1 <= getTreeDepthHelper n /\
    1 <= countLeafNodes n <= 4 ^ (getTreeDepthHelper n - 1) /\
    getTreeDepthHelper n <= getNodeCountHelper n.
Proof.
  induction n as [n IH] using QuadtreeNode_tree_ind. intros Hs.
  apply Forall_subnodes_node in Hs. destruct Hs as [Hn Hc].
  destruct n as [x0 y0 w h col [o0 o1 o2 o3] l].
  unfold Quad_all in IH, Hc. cbn [children q0 q1 q2 q3] in IH, Hc.
  destruct IH as (I0 & I1 & I2 & I3). destruct Hc as (S0 & S1 & S2 & S3).
  destruct Hn as [[Hl Hk]|[Hl Hk]]; cbn [isLeaf] in Hl; subst l.
  - cbn. repeat split; lia.
  - unfold four_children, Quad_all in Hk. cbn [children q0 q1 q2 q3] in Hk.
    destruct Hk as (K0 & K1 & K2 & K3).
    destruct o0 as [c0|]; [|congruence]. destruct o1 as [c1|]; [|congruence].
    destruct o2 as [c2|]; [|congruence]. destruct o3 as [c3|]; [|congruence].
    specialize (I0 S0). specialize (I1 S1). specialize (I2 S2). specialize (I3 S3).
    cbn [getNodeCountHelper countLeafNodes getTreeDepthHelper isLeaf children q0 q1 q2 q3].
    set (d := Z.max (Z.max (Z.max (Z.max 0 (getTreeDepthHelper c0)) (getTreeDepthHelper c1))
                           (getTreeDepthHelper c2)) (getTreeDepthHelper c3)).
    assert (Hd : 1 <= d) by lia.
    assert (Hp : forall c, 1 <= getTreeDepthHelper c <= d ->
                           4 ^ (getTreeDepthHelper c - 1) <= 4 ^ (d - 1)).
    { intros c Hc. apply Z.pow_le_mono_r; lia. }
    pose proof (Hp c0 ltac:(lia)). pose proof (Hp c1 ltac:(lia)).
    pose proof (Hp c2 ltac:(lia)). pose proof (Hp c3 ltac:(lia)).
    replace (1 + d - 1) with (Z.succ (d - 1)) by lia.
    rewrite Z.pow_succ_r by lia.
    repeat split; lia.
Qed.

Section TreeMetrics.
Context {E : Externals}.

(** X1.  In every tree that [compressImage] builds, the three traversals
    agree: [3 * getNodeCount = 4 * countLeafNodes - 1] (each split turns one
    leaf into an internal node with four leaves), the depth is at least 1
    and at most the number of nodes, and there are at most
    [4 ^ (depth - 1)] leaves. *)
Theorem compressImage_tree_counts (q : Quadtree) :
  let t := compressImage q in
  3 * getNodeCount t = 4 * countLeafNodes_ptr (root t) - 1 /\
  1 <= getTreeDepth t <= getNodeCount t /\
  1 <= countLeafNodes_ptr (root t) <= 4 ^ (getTreeDepth t - 1).
Proof.
  cbv zeta. unfold compressImage, getNodeCount, getTreeDepth, countLeafNodes_ptr.
  destruct (buildTree_shape (prepare q)) as (r & -> & Hs). cbn [on_ptr].
  destruct (shaped_tree_counts r Hs) as (H1 & H2 & H3 & H4).
  repeat split; lia.
Qed.

End TreeMetrics.

(* ================================================================== *)
(** ** How deep and how large a tree can get *)

Section DepthLimit.
Context {E : Externals}.

(** A depth limit [B] that holds wherever the invariant [Inv] does, and an
    invariant that the splitter keeps. *)
Variable B : Z.
Variable Inv : Quadtree -> Prop.
Hypothesis Inv_limit :
  forall s image node depth,
    Inv s ->
    match visit s image node depth with
    | Return _ _ => True
    | Recurse _ _ _ _ => depth <= B
    end.
Hypothesis Inv_frame : forall s s', Inv s -> frame s s' -> Inv s'.

Lemma quadtreeCompress_depth (fuel : nat) (image : Mat) :
  forall (depth : Z) (node : QuadtreeNode) (q : Quadtree),
    unsplit node -> Inv q ->
    getTreeDepthHelper (fst (quadtreeCompress fuel image depth node q))
    <= Z.max 1 (B - depth + 2).
Proof.
  induction fuel as [|fuel IH]; intros depth node q Hn Hq.
  - cbn [quadtreeCompress fst]. rewrite leaf_depth by apply Hn. lia.
  - cbn [quadtreeCompress].
    pose proof (visit_shape q image node depth Hn) as Hs.
    pose proof (Inv_limit q image node depth Hq) as Hd.
    pose proof (visit_frame q image node depth) as Hf.
    destruct (visit q image node depth) as [n' q'|n' cs loop q'].
    + cbn [fst]. rewrite leaf_depth by apply Hs. lia.
    + destruct Hs as [Hl U]. destruct Hf as [_ Hf].
      destruct (run_children_rel Inv unsplit
                  (fun _ c' => getTreeDepthHelper c' <= Z.max 1 (B - (depth + 1) + 2))
                  (quadtreeCompress fuel image (depth + 1)) loop cs q')
        as (D0 & D1 & D2 & D3 & _).
      * intros c s Hc Hs. split; [now apply IH|].
        apply (Inv_frame s); [exact Hs | apply quadtreeCompress_frame].
      * intros c Hc. rewrite leaf_depth by apply Hc. lia.
      * exact U.
      * now apply (Inv_frame q).
      * destruct (run_children _ loop cs q') as [cs' q'']. cbn [fst] in *.
        destruct n' as [x0 y0 w h col ch l]. cbn [isLeaf] in Hl. subst l.
        cbn [getTreeDepthHelper set_children isLeaf children Quad_map q0 q1 q2 q3]. lia.
Qed.

Lemma buildTree_depth (q : Quadtree) :
  Inv q -> 0 <= B -> getTreeDepth (buildTree q) <= B + 2.
Proof.
  intros Hq HB. unfold buildTree, getTreeDepth.
  destruct (500000 <? _).
  - set (cs := quad _ _ _ _).
    destruct (run_children_rel Inv unsplit
                (fun _ c' => getTreeDepthHelper c' <= Z.max 1 (B - 1 + 2))
                (quadtreeCompress (fuel_for q) (sourceImage q) 1) AsyncTasks cs q)
      as (D0 & D1 & D2 & D3 & _).
    + intros c s Hc Hs. split; [now apply quadtreeCompress_depth|].
      apply (Inv_frame s); [exact Hs | apply quadtreeCompress_frame].
    + intros c Hc. rewrite leaf_depth by apply Hc. lia.
    + repeat split.
    + exact Hq.
    + destruct (run_children _ AsyncTasks cs q) as [cs' q']. cbn [fst] in *.
      cbn [root set_root on_ptr getTreeDepthHelper set_children set_isLeaf newNode isLeaf
           children Quad_map q0 q1 q2 q3]. lia.
  - pose proof (quadtreeCompress_depth (fuel_for q) (sourceImage q) 0
                  (newNode 0 0 (cols (sourceImage q)) (rows (sourceImage q))) q
                  (newNode_unsplit _ _ _ _) Hq) as Hd.
    destruct (quadtreeCompress _ _ 0 _ q) as [r q']. cbn [fst] in Hd.
    cbn [root set_root on_ptr]. lia.
Qed.

End DepthLimit.

Section TreeSize.
Context {E : Externals}.

(** Without the grid regimes the limit is [maxDepth]. *)
Lemma visit_depth_plain (q : Quadtree) (image : Mat) (node : QuadtreeNode) (depth : Z) :
  useHybridCompression q = false -> forceLowCompression q = false ->
  match visit q image node depth with
  | Return _ _ => True
  | Recurse _ _ _ _ => depth <= maxDepth q
  end.
Proof.
  intros Hhy Hfl.
  destruct (visit q image node depth) as [|n' cs loop q'] eqn:Hv; [exact I|].
  unfold visit in Hv. rewrite Hhy, Hfl in Hv. cbn [orb andb] in Hv.
  rewrite ?Hhy, ?Hfl in Hv. cbn [orb andb] in Hv.
  repeat match goal with
         | H : context [if ?c then _ else _] |- _ => destruct c eqn:?
         end;
    try discriminate; bool_hyps; lia.
Qed.

(** X2.  The tree that [compressImage] builds has at most two levels more
    than the largest depth limit of the plan in force (two levels when
    that limit is negative); when no target percentage is set that is at
    most 12 levels. *)
Theorem compressImage_depth (q : Quadtree) :
  getTreeDepth (compressImage q) <= Z.max 0 (depth_bound (prepare q)) + 2 /\
  ((targetCompressionPct q <= 0)%Q -> getTreeDepth (compressImage q) <= 12).
Proof.
  unfold compressImage. split.
  - apply (buildTree_depth (Z.max 0 (depth_bound (prepare q)))
             (fun s => depth_bound s = depth_bound (prepare q))).
    + intros s image node depth Hs. rewrite <- Hs.
      pose proof (visit_depth s image node depth) as Hd.
      destruct (visit s image node depth); [exact I | lia].
    + intros s s' Hs Hf. rewrite <- Hs. now apply frame_depth_bound.
    + reflexivity.
    + lia.
  - intros Htgt. rewrite (prepare_no_target q Htgt).
    apply (buildTree_depth 10
             (fun s => useHybridCompression s = false /\ forceLowCompression s = false
                       /\ maxDepth s = 10)); [| | repeat split | lia].
    + intros s image node depth (Hhy & Hfl & Hmax). rewrite <- Hmax.
      now apply visit_depth_plain.
    + unfold frame. intros s s' (Hhy & Hfl & Hmax) Hf. decompose [and] Hf.
      repeat split; [| | congruence].
      * destruct (useHybridCompression s') eqn:Hb; [|reflexivity].
        symmetry. rewrite <- Hhy. auto.
      * destruct (forceLowCompression s') eqn:Hb; [|reflexivity].
        symmetry. rewrite <- Hfl. auto.
Qed.

End TreeSize.

Section NodeCap.
Context {E : Externals}.

Lemma prepare_counter (q : Quadtree) :
  nodeCounter (prepare q) = 0 /\ timeoutFlag (prepare q) = false /\ settled (prepare q).
Proof.
  unfold prepare, adjustThresholdForTargetCompression, settled.
  cbn [reset_state targetCompressionPct set_maxDepth set_nodeCounter set_timeoutFlag
       set_forceLowCompression set_useHybridCompression].
  destruct (dlt 0 (targetCompressionPct q)) eqn:Hpos.
  - apply dlt_true in Hpos.
    assert (Hle : dle (targetCompressionPct q) 0 = false) by (now apply dle_false).
    repeat case_if; cbn; rewrite ?Hle, ?andb_false_r; repeat split; congruence.
  - cbn. repeat split.
Qed.

(** X3.  On an image of at most 500000 pixels (no asynchronous task is
    started), when [compressImage] returns the node counter is the number
    of nodes below the root; it never passes 150004, so the tree has at
    most 150005 nodes and 112504 leaves. *)
Theorem compressImage_node_cap (q : Quadtree) :
  rows (sourceImage q) * cols (sourceImage q) <= 500000 ->
  let t := compressImage q in
  nodeCounter t = getNodeCount t - 1 /\
  nodeCounter t <= 150004 /\
  getNodeCount t <= 150005 /\
  countLeafNodes_ptr (root t) <= 112504.
Proof.
  intros Hsize. cbv zeta.
  assert (Hpre : rows (sourceImage (prepare q)) * cols (sourceImage (prepare q)) <= 500000)
    by (now rewrite prepare_sourceImage).
  destruct (prepare_counter q) as (Hc0 & _ & Hset).
  unfold compressImage. revert Hpre Hc0 Hset. generalize (prepare q) as p.
  intros p Hpre Hc0 Hset.
  destruct (buildTree_shape p) as (r & Hroot & Hshape).
  destruct (shaped_tree_counts r Hshape) as (Hnodes & _ & _ & _).
  unfold getNodeCount, countLeafNodes_ptr. rewrite Hroot. cbn [on_ptr].
  revert Hroot. unfold buildTree.
  replace (500000 <? rows (sourceImage p) * cols (sourceImage p)) with false
    by (symmetry; apply Z.ltb_ge; exact Hpre).
  pose proof (quadtreeCompress_count (fuel_for p) (sourceImage p) 0
                (newNode 0 0 (cols (sourceImage p)) (rows (sourceImage p))) p
                (newNode_unsplit _ _ _ _)) as Hcount.
  destruct (quadtreeCompress_settled (fuel_for p) (sourceImage p) 0
              (newNode 0 0 (cols (sourceImage p)) (rows (sourceImage p))) p Hset)
    as (k & Hk & [[_ Hmax] _] & _).
  { rewrite Hc0. split; [unfold MAX_NODES; lia | reflexivity]. }
  destruct (quadtreeCompress _ _ 0 _ p) as [r' p']. cbn [fst snd] in *.
  cbn [root set_root]. intros [= ->]. subst p'.
  cbn [nodeCounter set_nodeCounter set_root] in *. unfold MAX_NODES in Hmax.
  repeat split; lia.
Qed.

End NodeCap.

Example compressImage_node_cap_witness :
  let t := compressImage (E := reference_externals) (Quadtree_new stripes8x8 1 1 VARIANCE 0) in
  nodeCounter t = getNodeCount t - 1 /\
  nodeCounter t <= 150004 /\
  getNodeCount t <= 150005 /\
  countLeafNodes_ptr (root t) <= 112504.
Proof.
  apply (compressImage_node_cap (E := reference_externals)
           (Quadtree_new stripes8x8 1 1 VARIANCE 0)).
  cbn. lia.
Defined.

(* ================================================================== *)
(** ** The ranges of the error metrics *)

Lemma fold3_sums (l : list Vec3b) :
  forall a b c : Z,
    fold_left (fun acc p => (fun p '(a, b, c) => (a + ch0 p, b + ch1 p, c + ch2 p)) p acc)
              l (a, b, c)
    = (a + chan_sum ch0 l, b + chan_sum ch1 l, c + chan_sum ch2 l).
Proof.
  induction l as [|p l IH]; intros a b c.
  - cbn. now rewrite !Z.add_0_r.
  - cbn [fold_left chan_sum fold_right]. rewrite IH. unfold chan_sum.
    f_equal; [f_equal|]; ring.
Qed.

Lemma pixel_sum_chan (block : Mat) :
  pixel_sum block
  = (chan_sum ch0 (pixels block), chan_sum ch1 (pixels block), chan_sum ch2 (pixels block)).
Proof. unfold pixel_sum. rewrite for_pixels_fold. apply fold3_sums. Qed.

Lemma chan_sum_range (ch : Vec3b -> Z) (l : list Vec3b) :
  Forall (fun p => valid_uchar (ch p)) l ->
  0 <= chan_sum ch l <= 255 * Z.of_nat (length l).
Proof.
  induction 1 as [|p l Hp _ IH]; [cbn; lia|].
  cbn [chan_sum fold_right length]. fold (chan_sum ch l).
  unfold valid_uchar in Hp. lia.
Qed.

Lemma valid_channels (l : list Vec3b) :
  Forall valid_pixel l ->
  Forall (fun p => valid_uchar (ch0 p)) l /\ Forall (fun p => valid_uchar (ch1 p)) l /\
  Forall (fun p => valid_uchar (ch2 p)) l.
Proof.
  intros H. repeat split; eapply Forall_impl; try exact H; intros p Hp; apply Hp.
Qed.

(** The four accumulators of a metric loop, one by one. *)
Lemma fold4_split (f0 f1 f2 : Vec3b -> Q) (l : list Vec3b) :
  forall (a b c : Q) (n : Z),
    fold_left (fun acc p =>
                 (fun pixel '(a, b, c, n) =>
                    ((a + f0 pixel)%Q, (b + f1 pixel)%Q, (c + f2 pixel)%Q, n + 1)) p acc)
              l (a, b, c, n)
    = (fold_left (fun a p => (a + f0 p)%Q) l a, fold_left (fun a p => (a + f1 p)%Q) l b,
       fold_left (fun a p => (a + f2 p)%Q) l c, n + Z.of_nat (length l)).
Proof.
  induction l as [|p l IH]; intros a b c n.
  - cbn. now rewrite Z.add_0_r.
  - cbn [fold_left length]. rewrite IH. f_equal. lia.
Qed.

Lemma Qsq_nonneg (y : Q) : (0 <= y * y)%Q.
Proof. destruct y as [n d]. unfold Qle, Qmult. cbn. nia. Qed.

(** A sum of squared deviations from any [m], of values in [0, 255]. *)
Lemma sq_dev_sum (ch : Vec3b -> Z) (m : Q) (l : list Vec3b) :
  Forall (fun p => valid_uchar (ch p)) l ->
  forall a : Q,
    (a <= fold_left (fun a p => a + sq (inject_Z (ch p) - m)) l a)%Q /\
    (fold_left (fun a p => a + sq (inject_Z (ch p) - m)) l a
     <= a + (255 - 2 * m) * inject_Z (chan_sum ch l)
          + inject_Z (Z.of_nat (length l)) * (m * m))%Q.
Proof.
  induction 1 as [|p l Hp _ IH]; intros a.
  - cbn [fold_left chan_sum fold_right length]. change (inject_Z (Z.of_nat 0)) with 0%Q.
    change (inject_Z 0) with 0%Q. split; [apply Qle_refl|]. ring_simplify. apply Qle_refl.
  - cbn [fold_left chan_sum fold_right length]. fold (chan_sum ch l).
    destruct (IH (a + sq (inject_Z (ch p) - m))%Q) as [Hlo Hhi].
    rewrite Nat2Z.inj_succ. unfold Z.succ. rewrite !inject_Z_plus.
    change (inject_Z 1) with 1%Q.
    destruct Hp as [Hp0 Hp1]. rewrite Zle_Qle in Hp0, Hp1.
    change (inject_Z 0) with 0%Q in Hp0. change (inject_Z 255) with 255%Q in Hp1.
    revert Hlo Hhi Hp0 Hp1. unfold sq.
    generalize (fold_left (fun a p => (a + (inject_Z (ch p) - m) * (inject_Z (ch p) - m))%Q) l
                  (a + (inject_Z (ch p) - m) * (inject_Z (ch p) - m))%Q).
    generalize (inject_Z (chan_sum ch l)). generalize (inject_Z (Z.of_nat (length l))).
    generalize (inject_Z (ch p)). intros x k s r Hlo Hhi Hp0 Hp1.
    pose proof (Qsq_nonneg (x - m)) as H1.
    assert (H2 : (0 <= x * (255 - x))%Q) by (apply Qmult_le_0_compat; lra).
    split; lra.
Qed.

(** A sum of absolute deviations from an [m] in [0, 255]. *)
Lemma abs_dev_sum (ch : Vec3b -> Z) (m : Q) (l : list Vec3b) :
  (0 <= m)%Q -> (m <= 255)%Q ->
  Forall (fun p => valid_uchar (ch p)) l ->
  forall a : Q,
    (a <= fold_left (fun a p => a + Qabs (inject_Z (ch p) - m)) l a)%Q /\
    (fold_left (fun a p => a + Qabs (inject_Z (ch p) - m)) l a
     <= a + 255 * inject_Z (Z.of_nat (length l)))%Q.
Proof.
  intros Hm0 Hm1. induction 1 as [|p l Hp _ IH]; intros a.
  - cbn [fold_left length]. change (inject_Z (Z.of_nat 0)) with 0%Q.
    split; [apply Qle_refl|]. ring_simplify. apply Qle_refl.
  - cbn [fold_left length].
    destruct (IH (a + Qabs (inject_Z (ch p) - m))%Q) as [Hlo Hhi].
    rewrite Nat2Z.inj_succ. unfold Z.succ. rewrite inject_Z_plus.
    change (inject_Z 1) with 1%Q.
    destruct Hp as [Hp0 Hp1]. rewrite Zle_Qle in Hp0, Hp1.
    change (inject_Z 0) with 0%Q in Hp0. change (inject_Z 255) with 255%Q in Hp1.
    assert (Habs : (0 <= Qabs (inject_Z (ch p) - m))%Q /\
                   (Qabs (inject_Z (ch p) - m) <= 255)%Q).
    { split; [apply Qabs_nonneg|]. apply Qabs_Qle_condition. split; lra. }
    revert Hlo Hhi Habs.
    generalize (fold_left (fun a p => (a + Qabs (inject_Z (ch p) - m))%Q) l
                  (a + Qabs (inject_Z (ch p) - m))%Q).
    generalize (Qabs (inject_Z (ch p) - m)). generalize (inject_Z (Z.of_nat (length l))).
    intros k d r Hlo Hhi [Hd0 Hd1]. split; lra.
Qed.

(** Around the mean of the values the sum of squares is at most
    [n * (255 / 2) ^ 2]. *)
Lemma sq_dev_mean (ch : Vec3b -> Z) (l : list Vec3b) (N : Q) :
  Forall (fun p => valid_uchar (ch p)) l ->
  N = inject_Z (Z.of_nat (length l)) -> (0 < N)%Q ->
  (0 <= fold_left (fun a p => a + sq (inject_Z (ch p) - inject_Z (chan_sum ch l) / N)) l 0)%Q /\
  (fold_left (fun a p => a + sq (inject_Z (ch p) - inject_Z (chan_sum ch l) / N)) l 0
   <= N * (65025 # 4))%Q.
Proof.
  intros Hv HN Hpos.
  destruct (sq_dev_sum ch (inject_Z (chan_sum ch l) / N) l Hv 0) as [Hlo Hhi].
  split; [exact Hlo|]. rewrite <- HN in Hhi.
  assert (HS : (inject_Z (chan_sum ch l) == inject_Z (chan_sum ch l) / N * N)%Q)
    by (field; lra).
  revert Hhi HS.
  generalize (fold_left
                (fun a p => (a + sq (inject_Z (ch p) - inject_Z (chan_sum ch l) / N))%Q) l 0%Q).
  generalize (inject_Z (chan_sum ch l) / N)%Q. generalize (inject_Z (chan_sum ch l)).
  intros S m r Hhi HS. rewrite HS in Hhi.
  pose proof (Qsq_nonneg (m - (255 # 2))) as Hsq.
  assert (H : (0 <= N * ((m - (255 # 2)) * (m - (255 # 2))))%Q)
    by (apply Qmult_le_0_compat; lra).
  lra.
Qed.

Lemma block_pixels (block : Mat) :
  empty block = false ->
  rows block * cols block = Z.of_nat (length (pixels block)) /\
  0 < rows block * cols block.
Proof.
  unfold empty. intros He. apply orb_false_iff in He. destruct He as [Hr Hc].
  apply Z.leb_gt in Hr, Hc.
  rewrite (length_pixels block) by lia. split; [reflexivity | nia].
Qed.

Lemma mean_chan (block : Mat) :
  mean block
  = mkScalar (inject_Z (chan_sum ch0 (pixels block)) / inject_Z (rows block * cols block))
             (inject_Z (chan_sum ch1 (pixels block)) / inject_Z (rows block * cols block))
             (inject_Z (chan_sum ch2 (pixels block)) / inject_Z (rows block * cols block)).
Proof. unfold mean. now rewrite pixel_sum_chan. Qed.

Lemma mean_quotient_range (s n : Z) :
  0 < n -> 0 <= s <= 255 * n ->
  (0 <= inject_Z s / inject_Z n)%Q /\ (inject_Z s / inject_Z n <= 255)%Q.
Proof.
  intros Hn [Hlo Hhi].
  assert (HN : (0 < inject_Z n)%Q) by (now rewrite <- (Zlt_Qlt 0)).
  split.
  - apply Qle_shift_div_l; [exact HN|]. rewrite Qmult_0_l. now rewrite <- (Zle_Qle 0).
  - apply Qle_shift_div_r; [exact HN|].
    change 255%Q with (inject_Z 255). rewrite <- inject_Z_mult. now rewrite <- Zle_Qle.
Qed.

(** The mean of an 8-bit block is in [0, 255] on every channel. *)
Lemma mean_range (block : Mat) :
  valid_image block -> empty block = false ->
  ((0 <= s0 (mean block))%Q /\ (s0 (mean block) <= 255)%Q) /\
  ((0 <= s1 (mean block))%Q /\ (s1 (mean block) <= 255)%Q) /\
  ((0 <= s2 (mean block))%Q /\ (s2 (mean block) <= 255)%Q).
Proof.
  intros Hv He. rewrite mean_chan. cbn [s0 s1 s2].
  destruct (block_pixels block He) as [Hn Hpos].
  destruct (valid_channels _ (pixels_valid block Hv)) as (V0 & V1 & V2).
  pose proof (chan_sum_range ch0 _ V0). pose proof (chan_sum_range ch1 _ V1).
  pose proof (chan_sum_range ch2 _ V2).
  repeat split; apply mean_quotient_range; lia.
Qed.

(** The variance is at most the square of 255 / 2: the squared deviations
    are taken around the exact mean of the block. *)
Lemma calculateVariance_bounds (block : Mat) :
  valid_image block ->
  (0 <= calculateVariance block)%Q /\ (calculateVariance block <= 65025 # 4)%Q.
Proof.
  intros Hv. unfold calculateVariance.
  destruct (empty block) eqn:He; [cbn [orb]; split; lra|]. cbn [orb].
  destruct (rows block * cols block <=? 1) eqn:Hone; [split; lra|].
  apply Z.leb_gt in Hone.
  destruct (block_pixels block He) as [Hn _].
  destruct (valid_channels _ (pixels_valid block Hv)) as (V0 & V1 & V2).
  rewrite mean_chan. cbn [s0 s1 s2]. rewrite for_pixels_fold.
  set (N := inject_Z (rows block * cols block)).
  pose proof (fold4_split
                (fun pixel => sq (inject_Z (ch0 pixel) - inject_Z (chan_sum ch0 (pixels block)) / N))
                (fun pixel => sq (inject_Z (ch1 pixel) - inject_Z (chan_sum ch1 (pixels block)) / N))
                (fun pixel => sq (inject_Z (ch2 pixel) - inject_Z (chan_sum ch2 (pixels block)) / N))
                (pixels block) 0%Q 0%Q 0%Q 0) as Hsplit.
  cbv beta in Hsplit. rewrite Hsplit. clear Hsplit.
  rewrite Z.add_0_l, <- Hn.
  replace (rows block * cols block <=? 1) with false by (symmetry; apply Z.leb_gt; lia).
  assert (HN : (1 < N)%Q).
  { unfold N. change 1%Q with (inject_Z 1). rewrite <- Zlt_Qlt. lia. }
  assert (HNlen : N = inject_Z (Z.of_nat (length (pixels block)))) by (unfold N; now rewrite Hn).
  destruct (sq_dev_mean ch0 (pixels block) N V0 HNlen ltac:(lra)) as [A0 A1].
  destruct (sq_dev_mean ch1 (pixels block) N V1 HNlen ltac:(lra)) as [B0 B1].
  destruct (sq_dev_mean ch2 (pixels block) N V2 HNlen ltac:(lra)) as [C0 C1].
  revert A0 A1 B0 B1 C0 C1.
  generalize (fold_left (fun a p => (a + sq (inject_Z (ch0 p) - inject_Z (chan_sum ch0 (pixels block)) / N))%Q) (pixels block) 0%Q).
  generalize (fold_left (fun a p => (a + sq (inject_Z (ch1 p) - inject_Z (chan_sum ch1 (pixels block)) / N))%Q) (pixels block) 0%Q).
  generalize (fold_left (fun a p => (a + sq (inject_Z (ch2 p) - inject_Z (chan_sum ch2 (pixels block)) / N))%Q) (pixels block) 0%Q).
  intros c b a A0 A1 B0 B1 C0 C1.
  fold N. clearbody N. split; [apply Qle_shift_div_l | apply Qle_shift_div_r]; lra.
Qed.

Lemma stripes8x8_valid : valid_image stripes8x8.
Proof. intros i j. cbn. destruct (_ =? _); repeat split; cbn; lia. Qed.

Lemma fold_left_Qsum (g : Vec3b -> Q) (l : list Vec3b) :
  forall a : Q, (fold_left (fun a p => a + g p) l a == a + Qsum g l)%Q.
Proof.
  induction l as [|p l IH]; intros a.
  - cbn. ring.
  - cbn [fold_left Qsum fold_right]. rewrite IH. unfold Qsum. ring.
Qed.

Lemma Qsum_nonneg (g : Vec3b -> Q) (l : list Vec3b) :
  (forall p, 0 <= g p)%Q -> (0 <= Qsum g l)%Q.
Proof.
  intros Hg. induction l as [|p l IH]; [apply Qle_refl|].
  cbn [Qsum fold_right]. fold (Qsum g l). specialize (Hg p). lra.
Qed.

(** The square of a sum of [n] absolute values is at most [n] times the sum
    of the squares. *)
Lemma Qsum_abs_square (g : Vec3b -> Q) (l : list Vec3b) :
  (Qsum (fun p => Qabs (g p)) l * Qsum (fun p => Qabs (g p)) l
   <= inject_Z (Z.of_nat (length l)) * Qsum (fun p => g p * g p) l)%Q.
Proof.
  induction l as [|p l IH].
  - cbn. apply Qle_refl.
  - cbn [Qsum fold_right length].
    fold (Qsum (fun p => Qabs (g p)) l). fold (Qsum (fun p => (g p * g p)%Q) l).
    rewrite Nat2Z.inj_succ. unfold Z.succ. rewrite inject_Z_plus.
    change (inject_Z 1) with 1%Q.
    assert (Hsq : (Qabs (g p) * Qabs (g p) == g p * g p)%Q).
    { rewrite <- Qabs_Qmult. apply Qabs_pos. apply Qsq_nonneg. }
    assert (Hn : (0 <= inject_Z (Z.of_nat (length l)))%Q).
    { rewrite <- (Zle_Qle 0). lia. }
    pose proof (Qsum_nonneg (fun p => (g p * g p)%Q) l (fun p => Qsq_nonneg (g p))) as HT.
    pose proof (Qabs_nonneg (g p)) as Ha.
    pose proof (Qsum_nonneg (fun p => Qabs (g p)) l (fun p => Qabs_nonneg (g p))) as HS.
    destruct l as [|p' l'].
    + cbn in *. rewrite <- Hsq. ring_simplify. apply Qle_refl.
    + assert (Hpos : (1 <= inject_Z (Z.of_nat (length (p' :: l'))))%Q).
      { change 1%Q with (inject_Z 1). rewrite <- Zle_Qle. cbn [length]. lia. }
      revert IH Hsq Hn HT Ha HS Hpos.
      generalize (Qsum (fun p => Qabs (g p)) (p' :: l')).
      generalize (Qsum (fun p => (g p * g p)%Q) (p' :: l')).
      generalize (inject_Z (Z.of_nat (length (p' :: l')))).
      generalize (Qabs (g p)). generalize (g p * g p)%Q.
      intros b a n T S IH Hsq Hn HT Ha HS Hpos.
      pose proof (Qsq_nonneg (S - n * a)) as Hd.
      assert (H2 : (n * (2 * a * S) <= n * (T + n * (a * a)))%Q) by lra.
      assert (H3 : (2 * a * S <= T + n * (a * a))%Q).
      { apply (Qmult_le_l _ _ n); lra. }
      rewrite <- Hsq. lra.
Qed.

(** A non-negative number whose square is at most [c * c] is at most [c]. *)
Lemma Qle_of_squares (a c : Q) : (0 <= a)%Q -> (0 <= c)%Q -> (a * a <= c * c)%Q -> (a <= c)%Q.
Proof.
  intros Ha Hc H. destruct (Qlt_le_dec c a) as [Hlt|Hle]; [|exact Hle].
  exfalso.
  assert (H1 : (0 < (a - c) * (a + c))%Q) by (apply Qmult_lt_0_compat; lra).
  lra.
Qed.

(** Around the mean of the values the absolute deviations sum to at most
    [n * 255 / 2]. *)
Lemma abs_dev_mean (ch : Vec3b -> Z) (l : list Vec3b) (N : Q) :
  Forall (fun p => valid_uchar (ch p)) l ->
  N = inject_Z (Z.of_nat (length l)) -> (0 < N)%Q ->
  (0 <= fold_left (fun a p => a + Qabs (inject_Z (ch p) - inject_Z (chan_sum ch l) / N)) l 0)%Q /\
  (fold_left (fun a p => a + Qabs (inject_Z (ch p) - inject_Z (chan_sum ch l) / N)) l 0
   <= N * (255 # 2))%Q.
Proof.
  intros Hv HN Hpos.
  set (m := (inject_Z (chan_sum ch l) / N)%Q).
  destruct (sq_dev_mean ch l N Hv HN Hpos) as [_ Hsq]. fold m in Hsq.
  rewrite (fold_left_Qsum (fun p => sq (inject_Z (ch p) - m)) l 0) in Hsq.
  rewrite (fold_left_Qsum (fun p => Qabs (inject_Z (ch p) - m)) l 0).
  pose proof (Qsum_abs_square (fun p => inject_Z (ch p) - m)%Q l) as Hcs.
  rewrite <- HN in Hcs. unfold sq in Hsq.
  pose proof (Qsum_nonneg (fun p => Qabs (inject_Z (ch p) - m)) l
                (fun p => Qabs_nonneg _)) as HA.
  revert Hsq Hcs HA.
  generalize (Qsum (fun p => Qabs (inject_Z (ch p) - m)) l).
  generalize (Qsum (fun p => (inject_Z (ch p) - m) * (inject_Z (ch p) - m))%Q l).
  intros T A Hsq Hcs HA.
  split; [lra|].
  assert (Hle : (A <= N * (255 # 2))%Q).
  { apply Qle_of_squares; [exact HA | nra |].
    assert (H : (N * T <= N * (N * (65025 # 4)))%Q) by (apply Qmult_le_l; lra).
    lra. }
  lra.
Qed.

(** The mean absolute deviation is at most 255 / 2. *)
Lemma calculateMAD_bounds (block : Mat) :
  valid_image block ->
  (0 <= calculateMAD block)%Q /\ (calculateMAD block <= 255 # 2)%Q.
Proof.
  intros Hv. unfold calculateMAD.
  destruct (empty block) eqn:He; [split; lra|].
  destruct (block_pixels block He) as [Hn Hpos].
  destruct (valid_channels _ (pixels_valid block Hv)) as (V0 & V1 & V2).
  rewrite mean_chan. cbn [s0 s1 s2]. rewrite for_pixels_fold.
  set (N := inject_Z (rows block * cols block)).
  pose proof (fold4_split
                (fun pixel => Qabs (inject_Z (ch0 pixel) - inject_Z (chan_sum ch0 (pixels block)) / N))
                (fun pixel => Qabs (inject_Z (ch1 pixel) - inject_Z (chan_sum ch1 (pixels block)) / N))
                (fun pixel => Qabs (inject_Z (ch2 pixel) - inject_Z (chan_sum ch2 (pixels block)) / N))
                (pixels block) 0%Q 0%Q 0%Q 0) as Hsplit.
  cbv beta in Hsplit. rewrite Hsplit. clear Hsplit.
  rewrite Z.add_0_l, <- Hn.
  replace (rows block * cols block =? 0) with false by (symmetry; apply Z.eqb_neq; lia).
  assert (HN : (0 < N)%Q) by (unfold N; now rewrite <- (Zlt_Qlt 0)).
  assert (HNlen : N = inject_Z (Z.of_nat (length (pixels block)))) by (unfold N; now rewrite Hn).
  destruct (abs_dev_mean ch0 (pixels block) N V0 HNlen HN) as [A0 A1].
  destruct (abs_dev_mean ch1 (pixels block) N V1 HNlen HN) as [B0 B1].
  destruct (abs_dev_mean ch2 (pixels block) N V2 HNlen HN) as [C0 C1].
  revert A0 A1 B0 B1 C0 C1.
  generalize (fold_left (fun a p => (a + Qabs (inject_Z (ch0 p) - inject_Z (chan_sum ch0 (pixels block)) / N))%Q) (pixels block) 0%Q).
  generalize (fold_left (fun a p => (a + Qabs (inject_Z (ch1 p) - inject_Z (chan_sum ch1 (pixels block)) / N))%Q) (pixels block) 0%Q).
  generalize (fold_left (fun a p => (a + Qabs (inject_Z (ch2 p) - inject_Z (chan_sum ch2 (pixels block)) / N))%Q) (pixels block) 0%Q).
  intros c b a A0 A1 B0 B1 C0 C1. fold N. clearbody N.
  split; [apply Qle_shift_div_l | apply Qle_shift_div_r]; lra.
Qed.

Lemma halves4x4_valid : valid_image halves4x4.
Proof. intros i j. cbn. destruct (_ <? _); repeat split; cbn; lia. Qed.



Section MetricRanges.
Context {E : Externals}.

Lemma ssimValue_range (block avgBlock : Mat) (ch : Vec3b -> Z) :
  (0 <= ssimValue block avgBlock ch)%Q /\ (ssimValue block avgBlock ch <= 1)%Q.
Proof.
  unfold ssimValue.
  destruct (for_index _ _ _ (0%Q, 0%Q, 0)) as [[mu1 mu2] N].
  destruct (N =? 0); [split; lra|].
  destruct (for_index _ _ _ (0%Q, 0%Q, 0%Q)) as [[s1 s2] s12].
  cbv zeta. unfold dmax, dmin.
  repeat destruct (Qlt_le_dec _ _); split; lra.
Qed.

(** Where the structural comparison is made, or a block is missing. *)
Lemma calculateSSIM_wide (block avgBlock : Mat) :
  (rows block <? 4) || (cols block <? 4) = false \/ empty block || empty avgBlock = true ->
  (0 <= calculateSSIM block avgBlock)%Q /\ (calculateSSIM block avgBlock <= 1 # 2)%Q.
Proof.
  intros H. unfold calculateSSIM.
  destruct (empty block || empty avgBlock); [split; lra|].
  destruct H as [-> | H]; [|discriminate].
  destruct (ssimValue_range block avgBlock ch0) as [A0 A1].
  destruct (ssimValue_range block avgBlock ch1) as [B0 B1].
  destruct (ssimValue_range block avgBlock ch2) as [C0 C1].
  cbv zeta. split; lra.
Qed.

Lemma calculateSSIM_bounds (block avgBlock : Mat) :
  valid_image block ->
  (0 <= calculateSSIM block avgBlock)%Q /\ (calculateSSIM block avgBlock <= 65025 # 4000)%Q.
Proof.
  intros Hv.
  destruct (empty block || empty avgBlock) eqn:He.
  { destruct (calculateSSIM_wide block avgBlock) as [H0 H1]; [right; exact He|]. split; lra. }
  destruct ((rows block <? 4) || (cols block <? 4)) eqn:Hnarrow.
  - unfold calculateSSIM. rewrite He, Hnarrow.
    destruct (calculateVariance_bounds block Hv) as [V0 V1].
    split; [apply Qle_shift_div_l | apply Qle_shift_div_r]; lra.
  - destruct (calculateSSIM_wide block avgBlock) as [H0 H1]; [left; exact Hnarrow|].
    split; lra.
Qed.


(** X7.  On blocks of 8-bit pixels [calculateMaxPixelDiff] ranges over
    [0, 255]; the upper end is reached on a block that is half black and
    half white. *)
Theorem calculateMaxPixelDiff_tight :
  (forall block, valid_image block ->
     (0 <= calculateMaxPixelDiff block)%Q /\ (calculateMaxPixelDiff block <= 255)%Q) /\
  (exists block, valid_image block /\ (calculateMaxPixelDiff block == 255)%Q).
Proof.
  split; [exact calculateMaxPixelDiff_range|].
  exists halves4x4. split; [exact halves4x4_valid|].
  apply Qeq_bool_iff. vm_compute. reflexivity.
Qed.

Hypothesis log2_ok : log2_laws E.

Lemma calculateEntropy_bounds (block : Mat) :
  valid_image block -> empty block = false ->
  (0 <= calculateEntropy block)%Q /\ (calculateEntropy block <= 5)%Q.
Proof.
  intros Hv He. destruct (block_pixels block He) as [_ Hpos].
  assert (Hr : 0 <= rows block /\ 0 <= cols block).
  { unfold empty in He. apply orb_false_iff in He. destruct He as [Hr Hc].
    apply Z.leb_gt in Hr, Hc. lia. }
  destruct Hr as [Hr Hc].
  destruct (Z_lt_le_dec (rows block * cols block) 16) as [Hsize|Hsize].
  - rewrite calculateEntropy_small
      by (apply orb_true_iff; right; now apply Z.ltb_lt).
    destruct (calculateMaxPixelDiff_range block Hv) as [Hlo Hhi].
    split; [apply Qle_shift_div_l | apply Qle_shift_div_r]; lra.
  - rewrite calculateEntropy_large by assumption.
    pose proof (shannon768_nonneg log2_ok block Hr Hc Hsize) as Hs.
    assert (H3 : (0 <= shannon768 block / 3)%Q) by (apply Qle_shift_div_l; lra).
    unfold dmin. destruct (Qlt_le_dec _ _); split; lra.
Qed.

Lemma calculateError_bounds (q : Quadtree) (block avgBlock : Mat) :
  valid_image block ->
  (0 <= calculateError q block avgBlock)%Q /\
  (small_block_substitute q block = true ->
   (calculateError q block avgBlock <= 255 # 2)%Q) /\
  (small_block_substitute q block = false ->
   (calculateError q block avgBlock <= metric_range (errorMethod q))%Q).
Proof.
  intros Hv. unfold calculateError, small_block_substitute.
  destruct (empty block) eqn:He.
  { cbn [orb]. repeat split; intros; destruct (errorMethod q); cbn; lra. }
  cbn [orb].
  destruct ((rows block =? 1) && (cols block =? 1));
    [repeat split; intros; destruct (errorMethod q); cbn; lra|].
  destruct (calculateVariance_bounds block Hv) as [V0 V1].
  destruct (calculateMAD_bounds block Hv) as [M0 M1].
  destruct (calculateMaxPixelDiff_range block Hv) as [P0 P1].
  destruct (calculateEntropy_bounds block Hv He) as [E0 E1].
  assert (HS : forall a, (0 <= calculateSSIM block a)%Q /\
                         (calculateSSIM block a <= 65025 # 4000)%Q)
    by (intros a; now apply calculateSSIM_bounds).
  destruct ((rows block * cols block <=? 9) && (minBlockSize q =? 2));
    destruct (errorMethod q); cbn [andb metric_range];
    repeat split; intros; try discriminate;
    try (destruct (empty avgBlock)); try apply HS; lra.
Qed.


(** With a threshold above the range of the metric the error test accepts
    every block: no visit splits. *)
Lemma visit_overrange (q : Quadtree) (image : Mat) (node : QuadtreeNode) (depth : Z) :
  valid_image image ->
  useHybridCompression q = false -> forceLowCompression q = false ->
  (metric_range (errorMethod q) < threshold q)%Q ->
  (minBlockSize q = 2 -> (255 # 2 < threshold q)%Q) ->
  match visit q image node depth with
  | Return n' q' => unsplit node -> unsplit n' /\ q' = q
  | Recurse _ _ _ _ => False
  end.
Proof.
  intros Hv Hhy Hfl HT HT2.
  assert (Hpos : (0 < threshold q)%Q) by (destruct (errorMethod q); cbn in HT; lra).
  pose proof (visit_shape q image node depth) as Hshape.
  pose proof (visit_settled q image node depth) as Hset.
  assert (Hblock : forall r, valid_image (roi image r)) by (intros r i j; apply Hv).
  destruct (visit q image node depth) as [n' q'|n' cs loop q'] eqn:Hvis.
  { intros Hn. split; [now apply Hshape|]. apply Hset.
    unfold settled. now rewrite Hhy, Hfl. }
  unfold visit in Hvis. rewrite Hhy, Hfl in Hvis. cbn [orb andb] in Hvis.
  rewrite ?Hhy, ?Hfl in Hvis. cbn [orb andb] in Hvis.
  set (block := roi image (clamped_rect node image)) in *.
  set (err := match errorMethod q with
              | SSIM =>
                  calculateError q block
                    (Mat_fill (rows block) (cols block)
                       (Scalar_of_Vec3b (avgColor (calculateAverageColor node image))))
              | _ => calculateError q block Mat_default
              end) in *.
  assert (Herr : (minBlockSize q = 2 -> 9 < rows block * cols block) ->
                 (err < threshold q)%Q).
  { intros Hsub.
    assert (Hno : small_block_substitute q block = false).
    { unfold small_block_substitute.
      destruct (Z.eqb_spec (minBlockSize q) 2) as [H2|H2].
      - specialize (Hsub H2).
        replace (rows block * cols block <=? 9) with false; [reflexivity|].
        symmetry. apply Z.leb_gt. exact Hsub.
      - now rewrite andb_false_r. }
    assert (Hle : forall a, (calculateError q block a <= metric_range (errorMethod q))%Q).
    { intros a. destruct (calculateError_bounds q block a (Hblock _)) as (_ & _ & H).
      exact (H Hno). }
    unfold err. destruct (errorMethod q); eapply Qle_lt_trans; try apply Hle; exact HT. }
  destruct (calculateMaxPixelDiff_range block (Hblock _)) as [_ P1].
  assert (Hsize : rows block * cols block
                  = rw (clamped_rect node image) * rh (clamped_rect node image))
    by (unfold block; cbn [roi rows cols]; ring).
  set (mpd := calculateMaxPixelDiff block) in *. clearbody err mpd.
  clear Hshape Hset Hblock Hv. 
  destruct (minBlockSize q =? 2) eqn:Hmin.
  - apply Z.eqb_eq in Hmin. specialize (HT2 Hmin).
    repeat match goal with
           | H : context [if ?c then _ else _] |- _ => destruct c eqn:?
           end;
      try discriminate;
      match goal with
      | H : dlt ?e ?t = false |- _ => apply dlt_false in H
      end;
      try lra;
      assert (He : (err < threshold q)%Q) by (apply Herr; intros _; bool_hyps; lia);
      lra.
  - apply Z.eqb_neq in Hmin.
    repeat match goal with
           | H : context [if ?c then _ else _] |- _ => destruct c eqn:?
           end;
      try discriminate;
      match goal with
      | H : dlt ?e ?t = false |- _ => apply dlt_false in H
      end;
      assert (He : (err < threshold q)%Q) by (apply Herr; intros H2; contradiction);
      lra.
Qed.

Lemma buildTree_overrange (p : Quadtree) :
  valid_image (sourceImage p) ->
  useHybridCompression p = false -> forceLowCompression p = false ->
  rows (sourceImage p) * cols (sourceImage p) <= 500000 ->
  (metric_range (errorMethod p) < threshold p)%Q ->
  (minBlockSize p = 2 -> (255 # 2 < threshold p)%Q) ->
  exists r,
    buildTree p = set_root p (Some r) /\ isLeaf r = true /\ no_children r.
Proof.
  intros Hv Hhy Hfl Hsize HT HT2. unfold buildTree.
  replace (500000 <? rows (sourceImage p) * cols (sourceImage p)) with false
    by (symmetry; apply Z.ltb_ge; exact Hsize).
  unfold fuel_for. generalize (Z.to_nat (depth_bound p)). intros n.
  generalize (newNode_unsplit 0 0 (cols (sourceImage p)) (rows (sourceImage p))).
  generalize (newNode 0 0 (cols (sourceImage p)) (rows (sourceImage p))). intros node Hn.
  pose proof (visit_overrange p (sourceImage p) node 0 Hv Hhy Hfl HT HT2) as Hvis.
  change (quadtreeCompress (S (S n)) (sourceImage p) 0 node p)
    with (match visit p (sourceImage p) node 0 with
          | Return node' q' => (node', q')
          | Recurse node' cs loop q' =>
              let '(cs', q'') :=
                run_children (quadtreeCompress (S n) (sourceImage p) (0 + 1)) loop cs q' in
              (set_children node' (Quad_map Some cs'), q'')
          end).
  destruct (visit p (sourceImage p) node 0) as [n' q'|]; [|contradiction].
  destruct (Hvis Hn) as [[Hl Hc] ->].
  exists n'. split; [reflexivity|]. split; assumption.
Qed.


End MetricRanges.



(* ================================================================== *)
(** ** Powers of two and the grids of the target regimes *)

Lemma land_pow2_pred (k : Z) : 0 <= k -> Z.land (2 ^ k) (2 ^ k - 1) = 0.
Proof.
  intros Hk. change (2 ^ k - 1) with (Z.pred (2 ^ k)). rewrite <- Z.ones_equiv.
  rewrite Z.land_ones by exact Hk. apply Z.mod_same. apply Z.pow_nonzero; lia.
Qed.

Lemma pow2_of_land (n : Z) : 0 < n -> Z.land n (n - 1) = 0 -> n = 2 ^ Z.log2 n.
Proof.
  intros Hn Hland. destruct (Z.log2_spec n Hn) as [Hlo Hhi].
  pose proof (Z.log2_nonneg n) as Hk.
  destruct (Z.eq_dec n (2 ^ Z.log2 n)) as [Heq|Hne]; [exact Heq|]. exfalso.
  assert (Hlog : Z.log2 (n - 1) = Z.log2 n).
  { apply Z.log2_unique; [exact Hk | lia]. }
  assert (Hbit : Z.testbit (Z.land n (n - 1)) (Z.log2 n) = true).
  { rewrite Z.land_spec, (Z.bit_log2 n Hn).
    rewrite <- Hlog. rewrite Z.bit_log2 by lia. reflexivity. }
  rewrite Hland, Z.bits_0 in Hbit. discriminate.
Qed.

(** X10.  [isPowerOfTwo] accepts exactly the powers of two. *)
Theorem isPowerOfTwo_spec (n : Z) :
  isPowerOfTwo n = true <-> exists k, 0 <= k /\ n = 2 ^ k.
Proof.
  unfold isPowerOfTwo. split.
  - intros H. apply andb_true_iff in H. destruct H as [Hpos Hland].
    apply Z.ltb_lt in Hpos. apply Z.eqb_eq in Hland.
    exists (Z.log2 n). split; [apply Z.log2_nonneg | now apply pow2_of_land].
  - intros (k & Hk & ->). apply andb_true_iff. split.
    + apply Z.ltb_lt. apply Z.pow_pos_nonneg; lia.
    + apply Z.eqb_eq. now apply land_pow2_pred.
Qed.

Lemma isPowerOfTwo_pow2 (n : Z) : (exists k, 0 <= k /\ n = 2 ^ k) -> isPowerOfTwo n = true.
Proof.
  intros (k & Hk & ->). unfold isPowerOfTwo. apply andb_true_iff. split.
  - apply Z.ltb_lt. apply Z.pow_pos_nonneg; lia.
  - apply Z.eqb_eq. now apply land_pow2_pred.
Qed.

(** The doubling loop from a power of two, with fuel to reach the grid
    size. *)
Lemma powerOf2_loop_spec (fuel : nat) :
  forall p g i : Z,
    0 <= i -> p = 2 ^ i -> p <= g -> g < p * 2 ^ Z.of_nat fuel ->
    exists j, i <= j /\ powerOf2_loop fuel p g = 2 ^ j /\
              powerOf2_loop fuel p g <= g < 2 * powerOf2_loop fuel p g.
Proof.
  induction fuel as [|fuel IH]; intros p g i Hi Hp Hle Hlt.
  - cbn in Hlt. lia.
  - cbn [powerOf2_loop]. destruct (Z.leb_spec (p * 2) g) as [Hd|Hd].
    + destruct (IH (p * 2) g (i + 1)) as (j & Hj & Hr & Hb).
      * lia.
      * rewrite Z.pow_add_r by lia. rewrite Hp. reflexivity.
      * exact Hd.
      * rewrite Nat2Z.inj_succ, Z.pow_succ_r in Hlt by lia. lia.
      * exists j. split; [lia|]. split; assumption.
    + exists i. split; [lia|]. split; [exact Hp | lia].
Qed.

Lemma largest_powerOf2_spec (g : Z) :
  exists j, 0 <= j /\ largest_powerOf2 g = 2 ^ j /\
            (1 <= g -> largest_powerOf2 g <= g < 2 * largest_powerOf2 g) /\
            (g < 1 -> largest_powerOf2 g = 1).
Proof.
  unfold largest_powerOf2. destruct (Z_lt_le_dec g 1) as [Hsmall|Hbig].
  - exists 0. split; [lia|].
    assert (H : powerOf2_loop (Z.to_nat g) 1 g = 1).
    { destruct (Z.to_nat g); [reflexivity|]. cbn [powerOf2_loop].
      destruct (Z.leb_spec (1 * 2) g); [lia | reflexivity]. }
    rewrite H. repeat split; lia.
  - destruct (powerOf2_loop_spec (Z.to_nat g) 1 g 0) as (j & Hj & Hr & Hb);
      [lia | reflexivity | lia | |].
    + rewrite Z2Nat.id by lia. pose proof (Z.pow_gt_lin_r 2 g). lia.
    + exists j. repeat split; try lia; exact Hr.
Qed.

Lemma static_cast_int_floor (d : Q) : (0 <= d)%Q -> static_cast_int d = Qfloor d.
Proof.
  destruct d as [n k]. unfold Qle, static_cast_int, Qfloor. cbn. intros Hn.
  apply Z.quot_div_nonneg; lia.
Qed.

Lemma static_cast_int_scale (c : Z) (r : Q) :
  0 <= c -> (0 <= r)%Q -> (r <= 1)%Q ->
  0 <= static_cast_int (inject_Z c * r) <= c.
Proof.
  intros Hc Hr0 Hr1.
  assert (HC : (0 <= inject_Z c)%Q) by (now rewrite <- (Zle_Qle 0)).
  assert (Hd0 : (0 <= inject_Z c * r)%Q) by (apply Qmult_le_0_compat; assumption).
  assert (Hd1 : (inject_Z c * r <= inject_Z c)%Q) by nra.
  rewrite static_cast_int_floor by exact Hd0. split.
  - exact (Qfloor_resp_le _ _ Hd0).
  - pose proof (Qfloor_resp_le _ _ Hd1) as H. now rewrite Qfloor_Z in H.
Qed.

Section TargetBands.
Context {E : Externals}.

(** X11.  A target percentage between 0 and 20 replaces the threshold by
    the constant of the metric and the minimum block size by a power of
    two, at least 2: the largest one that does not exceed the grid size
    [floor(sqrt(pixels * (1 - P / 100)))], so that the square of the block
    does not exceed the number of pixels to keep.  The threshold and the
    block size that the aggregate had play no part. *)
Theorem low_target_plan (q : Quadtree) (image : Mat) :
  (0 < targetCompressionPct q)%Q -> (targetCompressionPct q < 20)%Q ->
  let q' := adjustThresholdForTargetCompression q image in
  let kept := (inject_Z (cols image * rows image) * (1 - targetCompressionPct q / 100))%Q in
  threshold q' = low_target_threshold (errorMethod q) /\
  isPowerOfTwo (minBlockSize q') = true /\ 2 <= minBlockSize q' /\
  (2 <= int_sqrt kept ->
   minBlockSize q' <= int_sqrt kept < 2 * minBlockSize q' /\
   (inject_Z (minBlockSize q' * minBlockSize q') <= kept)%Q) /\
  (int_sqrt kept < 2 -> minBlockSize q' = 2) /\
  forceLowCompression q' = forceLowCompression q /\
  useHybridCompression q' = useHybridCompression q /\
  maxDepth q' = maxDepth q.
Proof.
  intros Hpos Hlow. cbv zeta. unfold adjustThresholdForTargetCompression.
  replace (dle (targetCompressionPct q) 0) with false by (symmetry; now apply dle_false).
  replace (dlt (targetCompressionPct q) 20) with true by (symmetry; now apply dlt_true).
  cbn [threshold minBlockSize set_threshold set_minBlockSize forceLowCompression
       useHybridCompression maxDepth errorMethod].
  set (g := int_sqrt _).
  destruct (largest_powerOf2_spec g) as (j & Hj & Hp & Hbig & Hsmall).
  split; [reflexivity|]. split; [|split; [lia|]].
  - apply isPowerOfTwo_pow2.
    destruct (Z_lt_le_dec (largest_powerOf2 g) 2) as [H|H].
    + exists 1. split; [lia|]. rewrite Z.max_l by lia. reflexivity.
    + exists j. split; [lia|]. rewrite Z.max_r by lia. exact Hp.
  - split; [|split; [|repeat split]].
    + intros Hg. specialize (Hbig ltac:(lia)).
      assert (H2 : 2 <= largest_powerOf2 g).
      { destruct (Z.eq_dec j 0) as [->|Hj0]; [cbn in Hp; lia|].
        rewrite Hp. change 2 with (2 ^ 1) at 1. apply Z.pow_le_mono_r; lia. }
      rewrite Z.max_r by lia. split; [lia|].
      unfold g, int_sqrt in *.
      set (x := (inject_Z (cols image * rows image) * (1 - targetCompressionPct q / 100))%Q)
        in *.
      assert (Hx : 0 <= Qfloor x).
      { destruct (Z_lt_le_dec (Qfloor x) 0) as [Hneg|]; [|lia].
        rewrite (Z.sqrt_neg _ Hneg) in Hg. lia. }
      destruct (Z.sqrt_spec (Qfloor x) Hx) as [Hs _].
      apply Qle_trans with (inject_Z (Qfloor x)); [|apply Qfloor_le].
      rewrite <- Zle_Qle. nia.
    + intros Hg. destruct (Z_lt_le_dec g 1) as [H1|H1].
      * rewrite (Hsmall H1). reflexivity.
      * specialize (Hbig H1). lia.
Qed.

(** X12.  A target percentage from 20 up to 75 keeps the threshold and switches
    to the fixed grid: [forceLowCompression] is set and the minimum block
    size becomes a power of two.  When the hybrid plan is added to it, the
    centre region lies inside the image, the centre block size is a power
    of two, at least 2, the outer block size is twice the grid block, and
    the depth limits are 10 in the centre and at most 4 outside. *)
Theorem mid_target_plan (q : Quadtree) (image : Mat) :
  (20 <= targetCompressionPct q)%Q -> (targetCompressionPct q < 75)%Q ->
  0 <= cols image -> 0 <= rows image ->
  useHybridCompression q = false ->
  let q' := adjustThresholdForTargetCompression q image in
  threshold q' = threshold q /\
  forceLowCompression q' = true /\
  isPowerOfTwo (minBlockSize q') = true /\
  (useHybridCompression q' = true ->
   (0 <= rx (centerRegion q') /\ 0 <= rw (centerRegion q') /\
    rx (centerRegion q') + rw (centerRegion q') <= cols image) /\
   (0 <= ry (centerRegion q') /\ 0 <= rh (centerRegion q') /\
    ry (centerRegion q') + rh (centerRegion q') <= rows image) /\
   isPowerOfTwo (centerMinBlockSize q') = true /\ 2 <= centerMinBlockSize q' /\
   outerMinBlockSize q' = 2 * minBlockSize q' /\
   centerMaxDepth q' = 10 /\ outerMaxDepth q' <= 4).
Proof.
  intros Hlo Hhi Hc Hr Hhy. cbv zeta. unfold adjustThresholdForTargetCompression.
  replace (dle (targetCompressionPct q) 0) with false by (symmetry; apply dle_false; lra).
  replace (dlt (targetCompressionPct q) 20) with false by (symmetry; now apply dlt_false).
  replace (dlt (targetCompressionPct q) 75) with true by (symmetry; now apply dlt_true).
  cbv zeta. set (g := int_sqrt _).
  destruct (largest_powerOf2_spec g) as (j & Hj & Hp & _ & _).
  assert (Hpow : isPowerOfTwo (largest_powerOf2 g) = true).
  { apply isPowerOfTwo_pow2. now exists j. }
  assert (Hcenter : isPowerOfTwo (Z.max 2 (cdiv (largest_powerOf2 g) 2)) = true /\
                    2 <= Z.max 2 (cdiv (largest_powerOf2 g) 2)).
  { split; [|lia]. apply isPowerOfTwo_pow2. rewrite Hp.
    destruct (Z_lt_le_dec j 2) as [Hsmall|Hbig].
    - exists 1. split; [lia|].
      assert (Hj01 : j = 0 \/ j = 1) by lia. destruct Hj01 as [-> | ->]; reflexivity.
    - exists (j - 1). split; [lia|].
      replace (2 ^ j) with (2 ^ (j - 1) * 2)
        by (replace j with (Z.succ (j - 1)) at 2 by lia;
            rewrite Z.pow_succ_r by lia; ring).
      unfold cdiv. rewrite Z.quot_mul by lia.
      apply Z.max_r. change 2 with (2 ^ 1) at 1. apply Z.pow_le_mono_r; lia. }
  assert (Hregion : forall (c : Z) (r : Q), 0 <= c -> (0 <= r)%Q -> (r <= 1)%Q ->
            0 <= cdiv (c - static_cast_int (inject_Z c * r)) 2 /\
            0 <= static_cast_int (inject_Z c * r) /\
            cdiv (c - static_cast_int (inject_Z c * r)) 2
            + static_cast_int (inject_Z c * r) <= c).
  { intros c r Hc0 Hr0 Hr1. pose proof (static_cast_int_scale c r Hc0 Hr0 Hr1) as Hs.
    rewrite cdiv_2_nonneg by lia. split; [apply Z.div_pos; lia|]. split; [lia|].
    Z.to_euclidean_division_equations. lia. }
  destruct (dlt 10 _).
  - cbn [threshold forceLowCompression minBlockSize useHybridCompression centerRegion
         centerMinBlockSize outerMinBlockSize centerMaxDepth outerMaxDepth
         set_hybrid_plan set_useHybridCompression set_forceLowCompression set_maxDepth
         set_minBlockSize rx ry rw rh].
    split; [reflexivity|]. split; [reflexivity|]. split; [exact Hpow|]. intros _.
    assert (Hratio : (0 <= (if dlt (targetCompressionPct q) 40 then 0.6
                            else if dlt 60 (targetCompressionPct q) then 0.3 else 0.4))%Q /\
                     ((if dlt (targetCompressionPct q) 40 then 0.6
                       else if dlt 60 (targetCompressionPct q) then 0.3 else 0.4) <= 1)%Q).
    { destruct (dlt _ 40); [split; lra|]. destruct (dlt 60 _); split; lra. }
    destruct Hratio as [R0 R1].
    split; [now apply Hregion|]. split; [now apply Hregion|].
    split; [apply Hcenter|]. split; [apply Hcenter|].
    split; [lia|]. split; [reflexivity | lia].
  - cbn [threshold forceLowCompression minBlockSize useHybridCompression
         set_useHybridCompression set_forceLowCompression set_maxDepth set_minBlockSize].
    split; [reflexivity|]. split; [reflexivity|]. split; [exact Hpow|].
    rewrite Hhy. discriminate.
Qed.

End TargetBands.

Example low_target_plan_witness :
  let q := Quadtree_new stripes8x8 100 1 VARIANCE 10 in
  let image := stripes8x8 in
  let q' := adjustThresholdForTargetCompression (E := reference_externals) q image in
  let kept := (inject_Z (cols image * rows image) * (1 - targetCompressionPct q / 100))%Q in
  threshold q' = low_target_threshold (errorMethod q) /\
  isPowerOfTwo (minBlockSize q') = true /\ 2 <= minBlockSize q' /\
  (2 <= int_sqrt kept ->
   minBlockSize q' <= int_sqrt kept < 2 * minBlockSize q' /\
   (inject_Z (minBlockSize q' * minBlockSize q') <= kept)%Q) /\
  (int_sqrt kept < 2 -> minBlockSize q' = 2) /\
  forceLowCompression q' = forceLowCompression q /\
  useHybridCompression q' = useHybridCompression q /\
  maxDepth q' = maxDepth q.
Proof.
  apply (low_target_plan (E := reference_externals)
           (Quadtree_new stripes8x8 100 1 VARIANCE 10) stripes8x8).
  - unfold Qlt. cbn. lia.
  - unfold Qlt. cbn. lia.
Defined.

Example mid_target_plan_witness :
  let q := Quadtree_new stripes8x8 100 1 VARIANCE 50 in
  let image := stripes8x8 in
  let q' := adjustThresholdForTargetCompression (E := reference_externals) q image in
  threshold q' = threshold q /\
  forceLowCompression q' = true /\
  isPowerOfTwo (minBlockSize q') = true /\
  (useHybridCompression q' = true ->
   (0 <= rx (centerRegion q') /\ 0 <= rw (centerRegion q') /\
    rx (centerRegion q') + rw (centerRegion q') <= cols image) /\
   (0 <= ry (centerRegion q') /\ 0 <= rh (centerRegion q') /\
    ry (centerRegion q') + rh (centerRegion q') <= rows image) /\
   isPowerOfTwo (centerMinBlockSize q') = true /\ 2 <= centerMinBlockSize q' /\
   outerMinBlockSize q' = 2 * minBlockSize q' /\
   centerMaxDepth q' = 10 /\ outerMaxDepth q' <= 4).
Proof.
  apply (mid_target_plan (E := reference_externals)
           (Quadtree_new stripes8x8 100 1 VARIANCE 50) stripes8x8).
  - unfold Qle. cbn. lia.
  - unfold Qlt. cbn. lia.
  - cbn. lia.
  - cbn. lia.
  - reflexivity.
Defined.
